(** * FileManagerPro: the filesystem core of the n8n navigator

    A shallow embedding of the path utilities of
    [Installer/GUI/Logic/Core/file_utils.c], the permission printers of
    [Core/file_ops.c], the command handlers of [Logic/navigator.cpp] and the
    entry point of [Logic/main.cpp], followed by the properties that the
    specification states about them.

    Conventions.  A C string ([const char*], [char buf[N]]) and a
    [std::string] are both modelled by the list of their characters, the
    terminating NUL being implicit: a loop guard [*p] is "the list is not
    exhausted".  Integers of the C code are [Z] (modes, return codes) or
    [nat] (lengths and buffer sizes, where the code never wraps). *)

From Stdlib Require Import ZArith Ascii String List Lia.
From Stdlib Require Import Sorting.Sorted Sorting.Permutation.
From stdpp Require Import base decidable list gmap strings pretty sorting.

(** ** Characters and C strings *)

Abbreviation cstr := (list ascii).

(** A string literal of the source. *)
Definition cs (s : string) : cstr := list_ascii_of_string s.

Definition NUL : ascii := Ascii.zero.
Definition SLASH : ascii := "/"%char.
Definition BACKSLASH : ascii := "\"%char.

(** [<limits.h>] on Linux. *)
Definition PATH_MAX : nat := 4096.
Definition NAME_MAX : nat := 255.

(** The value of a [char] in a comparison such as [*p < 32]: [char] is
    signed on the platforms the code targets. *)
Definition char_value (c : ascii) : Z :=
  let n := Z.of_nat (nat_of_ascii c) in
  (if n <? 128 then n else n - 256)%Z.

Module LibC.

(** [strncpy(dst, src, n); dst[n] = '\0']: the first [n] characters. *)
Definition strncpy (src : cstr) (n : nat) : cstr := take n src.

(** [strncat(dst, src, n)]: appends at most [n] characters of [src]. *)
Definition strncat (dst src : cstr) (n : nat) : cstr := dst ++ take n src.

(** The pieces of [s] between occurrences of [d], empty ones included;
    the result is never the empty list. *)
Fixpoint split_on (d : ascii) (s : cstr) : list cstr :=
  match s with
  | [] => [[]]
  | c :: s' =>
      if decide (c = d) then [] :: split_on d s'
      else match split_on d s' with
           | seg :: segs => (c :: seg) :: segs
           | [] => [[c]]
           end
  end.

(** The successive results of [strtok(s, d)], [strtok(NULL, d)], ... for
    a one-character delimiter set, up to the first [NULL]: the maximal
    non-empty runs of characters other than [d]. *)
Definition strtok_all (d : ascii) (s : cstr) : list cstr :=
  filter (λ t, t ≠ []) (split_on d s).

(** [strncmp(a, b, n) == 0]. *)
Definition strncmp_eq (a b : cstr) (n : nat) : bool :=
  bool_decide (take n a = take n b).

(** [strcmp(a, b) == 0]. *)
Definition strcmp_eq (a b : cstr) : bool := bool_decide (a = b).

(** [strstr(hay, needle) != NULL]. *)
Fixpoint strstr (hay needle : cstr) : bool :=
  strncmp_eq hay needle (length needle) ||
  match hay with
  | [] => false
  | _ :: hay' => strstr hay' needle
  end.

(** [strchr(s, c) != NULL]. *)
Definition strchr (s : cstr) (c : ascii) : bool := bool_decide (c ∈ s).

(** [strrchr(s, c)]: the index of the last [c], [None] for [NULL]. *)
Definition strrchr (s : cstr) (c : ascii) : option nat :=
  match list_find (λ x, x = c) (reverse s) with
  | Some (i, _) => Some (length s - 1 - i)
  | None => None
  end.

End LibC.

(** ** [<sys/stat.h>]: the bits of [st_mode] (octal in the header) *)

Definition S_IFMT : Z := 0xF000.   (* 0170000 *)
Definition S_IFSOCK : Z := 0xC000. (* 0140000 *)
Definition S_IFLNK : Z := 0xA000.  (* 0120000 *)
Definition S_IFREG : Z := 0x8000.  (* 0100000 *)
Definition S_IFBLK : Z := 0x6000.  (* 0060000 *)
Definition S_IFDIR : Z := 0x4000.  (* 0040000 *)
Definition S_IFCHR : Z := 0x2000.  (* 0020000 *)
Definition S_IFIFO : Z := 0x1000.  (* 0010000 *)
Definition S_ISUID : Z := 0x800.   (* 04000 *)
Definition S_ISGID : Z := 0x400.   (* 02000 *)
Definition S_ISVTX : Z := 0x200.   (* 01000 *)
Definition S_IRUSR : Z := 0x100.   (* 0400 *)
Definition S_IWUSR : Z := 0x80.    (* 0200 *)
Definition S_IXUSR : Z := 0x40.    (* 0100 *)
Definition S_IRGRP : Z := 0x20.    (* 040 *)
Definition S_IWGRP : Z := 0x10.    (* 020 *)
Definition S_IXGRP : Z := 0x8.     (* 010 *)
Definition S_IROTH : Z := 0x4.
Definition S_IWOTH : Z := 0x2.
Definition S_IXOTH : Z := 0x1.

Definition S_ISDIR (mode : Z) : bool := (Z.land mode S_IFMT =? S_IFDIR)%Z.
Definition S_ISLNK (mode : Z) : bool := (Z.land mode S_IFMT =? S_IFLNK)%Z.
Definition S_ISFIFO (mode : Z) : bool := (Z.land mode S_IFMT =? S_IFIFO)%Z.
Definition S_ISSOCK (mode : Z) : bool := (Z.land mode S_IFMT =? S_IFSOCK)%Z.
Definition S_ISCHR (mode : Z) : bool := (Z.land mode S_IFMT =? S_IFCHR)%Z.
Definition S_ISBLK (mode : Z) : bool := (Z.land mode S_IFMT =? S_IFBLK)%Z.

(** [mode & bit] used as a condition. *)
Definition has_bit (mode bit : Z) : bool := negb (Z.land mode bit =? 0)%Z.

(** The components [l] written with [d] between them. *)
Definition join_with (d : ascii) (l : list cstr) : cstr :=
  match l with
  | [] => []
  | c :: rest => c ++ concat (map (cons d) rest)
  end.

(** ** The operating system

    A model of the part of POSIX the code calls.  The file system is a
    finite map from absolute path names to inodes; a key is the canonical
    name of its node, and the entries of a directory are the keys one
    component below it.  Name resolution follows a symbolic link only in
    the last component of a path, and no call fails for lack of
    permission, space or memory.  A failing call returns [None] (the
    [-1] or [NULL] of C) and stores its reason into [w_errno]. *)

Module Posix.

Inductive errno_t :=
| ESUCCESS | ENOENT | EEXIST | ENOTDIR | EISDIR | EINVAL | ENOTEMPTY | ELOOP.

Global Instance errno_eq_dec : EqDecision errno_t.
Proof. solve_decision. Defined.

Definition errno_value (e : errno_t) : Z :=
  match e with
  | ESUCCESS => 0 | ENOENT => 2 | EEXIST => 17 | ENOTDIR => 20
  | EISDIR => 21 | EINVAL => 22 | ENOTEMPTY => 39 | ELOOP => 40
  end.

Definition strerror (e : errno_t) : cstr :=
  cs match e with
     | ESUCCESS => "Success"
     | ENOENT => "No such file or directory"
     | EEXIST => "File exists"
     | ENOTDIR => "Not a directory"
     | EISDIR => "Is a directory"
     | EINVAL => "Invalid argument"
     | ENOTEMPTY => "Directory not empty"
     | ELOOP => "Too many levels of symbolic links"
     end.

Inductive file_kind :=
| Regular (data : cstr)
| Directory
| Symlink (target : cstr).

Record inode := Inode {
  i_kind : file_kind;
  i_perm : Z;
  i_uid : Z;
  i_gid : Z;
  i_atime : Z;
  i_mtime : Z
}.

(** The fields of [struct stat] that the code reads. *)
Record stat_t := Stat {
  st_mode : Z;
  st_size : Z;
  st_uid : Z;
  st_gid : Z;
  st_atime : Z;
  st_mtime : Z
}.

(** What the calls read besides the files: the working directory of
    the process (only [chdir] changes it), its credentials, the clock,
    the identity databases, the rendering of [strftime] after
    [localtime], and the figures that [statvfs] reports. *)
Record environment := Environment {
  e_cwd : cstr;
  e_uid : Z;
  e_gid : Z;
  e_umask : Z;
  e_now : Z;
  e_passwd : gmap Z cstr;
  e_group : gmap Z cstr;
  e_strftime : Z → cstr;
  f_blocks : Z;
  f_bfree : Z;
  f_bavail : Z;
  f_frsize : Z
}.

(** [w_journal] is no part of the system: it records, oldest first, the
    names that [unlink] and [rmdir] have removed, so that the order of the
    removals can be stated. *)
Record world := World {
  w_fs : gmap cstr inode;
  w_errno : errno_t;
  w_env : environment;
  w_journal : list cstr
}.

Definition set_errno (e : errno_t) (w : world) : world :=
  World (w_fs w) e (w_env w) (w_journal w).

Definition set_fs (fs : gmap cstr inode) (w : world) : world :=
  World fs (w_errno w) (w_env w) (w_journal w).

(** The node at [key] goes and the journal notes it. *)
Definition remove (key : cstr) (w : world) : world :=
  World (delete key (w_fs w)) (w_errno w) (w_env w) (w_journal w ++ [key]).

Definition fail {A} (e : errno_t) (w : world) : option A * world :=
  (None, set_errno e w).

Inductive res (A : Type) :=
| Ok (a : A)
| Err (e : errno_t).
Arguments Ok {A} a.
Arguments Err {A} e.

Definition kind_bits (k : file_kind) : Z :=
  match k with
  | Regular _ => S_IFREG
  | Directory => S_IFDIR
  | Symlink _ => S_IFLNK
  end.

Definition is_dir (ino : inode) : bool :=
  match i_kind ino with Directory => true | _ => false end.

Definition stat_of (ino : inode) : stat_t :=
  {| st_mode := Z.lor (kind_bits (i_kind ino)) (Z.land (i_perm ino) 0xFFF);
     st_size := match i_kind ino with
                | Regular data => Z.of_nat (length data)
                | Directory => 4096
                | Symlink target => Z.of_nat (length target)
                end;
     st_uid := i_uid ino;
     st_gid := i_gid ino;
     st_atime := i_atime ino;
     st_mtime := i_mtime ino |}.

(** *** Names *)

Definition is_absolute (path : cstr) : bool :=
  bool_decide (head path = Some SLASH).

(** [name] below the directory [dir]. *)
Definition below (dir name : cstr) : cstr :=
  if bool_decide (dir = cs "/") then SLASH :: name
  else dir ++ SLASH :: name.

(** The key a path stands for: itself when absolute, otherwise taken
    from the working directory. *)
Definition locate (w : world) (path : cstr) : cstr :=
  if is_absolute path then path else below (e_cwd (w_env w)) path.

(** The directory part of a key. *)
Definition dirname (key : cstr) : cstr :=
  match join_with SLASH (removelast (LibC.split_on SLASH key)) with
  | [] => cs "/"
  | dir => dir
  end.

Definition SYMLOOP_MAX : nat := 40.

(** Follows the symbolic links at [key]; the result names a node that
    is not a link, or nothing. *)
Fixpoint follow_last (fs : gmap cstr inode) (hops : nat) (key : cstr)
    : res cstr :=
  match fs !! key with
  | Some ino =>
      match i_kind ino with
      | Symlink target =>
          match hops with
          | O => Err ELOOP
          | S hops' =>
              follow_last fs hops'
                (if is_absolute target then target
                 else below (dirname key) target)
          end
      | _ => Ok key
      end
  | None => Ok key
  end.

Definition follow (fs : gmap cstr inode) (key : cstr) : res (cstr * inode) :=
  match follow_last fs SYMLOOP_MAX key with
  | Ok k => match fs !! k with
            | Some ino => Ok (k, ino)
            | None => Err ENOENT
            end
  | Err e => Err e
  end.

(** The directory that would hold [key], which must exist. *)
Definition parent_dir (fs : gmap cstr inode) (key : cstr) : res cstr :=
  match follow fs (dirname key) with
  | Ok (pk, ino) => if is_dir ino then Ok pk else Err ENOTDIR
  | Err e => Err e
  end.

(** The name of [k] inside the directory [dir], if it is an entry of
    it. *)
Definition child_name (dir k : cstr) : option cstr :=
  let pre := if bool_decide (dir = cs "/") then dir else dir ++ [SLASH] in
  if bool_decide (take (length pre) k = pre) then
    let name := drop (length pre) k in
    if bool_decide (name ≠ [] ∧ SLASH ∉ name) then Some name else None
  else None.

Definition entries (fs : gmap cstr inode) (dir : cstr) : list cstr :=
  omap (child_name dir) (map_to_list fs).*1.

Definition fresh_inode (w : world) (kind : file_kind) (mode : Z) : inode :=
  {| i_kind := kind;
     i_perm := Z.land (Z.land mode (Z.lnot (e_umask (w_env w)))) 0xFFF;
     i_uid := e_uid (w_env w);
     i_gid := e_gid (w_env w);
     i_atime := e_now (w_env w);
     i_mtime := e_now (w_env w) |}.

(** *** Calls that observe *)

Definition lstat (path : cstr) (w : world) : option stat_t * world :=
  match w_fs w !! locate w path with
  | Some ino => (Some (stat_of ino), w)
  | None => fail ENOENT w
  end.

Definition stat (path : cstr) (w : world) : option stat_t * world :=
  match follow (w_fs w) (locate w path) with
  | Ok (_, ino) => (Some (stat_of ino), w)
  | Err e => fail e w
  end.

(** [access(path, F_OK)]. *)
Definition access (path : cstr) (w : world) : option unit * world :=
  match follow (w_fs w) (locate w path) with
  | Ok _ => (Some (), w)
  | Err e => fail e w
  end.

Definition realpath (path : cstr) (w : world) : option cstr * world :=
  match follow (w_fs w) (locate w path) with
  | Ok (k, _) => (Some k, w)
  | Err e => fail e w
  end.

(** [readlink(path, buf, bufsiz)]: at most [bufsiz] characters. *)
Definition readlink (path : cstr) (bufsiz : nat) (w : world)
    : option cstr * world :=
  match w_fs w !! locate w path with
  | Some ino =>
      match i_kind ino with
      | Symlink target => (Some (take bufsiz target), w)
      | _ => fail EINVAL w
      end
  | None => fail ENOENT w
  end.

(** [opendir] followed by [readdir] until [NULL] and [closedir]: the
    names in the directory as it is when opened, in the order in which
    the file system yields them. *)
Definition opendir (path : cstr) (w : world) : option (list cstr) * world :=
  match follow (w_fs w) (locate w path) with
  | Ok (k, ino) =>
      if is_dir ino then (Some (cs "." :: cs ".." :: entries (w_fs w) k), w)
      else fail ENOTDIR w
  | Err e => fail e w
  end.

(** [open(path, O_RDONLY)] or [fopen(path, "rb")], the read loop and the
    close: the bytes read.  Reading from a directory yields nothing. *)
Definition read_all (path : cstr) (w : world) : option cstr * world :=
  match follow (w_fs w) (locate w path) with
  | Ok (_, ino) =>
      match i_kind ino with
      | Regular data => (Some data, w)
      | _ => (Some [], w)
      end
  | Err e => fail e w
  end.

(** [statvfs(path, &vfs)]: [f_blocks], [f_bfree], [f_bavail] and
    [f_frsize]. *)
Definition statvfs (path : cstr) (w : world) : option (Z * Z * Z * Z) * world :=
  match follow (w_fs w) (locate w path) with
  | Ok _ =>
      (Some (f_blocks (w_env w), f_bfree (w_env w), f_bavail (w_env w),
             f_frsize (w_env w)), w)
  | Err e => fail e w
  end.

Definition getcwd (w : world) : option cstr * world :=
  (Some (e_cwd (w_env w)), w).

Definition chdir (path : cstr) (w : world) : option unit * world :=
  match follow (w_fs w) (locate w path) with
  | Ok (k, ino) =>
      if is_dir ino then
        (Some (),
         World (w_fs w) (w_errno w)
           (Environment k (e_uid (w_env w)) (e_gid (w_env w))
              (e_umask (w_env w)) (e_now (w_env w)) (e_passwd (w_env w))
              (e_group (w_env w)) (e_strftime (w_env w)) (f_blocks (w_env w))
              (f_bfree (w_env w)) (f_bavail (w_env w)) (f_frsize (w_env w)))
           (w_journal w))
      else fail ENOTDIR w
  | Err e => fail e w
  end.

(** *** Calls that change the file system *)

Definition mkdir (path : cstr) (mode : Z) (w : world) : option unit * world :=
  let key := locate w path in
  match w_fs w !! key with
  | Some _ => fail EEXIST w
  | None =>
      match parent_dir (w_fs w) key with
      | Ok _ =>
          (Some (), set_fs (<[key := fresh_inode w Directory mode]> (w_fs w)) w)
      | Err e => fail e w
      end
  end.

Definition rmdir (path : cstr) (w : world) : option unit * world :=
  let key := locate w path in
  match w_fs w !! key with
  | Some ino =>
      if is_dir ino then
        match entries (w_fs w) key with
        | [] => (Some (), remove key w)
        | _ => fail ENOTEMPTY w
        end
      else fail ENOTDIR w
  | None => fail ENOENT w
  end.

Definition unlink (path : cstr) (w : world) : option unit * world :=
  let key := locate w path in
  match w_fs w !! key with
  | Some ino =>
      if is_dir ino then fail EISDIR w
      else (Some (), remove key w)
  | None => fail ENOENT w
  end.

Definition symlink (target linkpath : cstr) (w : world) : option unit * world :=
  let key := locate w linkpath in
  match w_fs w !! key with
  | Some _ => fail EEXIST w
  | None =>
      match parent_dir (w_fs w) key with
      | Ok _ =>
          (Some (),
           set_fs (<[key := fresh_inode w (Symlink target) 0x1FF]> (w_fs w)) w)
      | Err e => fail e w
      end
  end.

(** [open(path, O_WRONLY | O_CREAT | O_TRUNC, mode)] or
    [fopen(path, "wb")]: the key of the file now open for writing, empty. *)
Definition create_truncate (path : cstr) (mode : Z) (w : world)
    : option cstr * world :=
  match follow_last (w_fs w) SYMLOOP_MAX (locate w path) with
  | Ok key =>
      match w_fs w !! key with
      | Some ino =>
          if is_dir ino then fail EISDIR w
          else
            (Some key,
             set_fs (<[key := Inode (Regular []) (i_perm ino) (i_uid ino)
                                (i_gid ino) (i_atime ino) (e_now (w_env w))]>
                       (w_fs w)) w)
      | None =>
          match parent_dir (w_fs w) key with
          | Ok _ =>
              (Some key,
               set_fs (<[key := fresh_inode w (Regular []) mode]> (w_fs w)) w)
          | Err e => fail e w
          end
      end
  | Err e => fail e w
  end.

(** Every [write] or [fwrite] on the file open at [key]: all of [data]
    is appended. *)
Definition write_all (key : cstr) (data : cstr) (w : world) : world :=
  match w_fs w !! key with
  | Some ino =>
      match i_kind ino with
      | Regular old =>
          set_fs (<[key := Inode (Regular (old ++ data)) (i_perm ino)
                             (i_uid ino) (i_gid ino) (i_atime ino)
                             (e_now (w_env w))]> (w_fs w)) w
      | _ => w
      end
  | None => w
  end.

(** [rename(oldpath, newpath)]: the node, and with a directory all that
    is below it, takes the new name. *)
Definition rename (oldpath newpath : cstr) (w : world) : option unit * world :=
  let ko := locate w oldpath in
  let kn := locate w newpath in
  match w_fs w !! ko with
  | None => fail ENOENT w
  | Some ino =>
      match parent_dir (w_fs w) kn with
      | Err e => fail e w
      | Ok _ =>
          if bool_decide (ko = kn) then (Some (), w)
          else if is_dir ino && bool_decide ((ko ++ [SLASH]) `prefix_of` kn)
          then fail EINVAL w
          else
            let blocked :=
              match w_fs w !! kn with
              | Some target =>
                  if is_dir ino then
                    if negb (is_dir target) then Some ENOTDIR
                    else match entries (w_fs w) kn with
                         | [] => None
                         | _ => Some ENOTEMPTY
                         end
                  else if is_dir target then Some EISDIR else None
              | None => None
              end in
            match blocked with
            | Some e => fail e w
            | None =>
                let moved (k : cstr) : cstr :=
                  if bool_decide (k = ko)
                     || bool_decide ((ko ++ [SLASH]) `prefix_of` k)
                  then kn ++ drop (length ko) k else k in
                (Some (),
                 set_fs (list_to_map
                           ((λ entry, (moved entry.1, entry.2))
                              <$> map_to_list (delete kn (w_fs w)))) w)
            end
      end
  end.

(** Changes the node that [path] names once links are followed. *)
Definition update_inode (path : cstr) (f : inode → inode) (w : world)
    : option unit * world :=
  match follow (w_fs w) (locate w path) with
  | Ok (k, ino) => (Some (), set_fs (<[k := f ino]> (w_fs w)) w)
  | Err e => fail e w
  end.

(** [utime] and [utimes]. *)
Definition utime (path : cstr) (actime modtime : Z) (w : world)
    : option unit * world :=
  update_inode path
    (λ ino, Inode (i_kind ino) (i_perm ino) (i_uid ino) (i_gid ino)
              actime modtime) w.

Definition chmod (path : cstr) (mode : Z) (w : world) : option unit * world :=
  update_inode path
    (λ ino, Inode (i_kind ino) (Z.land mode 0xFFF) (i_uid ino) (i_gid ino)
              (i_atime ino) (i_mtime ino)) w.

Definition chown (path : cstr) (uid gid : Z) (w : world)
    : option unit * world :=
  update_inode path
    (λ ino, Inode (i_kind ino) (i_perm ino) uid gid
              (i_atime ino) (i_mtime ino)) w.

End Posix.

(** ** [Core/file_utils.c] *)

Module FileUtils.
Import LibC.

(** *** [normalize_path] *)

(** The loop that replaces every backslash of [temp] by a slash. *)
Definition unify_separators (temp : cstr) : cstr :=
  map (λ c, if decide (c = BACKSLASH) then SLASH else c) temp.

(** The [strtok] loop.  [components] is the used part
    [components[0 .. comp_count)] of the array; the loop stops at the
    first [NULL] token or as soon as 256 components are held. *)
Fixpoint collect_components (tokens components : list cstr) : list cstr :=
  match tokens with
  | [] => components
  | token :: rest =>
      if (length components <? 256)%nat then
        if strcmp_eq token (cs "..") then
          collect_components rest
            (if (0 <? length components)%nat
             then take (length components - 1) components
             else components)
        else if negb (strcmp_eq token (cs ".")) && (0 <? length token)%nat then
          collect_components rest (components ++ [token])
        else collect_components rest components
      else components
  end.

(** The loop that builds [result] with [strncat]; [i] is the index of
    the first component of [components] still to be appended. *)
Fixpoint assemble (size : nat) (components : list cstr) (i : nat)
    (result : cstr) : cstr :=
  match components with
  | [] => result
  | comp :: rest =>
      let result :=
        if (0 <? i)%nat
        then strncat result [SLASH] (size - length result - 1)
        else result in
      let result := strncat result comp (size - length result - 1) in
      assemble size rest (S i) result
  end.

(** The components that survive the resolution of [.] and [..]. *)
Definition resolved_components (path : cstr) : list cstr :=
  let temp := strncpy path (PATH_MAX - 1) in
  let temp := unify_separators temp in
  collect_components (strtok_all SLASH temp) [].

(** [normalize_path(path, result, size)]: the contents of [result] on
    return.  [size] is the capacity of [result] and is at least 1 (the
    code writes [result[0]] unconditionally). *)
Definition normalize_path (path : cstr) (size : nat) : cstr :=
  let result := assemble size (resolved_components path) 0 [] in
  match result with
  | [] => strncpy (cs ".") (size - 1)
  | _ => result
  end.

(** *** [has_dangerous_chars] *)

(** The scan of one component copied into [component[NAME_MAX]]. *)
Fixpoint scan_copied_component (component : cstr) : bool :=
  match component with
  | [] => false
  | c :: rest =>
      if bool_decide (c = NUL) then false
      else if bool_decide (c = SLASH) || bool_decide (c = NUL) then true
      else scan_copied_component rest
  end.

(** The scan of what follows the last slash. *)
Definition scan_last_component (start : cstr) : bool :=
  existsb (λ c, bool_decide (c = SLASH) || bool_decide (c = NUL)) start.

(** The body guarded by [strchr(path, '/') != NULL]: every piece that
    ends at a slash goes through [scan_copied_component] when its length
    fits the buffer, the remainder through [scan_last_component]; the
    result is [true] when one of the [return 1] is reached. *)
Definition scan_components (path : cstr) : bool :=
  let pieces := split_on SLASH path in
  existsb
    (λ piece,
       (0 <? length piece)%nat && (length piece <? NAME_MAX)%nat
       && scan_copied_component piece)
    (removelast pieces)
  || scan_last_component (List.last pieces []).

Fixpoint has_dangerous_chars_from (path p : cstr) : Z :=
  match p with
  | [] => 0
  | c :: p' =>
      if bool_decide (c = NUL) || bool_decide (c = SLASH) || (char_value c <? 32)%Z
      then has_dangerous_chars_from path p'
      else if strchr path SLASH && scan_components path then 1
      else has_dangerous_chars_from path p'
  end.

Definition has_dangerous_chars (path : cstr) : Z :=
  has_dangerous_chars_from path path.

(** *** [is_safe_path] *)

Definition system_paths : list cstr :=
  map cs [ "/bin/"; "/sbin/"; "/usr/bin/"; "/usr/sbin/";
           "/etc/"; "/boot/"; "/lib/"; "/lib64/";
           "/root/"; "/var/log/"; "/proc/"; "/sys/" ]%string.

Definition is_safe_path (path : cstr) (w : Posix.world) : Z :=
  if strstr path (cs "../") then 0
  else if
    match Posix.realpath path w with
    | (None, w) =>
        match Posix.lstat path w with
        | (Some statbuf, _) => S_ISLNK (Posix.st_mode statbuf)
        | (None, _) => false
        end
    | (Some _, _) => false
    end
  then 0
  else if negb (has_dangerous_chars path =? 0)%Z then 0
  else if
    existsb (λ sp, strncmp_eq path sp (length sp)) system_paths
  then 0
  else 1.

(** *** [permissions_to_string] *)

Definition permissions_to_string (mode : Z) : cstr :=
  let str :=
    [ if S_ISDIR mode then "d" else if S_ISLNK mode then "l"
      else if S_ISFIFO mode then "p" else if S_ISSOCK mode then "s"
      else if S_ISCHR mode then "c" else if S_ISBLK mode then "b" else "-";
      if has_bit mode S_IRUSR then "r" else "-";
      if has_bit mode S_IWUSR then "w" else "-";
      if has_bit mode S_IXUSR then "x" else "-";
      if has_bit mode S_IRGRP then "r" else "-";
      if has_bit mode S_IWGRP then "w" else "-";
      if has_bit mode S_IXGRP then "x" else "-";
      if has_bit mode S_IROTH then "r" else "-";
      if has_bit mode S_IWOTH then "w" else "-";
      if has_bit mode S_IXOTH then "x" else "-" ]%char in
  let str :=
    if has_bit mode S_ISUID
    then <[3 := (if has_bit mode S_IXUSR then "s" else "S")%char]> str
    else str in
  let str :=
    if has_bit mode S_ISGID
    then <[6 := (if has_bit mode S_IXGRP then "s" else "S")%char]> str
    else str in
  let str :=
    if has_bit mode S_ISVTX
    then <[9 := (if has_bit mode S_IXOTH then "t" else "T")%char]> str
    else str in
  str.

(** *** [n8n_copy_file] and [n8n_batch_copy] *)

Record N8N_CopyOptions := {
  overwrite : bool;
  preserveTimestamps : bool;
  createDestDir : bool;
  preservePermissions : bool;
  preserveOwner : bool
}.

(** [data] is the [int] array that [n8n_batch_copy] allocates. *)
Record N8N_Result := {
  success : bool;
  message : cstr;
  errorCode : Z;
  data : list Z;
  dataSize : Z
}.

(** [snprintf(result.message, sizeof(result.message), ...)] *)
Definition snprintf_message (text : cstr) : cstr := take 511 text.

Definition answer (ok : bool) (text : cstr) (code : Z) : N8N_Result :=
  {| success := ok; message := text; errorCode := code;
     data := []; dataSize := 0 |}.

Definition n8n_copy_file (source destination : cstr)
    (options : N8N_CopyOptions) (w : Posix.world) : N8N_Result * Posix.world :=
  match Posix.lstat source w with
  | (None, w) =>
      (answer false
         (snprintf_message (cs "Source file does not exist: "
                            ++ Posix.strerror (Posix.w_errno w)))
         (Posix.errno_value (Posix.w_errno w)), w)
  | (Some source_stat, w) =>
      let isSymlink := S_ISLNK (Posix.st_mode source_stat) in
      let '(present, w) :=
        if overwrite options then (None, w) else Posix.access destination w in
      match present with
      | Some _ =>
          (answer false (cs "Destination file already exists")
             (Posix.errno_value Posix.EEXIST), w)
      | None =>
          let w :=
            if createDestDir options then
              let destDir := strncpy destination (PATH_MAX - 1) in
              match strrchr destDir SLASH with
              | Some lastSlash => (Posix.mkdir (take lastSlash destDir) 0x1ED w).2
              | None => w
              end
            else w in
          if isSymlink then
            match Posix.readlink source (PATH_MAX - 1) w with
            | (Some link_target, w) =>
                match Posix.symlink link_target destination w with
                | (Some _, w) =>
                    (answer true (cs "Symbolic link copied successfully") 0, w)
                | (None, w) =>
                    (answer false
                       (snprintf_message (cs "Failed to create symbolic link: "
                                          ++ Posix.strerror (Posix.w_errno w)))
                       (Posix.errno_value (Posix.w_errno w)), w)
                end
            | (None, w) => (answer false [] 0, w)
            end
          else if S_ISDIR (Posix.st_mode source_stat) then
            match Posix.mkdir destination (Posix.st_mode source_stat) w with
            | (Some _, w) =>
                let w :=
                  if preservePermissions options
                  then (Posix.chmod destination (Posix.st_mode source_stat) w).2
                  else w in
                (answer true (cs "Directory created successfully") 0, w)
            | (None, w) =>
                (answer false
                   (snprintf_message (cs "Failed to create directory: "
                                      ++ Posix.strerror (Posix.w_errno w)))
                   (Posix.errno_value (Posix.w_errno w)), w)
            end
          else
            match Posix.read_all source w with
            | (None, w) =>
                (answer false
                   (snprintf_message (cs "Cannot open source file: "
                                      ++ Posix.strerror (Posix.w_errno w)))
                   (Posix.errno_value (Posix.w_errno w)), w)
            | (Some bytes, w) =>
                match Posix.create_truncate destination 0x1B6 w with
                | (None, w) =>
                    (answer false
                       (snprintf_message (cs "Cannot open destination file: "
                                          ++ Posix.strerror (Posix.w_errno w)))
                       (Posix.errno_value (Posix.w_errno w)), w)
                | (Some dst_fp, w) =>
                    let w := Posix.write_all dst_fp bytes w in
                    let w :=
                      if preserveTimestamps options
                      then (Posix.utime destination
                              (Posix.st_atime source_stat)
                              (Posix.st_mtime source_stat) w).2
                      else w in
                    let w :=
                      if preservePermissions options
                      then (Posix.chmod destination
                              (Posix.st_mode source_stat) w).2
                      else w in
                    let w :=
                      if preserveOwner options
                      then (Posix.chown destination
                              (Posix.st_uid source_stat)
                              (Posix.st_gid source_stat) w).2
                      else w in
                    (answer true
                       (snprintf_message
                          (cs "File copied successfully. Size: "
                           ++ cs (pretty (Z.of_nat (length bytes)))
                           ++ cs " bytes")) 0, w)
                end
            end
      end
  end.

(** The [for] loop of [n8n_batch_copy] from index [i] on, [remaining]
    iterations being left.  [sources] and [destinations] hold at least
    [count] strings each. *)
Fixpoint batch_loop (sources destinations : list cstr)
    (options : N8N_CopyOptions) (i remaining : nat) (results : list Z)
    (successCount failCount : Z) (w : Posix.world)
    : list Z * Z * Z * Posix.world :=
  match remaining with
  | O => (results, successCount, failCount, w)
  | S remaining' =>
      let '(copyResult, w) :=
        n8n_copy_file (sources !!! i) (destinations !!! i) options w in
      let results := results ++ [if success copyResult then 1 else 0]%Z in
      if success copyResult then
        batch_loop sources destinations options (S i) remaining' results
          (successCount + 1) failCount w
      else
        (* [n8n_log("ERROR", copyResult.message)] prints a line *)
        batch_loop sources destinations options (S i) remaining' results
          successCount (failCount + 1) w
  end.

(** A negative [count] makes the size passed to [malloc] wrap to a size
    that cannot be allocated; otherwise the allocation succeeds. *)
Definition n8n_batch_copy (sources destinations : list cstr) (count : Z)
    (options : N8N_CopyOptions) (w : Posix.world) : N8N_Result * Posix.world :=
  if (count <? 0)%Z then (answer false (cs "Memory allocation failed") 0, w)
  else
    let '(results, successCount, failCount, w) :=
      batch_loop sources destinations options 0 (Z.to_nat count) [] 0 0 w in
    ({| success := true;
        message :=
          snprintf_message
            (cs "Batch copy completed: " ++ cs (pretty successCount)
             ++ cs " succeeded, " ++ cs (pretty failCount) ++ cs " failed");
        errorCode := 0;
        data := results;
        dataSize := count * 4 |}, w).

(** *** Tests on a path *)

(** [is_directory(path)]: 1 or 0 after [lstat], -1 when it fails. *)
Definition is_directory (path : cstr) (w : Posix.world) : Z * Posix.world :=
  match Posix.lstat path w with
  | (None, w) => ((-1)%Z, w)
  | (Some statbuf, w) =>
      ((if S_ISDIR (Posix.st_mode statbuf) then 1 else 0)%Z, w)
  end.

(** [access(path, F_OK) == 0] *)
Definition file_exists (path : cstr) (w : Posix.world) : Z * Posix.world :=
  match Posix.access path w with
  | (Some _, w) => (1%Z, w)
  | (None, w) => (0%Z, w)
  end.


(** *** Names and extensions *)

(** [get_file_extension(filename)]: what follows the last dot, nothing
    when there is no dot or when the last dot opens the name. *)
Definition get_file_extension (filename : cstr) : cstr :=
  match strrchr filename "." with
  | None => []
  | Some dot => if bool_decide (dot = 0) then [] else drop (dot + 1) filename
  end.

(** [get_filename_without_extension(filename, output, size)]: the
    contents of [output] on return; [size] is at least 1. *)
Definition get_filename_without_extension (filename : cstr) (size : nat)
    : cstr :=
  match strrchr filename "." with
  | Some dot =>
      if bool_decide (dot = 0) then strncpy filename (size - 1)
      else
        let len := dot in
        let len := if (size <=? len)%nat then size - 1 else len in
        strncpy filename len
  | None => strncpy filename (size - 1)
  end.

(** [snprintf(buffer, size, ...)] with [size] at least 1: the text
    written, cut to the room of the buffer. *)
Definition snprintf (size : nat) (text : cstr) : cstr := take (size - 1) text.

(** [join_paths(path1, path2, result, size)]: the contents of [result]
    on return; [size] is at least 1.  The assignment [temp[len1 - 1]]
    stays inside [temp] as long as [path1] has at most [PATH_MAX]
    characters. *)
Definition join_paths (path1 path2 : cstr) (size : nat) : cstr :=
  if bool_decide (path1 = []) then strncpy path2 (size - 1)
  else if bool_decide (path2 = []) then strncpy path1 (size - 1)
  else
    let len1 := length path1 in
    let has_separator := bool_decide (path1 !! (len1 - 1) = Some SLASH) in
    let needs_separator := negb (bool_decide (head path2 = Some SLASH)) in
    if has_separator && negb needs_separator then
      let temp := strncpy path1 (PATH_MAX - 1) in
      let temp := take (len1 - 1) temp in
      snprintf size (temp ++ path2)
    else if negb has_separator && needs_separator then
      snprintf size (path1 ++ cs "/" ++ path2)
    else snprintf size (path1 ++ path2).

(** *** [is_safe_filename] *)

Definition is_safe_filename (filename : cstr) : Z :=
  if bool_decide (filename = []) then 0
  else if strcmp_eq filename (cs ".") || strcmp_eq filename (cs "..") then 0
  else if existsb (λ c, bool_decide (c = SLASH) || bool_decide (c = NUL))
            filename then 0
  else if (NAME_MAX <? length filename)%nat then 0
  else 1.

(** *** Hashes as text *)

(** The value of an [unsigned char]. *)
Definition byte_value (c : ascii) : Z := Z.of_nat (nat_of_ascii c).

(** The [unsigned char] that a value is stored as. *)
Definition byte_of (z : Z) : ascii := ascii_of_nat (Z.to_nat (z mod 256)).

Definition hex : cstr := cs "0123456789abcdef".

(** [hash_to_string(hash, length, output, output_size)]: the contents of
    [output] on return; [hash] holds the [length] bytes. *)
Definition hash_to_string (hash : list ascii) (output_size : nat) : cstr :=
  let needed := length hash * 2 + 1 in
  if (output_size <? needed)%nat then []
  else
    flat_map
      (λ b, [ nth (Z.to_nat (Z.shiftr (byte_value b) 4)) hex NUL;
              nth (Z.to_nat (Z.land (byte_value b) 0x0F)) hex NUL ])
      hash.

(** *** The digest *)

(** [MD5_CTX]: [state] and [count] hold 32-bit words, [buffer] the 64
    bytes of input not yet transformed. *)
Record MD5_CTX := {
  state : list Z;
  count : list Z;
  buffer : list ascii
}.

(** Arithmetic of [unsigned int]. *)
Definition wrap32 (z : Z) : Z := z mod 2 ^ 32.

(** [MD5_Init(context)] sets the counts and the state; the buffer keeps
    what the memory of [context] held. *)
Definition MD5_Init (context : MD5_CTX) : MD5_CTX :=
  {| state := [0x67452301; 0xefcdab89; 0x98badcfe; 0x10325476]%Z;
     count := [0; 0]%Z;
     buffer := buffer context |}.

(** The index into [buffer] that a context stands at:
    [(count[0] >> 3) & 0x3F]. *)
Definition buffer_index (context : MD5_CTX) : nat :=
  Z.to_nat (Z.land (Z.shiftr (nth 0 (count context) 0%Z) 3) 0x3F).

(** [((unsigned int* )block)[i]], the machine storing the low byte of a
    word first. *)
Definition word_at (block : list ascii) (i : nat) : Z :=
  (byte_value (nth (4 * i) block NUL)
   + 2 ^ 8 * byte_value (nth (4 * i + 1) block NUL)
   + 2 ^ 16 * byte_value (nth (4 * i + 2) block NUL)
   + 2 ^ 24 * byte_value (nth (4 * i + 3) block NUL))%Z.

Definition MD5Transform (state : list Z) (block : list ascii) : list Z :=
  foldl (λ state i,
           let j := Z.to_nat (Z.land (Z.of_nat i) 3) in
           <[j := Z.lxor (nth j state 0%Z) (word_at block i)]> state)
    state (seq 0 16).

(** [memcpy(&dst[index], src, n)], [src] being the [n] bytes copied. *)
Definition memcpy_at {A} (dst : list A) (index : nat) (src : list A) : list A :=
  take index dst ++ src ++ drop (index + length src) dst.

(** The loop [for (i = partLen; i + 63 < inputLen; i += 64)] from [i]
    on, [n] bounding the iterations left: the state and the final [i]. *)
Fixpoint transform_loop (n : nat) (state : list Z) (input : list ascii)
    (i : nat) : list Z * nat :=
  match n with
  | O => (state, i)
  | S n' =>
      if (i + 63 <? length input)%nat then
        transform_loop n' (MD5Transform state (take 64 (drop i input))) input
          (i + 64)
      else (state, i)
  end.

(** [MD5_Update(context, input, inputLen)], [input] being the
    [inputLen] bytes; [inputLen] is an [unsigned int] and [i + 63] does
    not wrap, so [input] has at most [2^32 - 64] bytes. *)
Definition MD5_Update (context : MD5_CTX) (input : list ascii) : MD5_CTX :=
  let inputLen := Z.of_nat (length input) in
  let count0 := nth 0 (count context) 0%Z in
  let count1 := nth 1 (count context) 0%Z in
  let index := buffer_index context in
  let added := wrap32 (Z.shiftl inputLen 3) in
  let count0 := wrap32 (count0 + added) in
  let count1 := if (count0 <? added)%Z then wrap32 (count1 + 1) else count1 in
  let count1 := wrap32 (count1 + Z.shiftr inputLen 29) in
  let partLen := 64 - index in
  if (partLen <=? length input)%nat then
    let buffer := memcpy_at (buffer context) index (take partLen input) in
    let state := MD5Transform (state context) buffer in
    let '(state, i) := transform_loop (length input) state input partLen in
    {| state := state;
       count := [count0; count1];
       buffer := memcpy_at buffer 0 (drop i input) |}
  else
    {| state := state context;
       count := [count0; count1];
       buffer := memcpy_at (buffer context) index input |}.

(** The four bytes of a word in memory. *)
Definition word_bytes (z : Z) : list ascii :=
  [ byte_of z; byte_of (Z.shiftr z 8); byte_of (Z.shiftr z 16);
    byte_of (Z.shiftr z 24) ].

(** [MD5_Final(digest, context)]: the digest, and the context wiped. *)
Definition MD5_Final (context : MD5_CTX) : list ascii * MD5_CTX :=
  let bits := flat_map word_bytes (count context) in
  let index := Z.land (Z.shiftr (nth 0 (count context) 0%Z) 3) 0x3f in
  let padLen := if (index <? 56)%Z then (56 - index)%Z else (120 - index)%Z in
  let padding := byte_of 0x80 :: replicate 63 NUL in
  let context := MD5_Update context (take (Z.to_nat padLen) padding) in
  let context := MD5_Update context bits in
  (flat_map word_bytes (state context),
   {| state := replicate 4 0%Z;
      count := replicate 2 0%Z;
      buffer := replicate 64 NUL |}).

(** What the calls [fread(buffer, 1, n, file)] return in turn on a file
    that holds [data], up to the first that returns 0. *)
Definition fread_chunks (n : nat) (data : list ascii) : list (list ascii) :=
  map (λ k, take n (drop (k * n) data)) (seq 0 ((length data + n - 1) / n)).

(** [calculate_file_md5(filename, hash)]: 0 and the contents of [hash],
    or [errno]; [context] stands for what the memory of the local
    variable of that name holds on entry. *)
Definition calculate_file_md5 (filename : cstr) (context : MD5_CTX)
    (w : Posix.world) : Z * option (list ascii) * Posix.world :=
  match Posix.read_all filename w with
  | (None, w) => (Posix.errno_value (Posix.w_errno w), None, w)
  | (Some data, w) =>
      let context := MD5_Init context in
      (* [sizeof(buffer)] is 8192 *)
      let context := foldl MD5_Update context (fread_chunks (8 * 1024) data) in
      (0%Z, Some (MD5_Final context).1, w)
  end.

(** *** [get_mime_type] *)

(** [tolower] in the C locale. *)
Definition tolower (c : ascii) : ascii :=
  let n := nat_of_ascii c in
  if (65 <=? n)%nat && (n <=? 90)%nat then ascii_of_nat (n + 32) else c.

(** [strcasecmp(a, b) == 0] *)
Definition strcasecmp_eq (a b : cstr) : bool :=
  bool_decide (map tolower a = map tolower b).

Definition get_mime_type (filename : cstr) : cstr :=
  let ext := get_file_extension filename in
  if strcasecmp_eq ext (cs "txt") then cs "text/plain"
  else if strcasecmp_eq ext (cs "html") || strcasecmp_eq ext (cs "htm")
  then cs "text/html"
  else if strcasecmp_eq ext (cs "css") then cs "text/css"
  else if strcasecmp_eq ext (cs "js") then cs "application/javascript"
  else if strcasecmp_eq ext (cs "json") then cs "application/json"
  else if strcasecmp_eq ext (cs "xml") then cs "application/xml"
  else if strcasecmp_eq ext (cs "pdf") then cs "application/pdf"
  else if strcasecmp_eq ext (cs "jpg") || strcasecmp_eq ext (cs "jpeg")
  then cs "image/jpeg"
  else if strcasecmp_eq ext (cs "png") then cs "image/png"
  else if strcasecmp_eq ext (cs "gif") then cs "image/gif"
  else if strcasecmp_eq ext (cs "zip") then cs "application/zip"
  else if strcasecmp_eq ext (cs "tar") then cs "application/x-tar"
  else if strcasecmp_eq ext (cs "gz") then cs "application/gzip"
  else cs "application/octet-stream".

(** *** Symbolic links *)



(** *** Permissions *)

Definition change_file_permissions (path : cstr) (mode : Z) (w : Posix.world)
    : Z * Posix.world :=
  match Posix.chmod path mode w with
  | (Some _, w) => (0%Z, w)
  | (None, w) => (Posix.errno_value (Posix.w_errno w), w)
  end.

Definition n8n_change_permissions (path : cstr) (mode : Z) (w : Posix.world)
    : N8N_Result * Posix.world :=
  match Posix.chmod path mode w with
  | (Some _, w) => (answer true (cs "Permissions changed successfully") 0, w)
  | (None, w) =>
      (answer false
         (snprintf_message (cs "Failed to change permissions: "
                            ++ Posix.strerror (Posix.w_errno w)))
         (Posix.errno_value (Posix.w_errno w)), w)
  end.

End FileUtils.

(** ** [Core/file_ops.c] *)

Module FileOps.

Definition get_permissions_string (mode : Z) : cstr :=
  [ if S_ISDIR mode then "d" else if S_ISLNK mode then "l" else "-";
    if has_bit mode S_IRUSR then "r" else "-";
    if has_bit mode S_IWUSR then "w" else "-";
    if has_bit mode S_IXUSR then "x" else "-";
    if has_bit mode S_IRGRP then "r" else "-";
    if has_bit mode S_IWGRP then "w" else "-";
    if has_bit mode S_IXGRP then "x" else "-";
    if has_bit mode S_IROTH then "r" else "-";
    if has_bit mode S_IWOTH then "w" else "-";
    if has_bit mode S_IXOTH then "x" else "-" ]%char.

End FileOps.

(** ** [navigator.cpp] *)

Module FileNavigator.
Import LibC Posix.

(** The [type] of an item is one of three literals. *)
Inductive item_type := TypeFile | TypeDirectory | TypeSymlink.

Global Instance item_type_eq_dec : EqDecision item_type.
Proof. solve_decision. Defined.

Definition type_name (t : item_type) : cstr :=
  cs match t with
     | TypeFile => "file"
     | TypeDirectory => "directory"
     | TypeSymlink => "symlink"
     end.

Record FileItem := {
  name : cstr;
  path : cstr;
  type : item_type;
  size : Z;
  modified : cstr;
  extension : cstr;
  isHidden : bool;
  isReadOnly : bool;
  permissions : cstr;
  owner : cstr;
  group : cstr;
  symlinkTarget : cstr
}.

Record navigator := {
  current_path : cstr;
  path_history : list cstr;
  history_index : Z
}.

Record SearchResult := {
  sr_name : cstr;
  sr_path : cstr;
  sr_type : item_type;
  sr_size : Z;
  sr_modified : cstr;
  sr_symlinkTarget : cstr
}.

(** Sizes in bytes, [unsigned long long]; the percentage and the sizes
    in words that the answers also show are computed from these in
    floating point when the answer is written. *)
Record DiskInfo := {
  total_space : Z;
  free_space : Z;
  available_space : Z;
  used_space : Z
}.

(** What a command answers, before it is written as JSON: an object
    with an [error] member, or the members of the object of the command.
    [ReplyCreated] is the answer of [mkdir] and of [cd] (a true [success]
    and a [path]), [ReplyCopied] that of [copy] and of [move]. *)
Inductive reply :=
| ReplyError (message : cstr)
| ReplyFiles (files : list FileItem)
| ReplyCreated (path : cstr)
| ReplyDeleted (item : cstr)
| ReplyCopied (source destination : cstr)
| ReplyRenamed (oldName newName : cstr)
| ReplySearch (results : list SearchResult) (count : nat)
| ReplyFileInfo (info : FileItem)
| ReplyDirectoryInfo (path : cstr) (itemCount : nat) (diskInfo : option DiskInfo)
| ReplyDiskInfo (path : cstr) (usage : DiskInfo)
| ReplyCurrentPath (currentPath : cstr)
| ReplyLibraryStatus (loaded : bool).

(** [result.find] of the member [success] set to [true]. *)
Definition has_success (r : reply) : bool :=
  match r with
  | ReplyCreated _ | ReplyDeleted _ | ReplyCopied _ _ | ReplyRenamed _ _ => true
  | _ => false
  end.

(** [s.find_last_of(c)] *)
Definition find_last_of (s : cstr) (c : ascii) : option nat :=
  match list_find (λ x, x = c) (reverse s) with
  | Some (i, _) => Some (length s - 1 - i)
  | None => None
  end.

(** [std::string::operator<] *)
Fixpoint string_lt (a b : cstr) : bool :=
  match a, b with
  | _, [] => false
  | [], _ :: _ => true
  | x :: a', y :: b' =>
      if (nat_of_ascii x <? nat_of_ascii y) then true
      else if (nat_of_ascii y <? nat_of_ascii x) then false
      else string_lt a' b'
  end.

Definition get_permissions_string (mode : Z) : cstr :=
  let perms := replicate 10 "-"%char in
  let perms :=
    <[0 := (if S_ISDIR mode then "d" else if S_ISLNK mode then "l"
            else if S_ISFIFO mode then "p" else if S_ISSOCK mode then "s"
            else if S_ISCHR mode then "c" else if S_ISBLK mode then "b"
            else "-")%char]> perms in
  let perms := <[1 := (if has_bit mode S_IRUSR then "r" else "-")%char]> perms in
  let perms := <[2 := (if has_bit mode S_IWUSR then "w" else "-")%char]> perms in
  let perms := <[3 := (if has_bit mode S_IXUSR then "x" else "-")%char]> perms in
  let perms := <[4 := (if has_bit mode S_IRGRP then "r" else "-")%char]> perms in
  let perms := <[5 := (if has_bit mode S_IWGRP then "w" else "-")%char]> perms in
  let perms := <[6 := (if has_bit mode S_IXGRP then "x" else "-")%char]> perms in
  let perms := <[7 := (if has_bit mode S_IROTH then "r" else "-")%char]> perms in
  let perms := <[8 := (if has_bit mode S_IWOTH then "w" else "-")%char]> perms in
  let perms := <[9 := (if has_bit mode S_IXOTH then "x" else "-")%char]> perms in
  let perms :=
    if has_bit mode S_ISUID
    then <[3 := (if has_bit mode S_IXUSR then "s" else "S")%char]> perms
    else perms in
  let perms :=
    if has_bit mode S_ISGID
    then <[6 := (if has_bit mode S_IXGRP then "s" else "S")%char]> perms
    else perms in
  let perms :=
    if has_bit mode S_ISVTX
    then <[9 := (if has_bit mode S_IXOTH then "t" else "T")%char]> perms
    else perms in
  perms.

Definition time_to_string (t : Z) (w : world) : cstr :=
  e_strftime (w_env w) t.

(** [pwd ? pwd->pw_name : std::to_string(uid)] *)
Definition owner_name (uid : Z) (w : world) : cstr :=
  match e_passwd (w_env w) !! uid with
  | Some pw_name => pw_name
  | None => cs (pretty uid)
  end.

Definition group_name (gid : Z) (w : world) : cstr :=
  match e_group (w_env w) !! gid with
  | Some gr_name => gr_name
  | None => cs (pretty gid)
  end.

(** *** [get_directory_contents] *)

(** The comparison passed to [std::sort]. *)
Definition item_before (a b : FileItem) : bool :=
  if bool_decide (type a = type b) then string_lt (name a) (name b)
  else if bool_decide (type a = TypeDirectory)
          && negb (bool_decide (type b = TypeDirectory)) then true
  else if bool_decide (type a = TypeSymlink)
          && bool_decide (type b = TypeFile) then true
  else false.

(** [std::sort(first, last, comp)]: [a] may stand before [b] when
    [comp(b, a)] is false.  The standard leaves the algorithm open; a
    merge sort stands for it. *)
Definition not_after {A} (comp : A → A → bool) : relation A :=
  λ a b, comp b a = false.

Global Instance not_after_dec {A} (comp : A → A → bool) a b :
  Decision (not_after comp a b).
Proof. unfold not_after. apply _. Defined.

Definition std_sort {A} (comp : A → A → bool) (l : list A) : list A :=
  merge_sort (not_after comp) l.

(** The full path that the loop gives to the entry [d_name] of [dir]. *)
Definition item_path (dir d_name : cstr) : cstr :=
  if bool_decide (dir = cs "/") then dir ++ d_name
  else dir ++ cs "/" ++ d_name.

(** The body of the [readdir] loop for one entry that is not skipped. *)
Definition make_item (dir d_name : cstr) (statbuf : stat_t) (w : world)
    : FileItem * world :=
  let item_path := item_path dir d_name in
  let mode := st_mode statbuf in
  let '(ty, sz, target, ext, w) :=
    if S_ISLNK mode then
      match readlink item_path (PATH_MAX - 1) w with
      | (Some target, w) => (TypeSymlink, 0%Z, target, [], w)
      | (None, w) => (TypeSymlink, 0%Z, [], [], w)
      end
    else if S_ISDIR mode then (TypeDirectory, 0%Z, [], [], w)
    else
      (TypeFile, st_size statbuf, [],
       match find_last_of d_name "." with
       | Some dot_pos => drop (dot_pos + 1) d_name
       | None => []
       end, w) in
  ({| name := d_name;
      path := item_path;
      type := ty;
      size := sz;
      modified := time_to_string (st_mtime statbuf) w;
      extension := ext;
      isHidden := bool_decide (head d_name = Some "."%char);
      isReadOnly := negb (has_bit mode S_IWUSR);
      permissions := get_permissions_string mode;
      owner := owner_name (st_uid statbuf) w;
      group := group_name (st_gid statbuf) w;
      symlinkTarget := target |}, w).

Fixpoint read_entries (dir : cstr) (entries : list cstr)
    (items : list FileItem) (w : world) : list FileItem * world :=
  match entries with
  | [] => (items, w)
  | d_name :: rest =>
      if strcmp_eq d_name (cs ".") || strcmp_eq d_name (cs "..") then
        read_entries dir rest items w
      else
        match lstat (item_path dir d_name) w with
        | (None, w) => read_entries dir rest items w
        | (Some statbuf, w) =>
            let '(item, w) := make_item dir d_name statbuf w in
            read_entries dir rest (items ++ [item]) w
        end
  end.

Definition get_directory_contents (dir : cstr) (w : world)
    : list FileItem * world :=
  match opendir dir w with
  | (None, w) => ([], w)
  | (Some entries, w) =>
      let '(items, w) := read_entries dir entries [] w in
      (std_sort item_before items, w)
  end.

(** *** Paths *)

Definition get_absolute_path (nav : navigator) (p : cstr) : cstr :=
  if bool_decide (p = []) then current_path nav
  else if bool_decide (head p = Some SLASH) then p
  else if bool_decide (p = cs ".") then current_path nav
  else if bool_decide (p = cs "..") then
    match find_last_of (current_path nav) SLASH with
    | Some O => cs "/"
    | Some pos => take pos (current_path nav)
    | None => current_path nav
    end
  else if bool_decide (current_path nav = cs "/") then current_path nav ++ p
  else current_path nav ++ cs "/" ++ p.

(** [stat]-based, as the private [is_directory]. *)
Definition is_directory (p : cstr) (w : world) : bool * world :=
  match stat p w with
  | (Some statbuf, w) => (S_ISDIR (st_mode statbuf), w)
  | (None, w) => (false, w)
  end.

Definition list_files (nav : navigator) (args : list cstr) (w : world)
    : reply * world :=
  let p := match args with
           | [] => current_path nav
           | a :: _ => get_absolute_path nav a
           end in
  match is_directory p w with
  | (false, w) => (ReplyError (cs "Not a directory: " ++ p), w)
  | (true, w) =>
      let '(items, w) := get_directory_contents p w in
      (ReplyFiles items, w)
  end.

(** *** [mkdir] *)

(** [S_IRWXU | S_IRGRP | S_IXGRP | S_IROTH | S_IXOTH] *)
Definition MODE_755 : Z := 0x1ED.

(** The positions that [path.find('/', pos + 1)] returns in turn,
    starting from [pos = 0]. *)
Definition slash_positions (p : cstr) : list nat :=
  filter (λ i, 1 ≤ i ∧ p !! i = Some SLASH) (seq 0 (length p)).

Fixpoint mkdir_prefixes (p : cstr) (positions : list nat) (w : world)
    : option unit * world :=
  match positions with
  | [] => (Some (), w)
  | pos :: rest =>
      let current := take pos p in
      if bool_decide (current = []) then mkdir_prefixes p rest w
      else
        match mkdir current MODE_755 w with
        | (Some _, w) => mkdir_prefixes p rest w
        | (None, w) =>
            if bool_decide (w_errno w ≠ EEXIST) then (None, w)
            else mkdir_prefixes p rest w
        end
  end.

Definition mkdir_recursive (p : cstr) (w : world) : option unit * world :=
  match mkdir_prefixes p (slash_positions p) w with
  | (None, w) => (None, w)
  | (Some _, w) => mkdir p MODE_755 w
  end.

Definition create_directory (nav : navigator) (args : list cstr) (w : world)
    : reply * world :=
  match args with
  | [] => (ReplyError (cs "No directory name specified"), w)
  | dir_name :: more =>
      let full_path := get_absolute_path nav dir_name in
      if bool_decide (more !! 0 = Some (cs "-p")) then
        match mkdir_recursive full_path w with
        | (Some _, w) => (ReplyCreated full_path, w)
        | (None, w) =>
            (ReplyError (cs "Failed to create directory: "
                         ++ strerror (w_errno w)), w)
        end
      else
        match mkdir full_path MODE_755 w with
        | (Some _, w) => (ReplyCreated full_path, w)
        | (None, w) =>
            (ReplyError (cs "Failed to create directory: "
                         ++ strerror (w_errno w)), w)
        end
  end.

(** *** [delete] *)

(** The [readdir] loop of [delete_directory_recursive] and the final
    [rmdir]; [recurse] is the function itself. *)
Fixpoint delete_entries (recurse : cstr → world → option (bool * world))
    (dir : cstr) (entries : list cstr) (w : world) : option (bool * world) :=
  match entries with
  | [] =>
      match rmdir dir w with
      | (Some _, w) => Some (true, w)
      | (None, w) => Some (false, w)
      end
  | d_name :: rest =>
      if strcmp_eq d_name (cs ".") || strcmp_eq d_name (cs "..") then
        delete_entries recurse dir rest w
      else
        let full_path := dir ++ cs "/" ++ d_name in
        match lstat full_path w with
        | (Some statbuf, w) =>
            if S_ISDIR (st_mode statbuf) then
              match recurse full_path w with
              | None => None
              | Some (false, w) => Some (false, w)
              | Some (true, w) => delete_entries recurse dir rest w
              end
            else
              match unlink full_path w with
              | (None, w) => Some (false, w)
              | (Some _, w) => delete_entries recurse dir rest w
              end
        | (None, w) => delete_entries recurse dir rest w
        end
  end.

(** [fuel] bounds the depth of the recursion; [None] means that it was
    too small. *)
Fixpoint delete_directory_recursive (fuel : nat) (dir : cstr) (w : world)
    : option (bool * world) :=
  match fuel with
  | O => None
  | S fuel' =>
      match opendir dir w with
      | (None, w) => Some (false, w)
      | (Some entries, w) =>
          delete_entries (delete_directory_recursive fuel') dir entries w
      end
  end.

Definition delete_item (fuel : nat) (nav : navigator) (args : list cstr)
    (w : world) : option (reply * world) :=
  match args with
  | [] => Some (ReplyError (cs "No item specified"), w)
  | a :: more =>
      let item_path := get_absolute_path nav a in
      match lstat item_path w with
      | (None, w) =>
          Some (ReplyError (cs "Item not found: " ++ strerror (w_errno w)), w)
      | (Some statbuf, w) =>
          let outcome :=
            if S_ISDIR (st_mode statbuf) then
              if bool_decide (more !! 0 = Some (cs "-r")) then
                delete_directory_recursive fuel item_path w
              else
                match rmdir item_path w with
                | (Some _, w) => Some (true, w)
                | (None, w) => Some (false, w)
                end
            else
              match unlink item_path w with
              | (Some _, w) => Some (true, w)
              | (None, w) => Some (false, w)
              end in
          match outcome with
          | None => None
          | Some (true, w) => Some (ReplyDeleted item_path, w)
          | Some (false, w) =>
              Some (ReplyError (cs "Failed to delete item: "
                                ++ strerror (w_errno w)), w)
          end
      end
  end.

(** *** [copy] *)

(** [copy_item] for a source that is not a directory: everything after
    the directory tests. *)
Definition copy_file (src dst : cstr) (src_stat : stat_t) (w : world)
    : reply * world :=
  match read_all src w with
  | (None, w) =>
      (ReplyError (cs "Cannot open source file: " ++ strerror (w_errno w)), w)
  | (Some data, w) =>
      match create_truncate dst (st_mode src_stat) w with
      | (None, w) =>
          (ReplyError (cs "Cannot create destination file: "
                       ++ strerror (w_errno w)), w)
      | (Some dest_fd, w) =>
          let w := write_all dest_fd data w in
          let '(_, w) :=
            utime dst (st_atime src_stat) (st_mtime src_stat) w in
          (ReplyCopied src dst, w)
      end
  end.

(** The [readdir] loop of [copy_directory]; [copy_dir] is the function
    itself. *)
Fixpoint copy_entries (copy_dir : cstr → cstr → world → option (reply * world))
    (src dst : cstr) (entries : list cstr) (w : world)
    : option (reply * world) :=
  match entries with
  | [] => Some (ReplyCopied src dst, w)
  | d_name :: rest =>
      if strcmp_eq d_name (cs ".") || strcmp_eq d_name (cs "..") then
        copy_entries copy_dir src dst rest w
      else
        let src_path := src ++ cs "/" ++ d_name in
        let dst_path := dst ++ cs "/" ++ d_name in
        match lstat src_path w with
        | (Some statbuf, w) =>
            let result :=
              if S_ISDIR (st_mode statbuf) then copy_dir src_path dst_path w
              else
                (* [copy_item({src_path, dst_path})]: both paths are
                   absolute, the source was just seen and is no
                   directory *)
                match lstat src_path w with
                | (None, w) =>
                    Some (ReplyError (cs "Source not found: "
                                      ++ strerror (w_errno w)), w)
                | (Some src_stat, w) => Some (copy_file src_path dst_path src_stat w)
                end in
            match result with
            | None => None
            | Some (r, w) =>
                if has_success r then copy_entries copy_dir src dst rest w
                else Some (r, w)
            end
        | (None, w) => copy_entries copy_dir src dst rest w
        end
  end.

Fixpoint copy_directory (fuel : nat) (src dst : cstr) (w : world)
    : option (reply * world) :=
  match fuel with
  | O => None
  | S fuel' =>
      let '(made, w) := mkdir dst MODE_755 w in
      if bool_decide (made = None) && bool_decide (w_errno w ≠ EEXIST) then
        Some (ReplyError (cs "Cannot create destination directory: "
                          ++ strerror (w_errno w)), w)
      else
        match opendir src w with
        | (None, w) =>
            Some (ReplyError (cs "Cannot open source directory: "
                              ++ strerror (w_errno w)), w)
        | (Some entries, w) =>
            copy_entries (copy_directory fuel') src dst entries w
        end
  end.

Definition copy_item (fuel : nat) (nav : navigator) (args : list cstr)
    (w : world) : option (reply * world) :=
  match args with
  | a0 :: a1 :: more =>
      let src := get_absolute_path nav a0 in
      let dst := get_absolute_path nav a1 in
      match lstat src w with
      | (None, w) =>
          Some (ReplyError (cs "Source not found: " ++ strerror (w_errno w)), w)
      | (Some src_stat, w) =>
          let recursive := bool_decide (more !! 0 = Some (cs "-r")) in
          if S_ISDIR (st_mode src_stat) && negb recursive then
            Some (ReplyError (cs "Cannot copy directory without -r flag"), w)
          else if S_ISDIR (st_mode src_stat) then
            copy_directory fuel src dst w
          else Some (copy_file src dst src_stat w)
      end
  | _ => Some (ReplyError (cs "Source and destination required"), w)
  end.

(** *** [move], [rename], [pwd] *)

Definition move_item (nav : navigator) (args : list cstr) (w : world)
    : reply * world :=
  match args with
  | a0 :: a1 :: _ =>
      let src := get_absolute_path nav a0 in
      let dst := get_absolute_path nav a1 in
      match rename src dst w with
      | (Some _, w) => (ReplyCopied src dst, w)
      | (None, w) =>
          (ReplyError (cs "Failed to move file: " ++ strerror (w_errno w)), w)
      end
  | _ => (ReplyError (cs "Source and destination required"), w)
  end.

Definition rename_item (nav : navigator) (args : list cstr) (w : world)
    : reply * world :=
  match args with
  | a0 :: a1 :: _ =>
      let old_name := get_absolute_path nav a0 in
      let new_name := get_absolute_path nav a1 in
      match rename old_name new_name w with
      | (Some _, w) => (ReplyRenamed old_name new_name, w)
      | (None, w) =>
          (ReplyError (cs "Failed to rename: " ++ strerror (w_errno w)), w)
      end
  | _ => (ReplyError (cs "Old and new names required"), w)
  end.

Definition get_current_path (nav : navigator) : reply :=
  ReplyCurrentPath (current_path nav).

(** *** [cd] *)

(** The navigator is left with the new [current_path]; the process
    answers one command and ends, so only the answer is kept. *)
Definition change_directory (nav : navigator) (args : list cstr) (w : world)
    : reply * world :=
  match args with
  | [] => (ReplyError (cs "No path specified"), w)
  | a :: _ =>
      let new_path := get_absolute_path nav a in
      match is_directory new_path w with
      | (false, w) => (ReplyError (cs "Not a directory: " ++ new_path), w)
      | (true, w) =>
          match chdir new_path w with
          | (Some _, w) =>
              match getcwd w with
              | (Some buffer, w) => (ReplyCreated buffer, w)
              | (None, w) => (ReplyCreated (current_path nav), w)
              end
          | (None, w) =>
              (ReplyError (cs "Failed to change directory: "
                           ++ strerror (w_errno w)), w)
          end
      end
  end.

(** *** [search] *)

Definition search_result_of (item : FileItem) : SearchResult :=
  {| sr_name := name item;
     sr_path := path item;
     sr_type := type item;
     sr_size := size item;
     sr_modified := modified item;
     sr_symlinkTarget := symlinkTarget item |}.

(** The loop over the queue of directories; [fuel] bounds the number
    of directories visited, [None] means that it was too small. *)
Fixpoint search_queue (fuel : nat) (pattern : cstr) (recursive : bool)
    (dirs_queue : list cstr) (results : list SearchResult) (w : world)
    : option (list SearchResult * world) :=
  match fuel with
  | O => None
  | S fuel' =>
      match dirs_queue with
      | [] => Some (results, w)
      | current_dir :: dirs_queue =>
          let '(items, w) := get_directory_contents current_dir w in
          let results :=
            results
            ++ map search_result_of
                 (filter (λ item, strstr (name item) pattern = true) items) in
          let dirs_queue :=
            dirs_queue
            ++ (if recursive
                then map path (filter (λ item, type item = TypeDirectory) items)
                else []) in
          if recursive
          then search_queue fuel' pattern recursive dirs_queue results w
          else Some (results, w)
      end
  end.

Definition search_files (fuel : nat) (nav : navigator) (args : list cstr)
    (w : world) : option (reply * world) :=
  match args with
  | [] => Some (ReplyError (cs "No search pattern specified"), w)
  | pattern :: more =>
      let recursive := bool_decide (more !! 0 = Some (cs "-r")) in
      let start_path :=
        match more !! 1 with
        | Some a => get_absolute_path nav a
        | None => current_path nav
        end in
      match search_queue fuel pattern recursive [start_path] [] w with
      | Some (results, w) => Some (ReplySearch results (length results), w)
      | None => None
      end
  end.

(** *** [info] and [diskinfo] *)

(** Arithmetic of [unsigned long long]. *)
Definition wrap64 (z : Z) : Z := z mod 2 ^ 64.

Definition disk_info_of (vfs : Z * Z * Z * Z) : DiskInfo :=
  let '(blocks, bfree, bavail, frsize) := vfs in
  let total := wrap64 (blocks * frsize) in
  let free := wrap64 (bfree * frsize) in
  {| total_space := total;
     free_space := free;
     available_space := wrap64 (bavail * frsize);
     used_space := wrap64 (total - free) |}.

(** Without argument: the number of items of the current directory and
    the figures of the disk, which are left uninitialised ([None]) when
    [statvfs] fails.  With an argument: the record of that node. *)
Definition get_info (nav : navigator) (args : list cstr) (w : world)
    : reply * world :=
  match args with
  | [] =>
      let '(items, w) := get_directory_contents (current_path nav) w in
      let '(vfs, w) := statvfs (current_path nav) w in
      (ReplyDirectoryInfo (current_path nav) (length items)
         (disk_info_of <$> vfs), w)
  | a :: _ =>
      let file_path := get_absolute_path nav a in
      match lstat file_path w with
      | (None, w) =>
          (ReplyError (cs "File not found: " ++ strerror (w_errno w)), w)
      | (Some statbuf, w) =>
          let is_dir := S_ISDIR (st_mode statbuf) in
          let is_link := S_ISLNK (st_mode statbuf) in
          let '(symlink_target, w) :=
            if is_link then
              match readlink file_path (PATH_MAX - 1) w with
              | (Some target, w) => (target, w)
              | (None, w) => ([], w)
              end
            else ([], w) in
          let base :=
            match find_last_of file_path SLASH with
            | Some pos => drop (pos + 1) file_path
            | None => file_path
            end in
          (ReplyFileInfo
             {| name := base;
                path := file_path;
                type := if is_link then TypeSymlink
                        else if is_dir then TypeDirectory else TypeFile;
                size := if is_dir then 0%Z else st_size statbuf;
                modified := time_to_string (st_mtime statbuf) w;
                extension := [];
                isHidden := bool_decide (head base = Some "."%char);
                isReadOnly := negb (has_bit (st_mode statbuf) S_IWUSR);
                permissions := get_permissions_string (st_mode statbuf);
                owner := owner_name (st_uid statbuf) w;
                group := group_name (st_gid statbuf) w;
                symlinkTarget := symlink_target |}, w)
      end
  end.

Definition get_disk_info (nav : navigator) (args : list cstr) (w : world)
    : reply * world :=
  let p := match args with
           | [] => current_path nav
           | a :: _ => get_absolute_path nav a
           end in
  match statvfs p w with
  | (Some vfs, w) => (ReplyDiskInfo p (disk_info_of vfs), w)
  | (None, w) =>
      (ReplyError (cs "Failed to get disk info: " ++ strerror (w_errno w)), w)
  end.

(** *** [execute_command] *)

(** What a call into a handler comes to: a value, an exception that
    leaves the handler ([what] is the text of a [std::exception]), or no
    end within the bound set on its loops. *)
Inductive outcome (A : Type) :=
| Returned (a : A)
| Thrown (what : option cstr)
| Unfinished.
Arguments Returned {A} a.
Arguments Thrown {A} what.
Arguments Unfinished {A}.

Definition finished {A} (r : option A) : outcome A :=
  match r with
  | Some a => Returned a
  | None => Unfinished
  end.

Definition handler : Type := list cstr → world → outcome (reply * world).

Record handlers := Handlers {
  h_list_files : handler;
  h_change_directory : handler;
  h_search_files : handler;
  h_get_info : handler;
  h_create_directory : handler;
  h_delete_item : handler;
  h_copy_item : handler;
  h_move_item : handler;
  h_rename_item : handler;
  h_get_current_path : handler;
  h_get_disk_info : handler
}.

(** The command words of [execute_command]. *)
Definition command_words : list cstr :=
  map cs [ "list"; "cd"; "search"; "info"; "mkdir"; "delete"; "copy";
           "move"; "rename"; "pwd"; "diskinfo" ]%string.

Definition execute_command (h : handlers) (command : cstr)
    (args : list cstr) (w : world) : outcome (reply * world) :=
  if bool_decide (command = cs "list") then h_list_files h args w
  else if bool_decide (command = cs "cd") then h_change_directory h args w
  else if bool_decide (command = cs "search") then h_search_files h args w
  else if bool_decide (command = cs "info") then h_get_info h args w
  else if bool_decide (command = cs "mkdir") then h_create_directory h args w
  else if bool_decide (command = cs "delete") then h_delete_item h args w
  else if bool_decide (command = cs "copy") then h_copy_item h args w
  else if bool_decide (command = cs "move") then h_move_item h args w
  else if bool_decide (command = cs "rename") then h_rename_item h args w
  else if bool_decide (command = cs "pwd") then h_get_current_path h args w
  else if bool_decide (command = cs "diskinfo") then h_get_disk_info h args w
  else Returned (ReplyError (cs "Unknown command: " ++ command), w).

(** The handlers of this file, for a navigator [nav] and a bound
    [fuel] on the recursions and on the search. *)
Definition navigator_handlers (fuel : nat) (nav : navigator) : handlers :=
  {| h_list_files := λ args w, Returned (list_files nav args w);
     h_change_directory := λ args w, Returned (change_directory nav args w);
     h_search_files := λ args w, finished (search_files fuel nav args w);
     h_get_info := λ args w, Returned (get_info nav args w);
     h_create_directory := λ args w, Returned (create_directory nav args w);
     h_delete_item := λ args w, finished (delete_item fuel nav args w);
     h_copy_item := λ args w, finished (copy_item fuel nav args w);
     h_move_item := λ args w, Returned (move_item nav args w);
     h_rename_item := λ args w, Returned (rename_item nav args w);
     h_get_current_path := λ args w, Returned (get_current_path nav, w);
     h_get_disk_info := λ args w, Returned (get_disk_info nav args w) |}.

(** *** [escape_json] *)

(** The characters that the [switch] names: the double quote, the
    newline, the carriage return and the tab (the backslash is
    [BACKSLASH]). *)
Definition QUOTE : ascii := "034"%char.
Definition NEWLINE : ascii := "010"%char.
Definition RETURN : ascii := "013"%char.
Definition TAB : ascii := "009"%char.

Definition escape_json (s : cstr) : cstr :=
  flat_map
    (λ c, if bool_decide (c = QUOTE) then [BACKSLASH; QUOTE]
          else if bool_decide (c = BACKSLASH) then [BACKSLASH; BACKSLASH]
          else if bool_decide (c = NEWLINE) then [BACKSLASH; "n"%char]
          else if bool_decide (c = RETURN) then [BACKSLASH; "r"%char]
          else if bool_decide (c = TAB) then [BACKSLASH; "t"%char]
          else [c])
    s.

End FileNavigator.

(** ** [main.cpp] *)

Module Main.
Import Posix FileNavigator.

(** What a run of the program leaves behind: its exit code and the
    object written to the standard output or, after an exception, to
    the standard error (help and version texts are not objects). *)
Record run := Run {
  exit_code : Z;
  written : option reply
}.

Definition is_flag (command : cstr) (flags : list string) : bool :=
  bool_decide (command ∈ map cs flags).

(** [main(argc, argv)], [argv] being the whole vector, program name
    included; [loaded] tells whether [init_fileops_library] found the
    library, and [h] holds the handlers of the [FileNavigator] that the
    run builds.  [None]: the command has not come to an end. *)
Definition main (loaded : bool) (h : handlers) (argv : list cstr) (w : world)
    : option run :=
  match argv with
  | [] | [_] => Some (Run 1 None)
  | _ :: command :: args =>
      if is_flag command ["--help"; "-h"; "help"] then Some (Run 0 None)
      else if is_flag command ["--version"; "-v"] then Some (Run 0 None)
      else if is_flag command ["--lib-status"] then
        Some (Run 0 (Some (ReplyLibraryStatus loaded)))
      else
        match execute_command h command args w with
        | Returned (result, _) => Some (Run 0 (Some result))
        | Thrown (Some what) =>
            Some (Run 1 (Some (ReplyError (cs "Exception: " ++ what))))
        | Thrown None => Some (Run 1 (Some (ReplyError (cs "Unknown exception"))))
        | Unfinished => None
        end
  end.

End Main.

(** ** Vocabulary of the statements *)

(** What [normalize_path] keeps as a path component: a non-empty name
    without separator that is neither [.] nor [..]. *)
Definition proper_component (t : cstr) : Prop :=
  t ≠ [] ∧ (SLASH ∉ t) ∧ (BACKSLASH ∉ t) ∧ t ≠ cs "." ∧ t ≠ cs "..".

(** [needle] occurs in [s]. *)
Definition contains (needle s : cstr) : Prop :=
  ∃ l1 l2, s = l1 ++ needle ++ l2.

(** [path] lies under one of the directories of the denylist. *)
Definition denylisted (path : cstr) : Prop :=
  ∃ sp, sp ∈ FileUtils.system_paths ∧ sp `prefix_of` path.

(** The permission string in the words of the specification: the type
    character, then one triplet each for owner, group and others, the
    execute position of a triplet showing its special bit ([s]/[S] for
    setuid and setgid, [t]/[T] for sticky) when that bit is set. *)
Definition type_character (mode : Z) : ascii :=
  if S_ISDIR mode then "d" else if S_ISLNK mode then "l"
  else if S_ISFIFO mode then "p" else if S_ISSOCK mode then "s"
  else if S_ISCHR mode then "c" else if S_ISBLK mode then "b" else "-".

Definition rwx_triplet (r w x special : bool) (lower upper : ascii) : cstr :=
  [ if r then "r"%char else "-"%char;
    if w then "w"%char else "-"%char;
    match special, x with
    | true, true => lower
    | true, false => upper
    | false, true => "x"%char
    | false, false => "-"%char
    end ].

Definition permission_string (mode : Z) : cstr :=
  type_character mode
  :: rwx_triplet (Z.testbit mode 8) (Z.testbit mode 7) (Z.testbit mode 6)
       (Z.testbit mode 11) "s" "S"
  ++ rwx_triplet (Z.testbit mode 5) (Z.testbit mode 4) (Z.testbit mode 3)
       (Z.testbit mode 10) "s" "S"
  ++ rwx_triplet (Z.testbit mode 2) (Z.testbit mode 1) (Z.testbit mode 0)
       (Z.testbit mode 9) "t" "T".

(** The place of a class of items in a listing. *)
Definition class_rank (t : FileNavigator.item_type) : nat :=
  match t with
  | FileNavigator.TypeDirectory => 0
  | FileNavigator.TypeSymlink => 1
  | FileNavigator.TypeFile => 2
  end.

(** [a] may stand before [b] in a listing: its class comes first, or
    the classes are the same and the name of [b] is not before the name
    of [a]. *)
Definition listing_order (a b : FileNavigator.FileItem) : Prop :=
  class_rank (FileNavigator.type a) < class_rank (FileNavigator.type b)
  ∨ (class_rank (FileNavigator.type a) = class_rank (FileNavigator.type b)
     ∧ FileNavigator.string_lt (FileNavigator.name b) (FileNavigator.name a)
       = false).

Definition type_of_kind (k : Posix.file_kind) : FileNavigator.item_type :=
  match k with
  | Posix.Regular _ => FileNavigator.TypeFile
  | Posix.Directory => FileNavigator.TypeDirectory
  | Posix.Symlink _ => FileNavigator.TypeSymlink
  end.

(** Two states of the world with the same files and the same
    environment: they differ at most in [errno]. *)
Definition same_files (w w' : Posix.world) : Prop :=
  Posix.w_fs w' = Posix.w_fs w ∧ Posix.w_env w' = Posix.w_env w.

(** The pairs [i], [i + 1], ... of a batch copied one after the other,
    each by a call of [n8n_copy_file] of its own, whatever the earlier
    ones answered: the answers in order, and the world they leave. *)
Fixpoint attempts (sources destinations : list cstr)
    (options : FileUtils.N8N_CopyOptions) (i n : nat) (w : Posix.world)
    : list FileUtils.N8N_Result * Posix.world :=
  match n with
  | O => ([], w)
  | S n' =>
      let '(r, w) :=
        FileUtils.n8n_copy_file (sources !!! i) (destinations !!! i) options w in
      let '(rs, w) := attempts sources destinations options (S i) n' w in
      (r :: rs, w)
  end.

Definition successes (rs : list FileUtils.N8N_Result) : Z :=
  Z.of_nat (length (filter (λ r, FileUtils.success r = true) rs)).

Definition failures (rs : list FileUtils.N8N_Result) : Z :=
  Z.of_nat (length (filter (λ r, FileUtils.success r = false) rs)).

(** The navigator of a process started in [/work]. *)
Definition example_navigator : FileNavigator.navigator :=
  {| FileNavigator.current_path := cs "/work";
     FileNavigator.path_history := [cs "/work"];
     FileNavigator.history_index := 0 |}.

(** The command words that [main] answers itself. *)
Definition special_flag (command : cstr) : bool :=
  Main.is_flag command ["--help"; "-h"; "help"]
  || Main.is_flag command ["--version"; "-v"]
  || Main.is_flag command ["--lib-status"].

(** The handlers of the examples. *)
Definition example_handlers : FileNavigator.handlers :=
  FileNavigator.navigator_handlers 16 example_navigator.

(** [k] is below the directory [dir], at any depth. *)
Definition under (dir k : cstr) : Prop := (dir ++ [SLASH]) `prefix_of` k.

Global Instance under_dec dir k : Decision (under dir k).
Proof. unfold under. apply _. Defined.

(** [k] is [dir] or below it. *)
Definition in_tree (dir k : cstr) : Prop := k = dir ∨ under dir k.

Global Instance in_tree_dec dir k : Decision (in_tree dir k).
Proof. unfold in_tree. apply _. Defined.

(** A name cut at its last slash. *)
Definition split_path (k : cstr) : cstr * cstr :=
  let pieces := LibC.split_on SLASH k in
  (join_with SLASH (removelast pieces), List.last pieces []).

(** The node [k] below [dir] is an entry of a directory of the tree of
    [dir], under a name other than [.] and [..]. *)
Definition well_placed (fs : gmap cstr Posix.inode) (dir k : cstr) : Prop :=
  (split_path k).2 ≠ []
  ∧ (split_path k).2 ≠ cs "."
  ∧ (split_path k).2 ≠ cs ".."
  ∧ in_tree dir (split_path k).1
  ∧ Posix.is_dir <$> fs !! (split_path k).1 = Some true.

Global Instance well_placed_dec fs dir k : Decision (well_placed fs dir k).
Proof. unfold well_placed. apply _. Defined.

(** What is below [dir] forms a tree. *)
Definition tree_shaped (fs : gmap cstr Posix.inode) (dir : cstr) : Prop :=
  map_Forall (λ k _, under dir k → well_placed fs dir k) fs.

Global Instance tree_shaped_dec fs dir : Decision (tree_shaped fs dir).
Proof. unfold tree_shaped. apply _. Defined.

(** [fs] without [dir] and what is below it. *)
Definition prune (dir : cstr) (fs : gmap cstr Posix.inode)
    : gmap cstr Posix.inode :=
  filter (λ entry, ¬ in_tree dir entry.1) fs.

(** No name of [log] is followed by a name below it: what is below a
    directory comes before the directory. *)
Definition postorder (log : list cstr) : Prop :=
  ∀ l1 k l2, log = l1 ++ k :: l2 → ∀ k', k' ∈ l2 → ¬ under k k'.

(** The tree of [dir] has gone between [w] and [w']: the files of [w']
    are those of [w] outside the tree, and the journal has grown by
    [log], which names every node of the tree once, what is below a
    directory before the directory. *)
Definition removed_tree (dir : cstr) (w w' : Posix.world) (log : list cstr)
    : Prop :=
  Posix.w_fs w' = prune dir (Posix.w_fs w)
  ∧ Posix.w_env w' = Posix.w_env w
  ∧ Posix.w_journal w' = Posix.w_journal w ++ log
  ∧ (∀ k, k ∈ log ↔ in_tree dir k ∧ is_Some (Posix.w_fs w !! k))
  ∧ NoDup log
  ∧ postorder log.

(** What a recursive call with [fuel] has to do for the loop: remove
    the tree of any directory that [fuel] reaches to the bottom of. *)
Definition removes_trees (fuel : nat)
    (recurse : cstr → Posix.world → option (bool * Posix.world)) : Prop :=
  ∀ c w,
    Posix.is_absolute c = true → c ≠ cs "/" →
    Posix.is_dir <$> Posix.w_fs w !! c = Some true →
    tree_shaped (Posix.w_fs w) c →
    map_Forall (λ k _, length k < length c + fuel) (Posix.w_fs w) →
    ∃ w' log, recurse c w = Some (true, w') ∧ removed_tree c w w' log.

(** [p] without its last character when that is a slash. *)
Definition without_trailing_slash (p : cstr) : cstr :=
  if bool_decide (last p = Some SLASH) then take (length p - 1) p else p.

(** [p] without its first character when that is a slash. *)
Definition without_leading_slash (p : cstr) : cstr :=
  if bool_decide (head p = Some SLASH) then drop 1 p else p.

(** Two paths put together with one slash between them; an empty path
    adds nothing. *)
Definition joined (a b : cstr) : cstr :=
  if bool_decide (a = []) then b
  else if bool_decide (b = []) then a
  else without_trailing_slash a ++ SLASH :: without_leading_slash b.

(** The value of a hexadecimal digit. *)
Definition hex_digit_value (c : ascii) : Z :=
  match list_find (λ x, x = c) FileUtils.hex with
  | Some (i, _) => Z.of_nat i
  | None => 0
  end.

(** The bytes that a string of hexadecimal digits spells, two digits
    for a byte, the high one first. *)
Fixpoint bytes_of_hex (s : cstr) : list ascii :=
  match s with
  | hi :: lo :: rest =>
      FileUtils.byte_of (16 * hex_digit_value hi + hex_digit_value lo)
      :: bytes_of_hex rest
  | _ => []
  end.

(** What reads a text written by [escape_json] back: a backslash
    announces one character, [n], [r] and [t] standing for the newline,
    the carriage return and the tab. *)
Fixpoint unescape_json (s : cstr) : cstr :=
  match s with
  | [] => []
  | c :: rest =>
      if bool_decide (c = BACKSLASH) then
        match rest with
        | [] => []
        | e :: rest' =>
            (if bool_decide (e = "n"%char) then FileNavigator.NEWLINE
             else if bool_decide (e = "r"%char) then FileNavigator.RETURN
             else if bool_decide (e = "t"%char) then FileNavigator.TAB
             else e) :: unescape_json rest'
        end
      else c :: unescape_json rest
  end.


(** The two words of the bit count of a digest after [len] more bytes,
    as [MD5_Update] computes them. *)
Definition count_next (c0 c1 len : Z) : Z * Z :=
  let added := FileUtils.wrap32 (Z.shiftl len 3) in
  let c0' := FileUtils.wrap32 (c0 + added) in
  let c1' := if (c0' <? added)%Z then FileUtils.wrap32 (c1 + 1) else c1 in
  (c0', FileUtils.wrap32 (c1' + Z.shiftr len 29)).

(** The context is as the code keeps it: 64 bytes of buffer and two
    count words within 32 bits. *)
Definition context_ok (c : FileUtils.MD5_CTX) : Prop :=
  length (FileUtils.buffer c) = 64
  ∧ ∃ c0 c1, FileUtils.count c = [c0; c1]
             ∧ (0 ≤ c0 < 2 ^ 32)%Z ∧ (0 ≤ c1 < 2 ^ 32)%Z.

(** The input that a context has taken in and not transformed yet. *)
Definition pending (c : FileUtils.MD5_CTX) : list ascii :=
  take (FileUtils.buffer_index c) (FileUtils.buffer c).

(** Two contexts that the code cannot tell apart: they differ at most
    in the bytes of the buffer that are not pending. *)
Definition same_context (c c' : FileUtils.MD5_CTX) : Prop :=
  FileUtils.state c = FileUtils.state c'
  ∧ FileUtils.count c = FileUtils.count c'
  ∧ pending c = pending c'.

(** The input of a digest cut into blocks of 64 bytes. *)
Abbreviation blocks_ok blocks :=
  (Forall (λ b : list ascii, length b = 64) blocks).

(** A context whose memory holds zeros, and one that holds something
    else. *)
Definition zero_context : FileUtils.MD5_CTX :=
  {| FileUtils.state := replicate 4 0%Z;
     FileUtils.count := replicate 2 0%Z;
     FileUtils.buffer := replicate 64 NUL |}.

Definition stale_context : FileUtils.MD5_CTX :=
  {| FileUtils.state := [1; 2; 3; 4]%Z;
     FileUtils.count := [40; 0]%Z;
     FileUtils.buffer := replicate 64 "x"%char |}.

(** ** Copying a tree *)

(** The node is a symbolic link. *)
Definition is_link (ino : Posix.inode) : bool :=
  match Posix.i_kind ino with Posix.Symlink _ => true | _ => false end.






(** ** Searching a tree *)

(** [k] is in the tree of a directory of the queue. *)
Definition reached (q : list cstr) (k : cstr) : Prop :=
  Exists (λ d, in_tree d k) q.

(** [k] is below a directory of the queue. *)
Definition queued_above (q : list cstr) (k : cstr) : Prop :=
  Exists (λ d, under d k) q.

(** No directory of the queue is in the tree of another one. *)
Definition apart (q : list cstr) : Prop :=
  NoDup q ∧ ∀ d d', d ∈ q → d' ∈ q → in_tree d d' → d = d'.

(** The names of [fs] that the search has yet to go through. *)
Definition unvisited (fs : gmap cstr Posix.inode) (q : list cstr) : nat :=
  length (filter (reached q) (map_to_list fs).*1).

(** A result of the search below [start]: it stands for a node there
    whose name holds the pattern. *)
Definition search_hit (pattern start : cstr) (fs : gmap cstr Posix.inode)
    (r : FileNavigator.SearchResult) : Prop :=
  under start (FileNavigator.sr_path r)
  ∧ FileNavigator.sr_name r = (split_path (FileNavigator.sr_path r)).2
  ∧ contains pattern (FileNavigator.sr_name r)
  ∧ ∃ ino, fs !! FileNavigator.sr_path r = Some ino
           ∧ FileNavigator.sr_type r = type_of_kind (Posix.i_kind ino).

(** A regular file with mode 4755 (setuid, [rwxr-xr-x]). *)
Definition setuid_mode : Z := 0x89ED.

(** ** Worlds for the examples *)

Definition example_env : Posix.environment :=
  {| Posix.e_cwd := cs "/work";
     Posix.e_uid := 1000;
     Posix.e_gid := 1000;
     Posix.e_umask := 0x12;
     Posix.e_now := 1700000000;
     Posix.e_passwd := ∅;
     Posix.e_group := ∅;
     Posix.e_strftime := λ t, cs (pretty t);
     Posix.f_blocks := 25000;
     Posix.f_bfree := 10000;
     Posix.f_bavail := 9000;
     Posix.f_frsize := 4096 |}.

Definition node (kind : Posix.file_kind) (perm : Z) : Posix.inode :=
  Posix.Inode kind perm 1000 1000 1600000000 1600000000.

Definition world_of (files : list (cstr * Posix.inode)) : Posix.world :=
  Posix.World (list_to_map files) Posix.ESUCCESS example_env [].

(** The directory of the specification's scenario, with a link
    besides. *)
Definition demo_world : Posix.world :=
  world_of
    [ (cs "/", node Posix.Directory 0x1ED);
      (cs "/tmp", node Posix.Directory 0x1ED);
      (cs "/tmp/demo", node Posix.Directory 0x1ED);
      (cs "/tmp/demo/a.txt", node (Posix.Regular (cs "0123456789")) 0x1A4);
      (cs "/tmp/demo/.hidden", node (Posix.Regular (cs "12345")) 0x1A4);
      (cs "/tmp/demo/latest", node (Posix.Symlink (cs "a.txt")) 0x1FF);
      (cs "/tmp/demo/sub", node Posix.Directory 0x1ED);
      (cs "/tmp/demo/sub/b.txt", node (Posix.Regular (cs "b")) 0x1A4) ].

(** The options of a plain copy. *)
Definition plain_copy : FileUtils.N8N_CopyOptions :=
  {| FileUtils.overwrite := false;
     FileUtils.preserveTimestamps := false;
     FileUtils.createDestDir := false;
     FileUtils.preservePermissions := false;
     FileUtils.preserveOwner := false |}.

(** Five files to copy, the third of which does not exist. *)
Definition batch_world : Posix.world :=
  world_of
    [ (cs "/", node Posix.Directory 0x1ED);
      (cs "/in", node Posix.Directory 0x1ED);
      (cs "/out", node Posix.Directory 0x1ED);
      (cs "/in/1", node (Posix.Regular (cs "one")) 0x1A4);
      (cs "/in/2", node (Posix.Regular (cs "two")) 0x1A4);
      (cs "/in/4", node (Posix.Regular (cs "four")) 0x1A4);
      (cs "/in/5", node (Posix.Regular (cs "five")) 0x1A4) ].

Definition batch_sources : list cstr :=
  map cs [ "/in/1"; "/in/2"; "/in/3"; "/in/4"; "/in/5" ]%string.

Definition batch_destinations : list cstr :=
  map cs [ "/out/1"; "/out/2"; "/out/3"; "/out/4"; "/out/5" ]%string.


(** A working directory that holds one symbolic link, [foo], to a file
    that does not exist. *)
Definition dangling_world : Posix.world :=
  world_of
    [ (cs "/", node Posix.Directory 0x1ED);
      (cs "/work", node Posix.Directory 0x1ED);
      (cs "/work/foo", node (Posix.Symlink (cs "/nowhere")) 0x1FF) ].

(** The room a list of components takes once joined, plus one. *)
Definition weight (l : list cstr) : nat :=
  list_sum (map (λ seg, S (length seg)) l).

(** * Properties *)

(** ** Splitting and joining *)

Section Splitting.
Import LibC.
Variable d : ascii.

Lemma split_on_not_nil s : split_on d s ≠ [].
Proof.
  destruct s as [|c s]; simpl; [done|].
  destruct (decide (c = d)); [done|].
  destruct (split_on d s); done.
Qed.

Lemma split_on_free s : Forall (λ seg, d ∉ seg) (split_on d s).
Proof.
  induction s as [|c s IH]; simpl.
  - repeat constructor. apply not_elem_of_nil.
  - destruct (decide (c = d)) as [->|Hne].
    + constructor; [apply not_elem_of_nil | done].
    + destruct (split_on d s) as [|seg segs]; inversion IH; subst.
      * repeat constructor. by intros ->%list_elem_of_singleton.
      * constructor; [|done]. by intros [->|?]%elem_of_cons.
Qed.

(** Every character of [s] is in one piece or is a delimiter. *)
Lemma split_on_weight s :
  list_sum (map (λ seg, S (length seg)) (split_on d s)) = S (length s).
Proof.
  induction s as [|c s IH]; simpl; [done|].
  destruct (decide (c = d)); simpl; [lia|].
  pose proof (split_on_not_nil s).
  destruct (split_on d s) as [|seg segs]; [done|]. simpl in *. lia.
Qed.

Lemma split_on_free_id x : d ∉ x → split_on d x = [x].
Proof.
  induction x as [|c x IH]; simpl; intros Hx; [done|].
  destruct (decide (c = d)) as [->|_]; [set_solver|].
  rewrite IH; [done | set_solver].
Qed.

Lemma split_on_app x s : d ∉ x → split_on d (x ++ d :: s) = x :: split_on d s.
Proof.
  induction x as [|c x IH]; simpl; intros Hx.
  - by rewrite decide_True.
  - destruct (decide (c = d)) as [->|_]; [set_solver|].
    rewrite IH; [done | set_solver].
Qed.

Lemma split_on_join c rest :
  Forall (λ seg, d ∉ seg) (c :: rest) →
  split_on d (join_with d (c :: rest)) = c :: rest.
Proof.
  revert c. induction rest as [|c' rest IH]; intros c Hall; simpl.
  - rewrite app_nil_r. apply split_on_free_id. by inversion Hall.
  - inversion Hall; subst. rewrite split_on_app by done.
    f_equal. by apply (IH c').
Qed.

Lemma strtok_all_join l :
  Forall (λ seg, seg ≠ [] ∧ d ∉ seg) l →
  strtok_all d (join_with d l) = l.
Proof.
  intros Hall. destruct l as [|c rest]; [done|].
  unfold strtok_all. rewrite split_on_join.
  - clear -Hall. induction Hall as [|x l [Hx _] _ IH]; [done|].
    by rewrite filter_cons_True, IH.
  - eapply Forall_impl; [exact Hall|]. by intros ? [_ ?].
Qed.

Lemma strtok_all_weight s :
  list_sum (map (λ seg, S (length seg)) (strtok_all d s)) ≤ S (length s).
Proof.
  rewrite <- split_on_weight. unfold strtok_all.
  induction (split_on d s) as [|seg segs IH]; simpl; [done|].
  rewrite filter_cons. destruct (decide (seg ≠ [])); simpl; lia.
Qed.

Lemma split_on_chars s t x : t ∈ split_on d s → x ∈ t → x ∈ s.
Proof.
  revert t. induction s as [|c s IH]; simpl; intros t Hin Hx.
  - apply list_elem_of_singleton in Hin as ->. done.
  - destruct (decide (c = d)).
    + apply elem_of_cons in Hin as [->|Hin]; [by apply elem_of_nil in Hx|].
      right. by eapply IH.
    + pose proof (split_on_not_nil s).
      destruct (split_on d s) as [|seg segs]; [done|].
      apply elem_of_cons in Hin as [->|Hin].
      * apply elem_of_cons in Hx as [->|Hx]; [left|right; eapply IH; [left|done]].
      * right. eapply IH; [by right|done].
Qed.

Lemma strtok_all_tokens s :
  Forall (λ t, t ≠ [] ∧ (d ∉ t) ∧ ∀ c, c ∈ t → c ∈ s) (strtok_all d s).
Proof.
  unfold strtok_all. apply Forall_forall. intros t Ht.
  apply list_elem_of_filter in Ht as [Hne Hin].
  split; [done|]. split.
  - pose proof (split_on_free s) as Hf.
    rewrite Forall_forall in Hf. by apply Hf.
  - intros x. by apply split_on_chars.
Qed.

Lemma elem_of_join_with l x :
  x ∈ join_with d l → x = d ∨ ∃ t, t ∈ l ∧ x ∈ t.
Proof.
  destruct l as [|c rest]; simpl; [by intros ?%elem_of_nil|].
  intros [Hx|Hx]%elem_of_app.
  - right. exists c. split; [left|done].
  - induction rest as [|c' rest IH]; simpl in Hx; [by apply elem_of_nil in Hx|].
    apply elem_of_cons in Hx as [->|Hx]; [by left|].
    apply elem_of_app in Hx as [Hx|Hx].
    + right. exists c'. split; [right; left|done].
    + destruct (IH Hx) as [->|(t & Ht & Hxt)]; [by left|].
      right. exists t. split; [|done].
      apply elem_of_cons in Ht as [->|Ht]; [left|right; by right].
Qed.
End Splitting.

(** ** [normalize_path] *)

Section Normalize.
Import LibC FileUtils.

Local Arguments weight : simpl never.

Lemma weight_cons x l : weight (x :: l) = S (length x) + weight l.
Proof. done. Qed.

Lemma weight_app l1 l2 : weight (l1 ++ l2) = weight l1 + weight l2.
Proof. unfold weight. by rewrite map_app, list_sum_app. Qed.

Lemma weight_take n l : weight (take n l) ≤ weight l.
Proof.
  rewrite <- (take_drop n l) at 2. rewrite weight_app. lia.
Qed.

Lemma length_join_with d l : length (join_with d l) < weight l ∨ l = [].
Proof.
  destruct l as [|c rest]; [by right|left].
  rewrite weight_cons. simpl. rewrite length_app.
  induction rest as [|c' rest IH]; [simpl; lia|].
  rewrite weight_cons. simpl. rewrite length_app. lia.
Qed.

Lemma collect_components_weight tokens components :
  weight (collect_components tokens components)
  ≤ weight tokens + weight components.
Proof.
  revert components.
  induction tokens as [|token rest IH]; intros components;
    cbn [collect_components]; [lia|].
  rewrite weight_cons.
  destruct (length components <? 256); [|lia].
  destruct (strcmp_eq token (cs "..")).
  - etrans; [apply IH|].
    destruct (0 <? length components); [|lia].
    pose proof (weight_take (length components - 1) components). lia.
  - destruct (negb (strcmp_eq token (cs ".")) && (0 <? length token)).
    + etrans; [apply IH|]. rewrite weight_app, weight_cons. unfold weight. simpl. lia.
    + etrans; [apply IH|]. lia.
Qed.

Lemma collect_components_length tokens components :
  length components ≤ 256 →
  length (collect_components tokens components) ≤ 256.
Proof.
  revert components.
  induction tokens as [|token rest IH]; intros components Hlen;
    cbn [collect_components]; [done|].
  destruct (Nat.ltb_spec (length components) 256); [|done].
  destruct (strcmp_eq token (cs "..")).
  - apply IH. destruct (0 <? length components); [|done].
    rewrite length_take. lia.
  - destruct (negb (strcmp_eq token (cs ".")) && (0 <? length token)).
    + apply IH. rewrite length_app. simpl. lia.
    + by apply IH.
Qed.

(** Only tokens other than [.], [..] and the empty one are kept. *)
Lemma collect_components_kept (Q : cstr → Prop) tokens components :
  Forall Q tokens →
  Forall (λ t, Q t ∧ t ≠ [] ∧ t ≠ cs "." ∧ t ≠ cs "..") components →
  Forall (λ t, Q t ∧ t ≠ [] ∧ t ≠ cs "." ∧ t ≠ cs "..")
    (collect_components tokens components).
Proof.
  intros Htok. revert components.
  induction Htok as [|token rest Hq _ IH]; intros components Hc;
    cbn [collect_components]; [done|].
  destruct (length components <? 256); [|done].
  unfold strcmp_eq.
  destruct (bool_decide_reflect (token = cs "..")) as [_|Hdd].
  - apply IH. destruct (0 <? length components); [|done].
    by apply Forall_take.
  - destruct (bool_decide_reflect (token = cs ".")) as [_|Hd]; simpl.
    + by apply IH.
    + destruct (Nat.ltb_spec 0 (length token)) as [Hpos|_].
      * apply IH. apply Forall_app. split; [done|].
        repeat constructor; try done. intros ->. simpl in Hpos. lia.
      * by apply IH.
Qed.

(** Components already resolved go through the loop unchanged. *)
Lemma collect_components_resolved tokens components :
  Forall proper_component tokens →
  length components + length tokens ≤ 256 →
  collect_components tokens components = components ++ tokens.
Proof.
  intros Htok. revert components.
  induction Htok as [|token rest Hp _ IH]; intros components Hlen;
    cbn [collect_components].
  - by rewrite app_nil_r.
  - simpl in Hlen. destruct Hp as (Hne & _ & _ & Hd & Hdd).
    destruct (Nat.ltb_spec (length components) 256); [|lia].
    unfold strcmp_eq. rewrite !bool_decide_eq_false_2 by done. simpl.
    destruct (Nat.ltb_spec 0 (length token)) as [_|Hz].
    + rewrite IH; [by rewrite <- app_assoc|]. rewrite length_app. simpl. lia.
    + destruct token; [done|]. simpl in Hz. lia.
Qed.

(** With enough room no [strncat] truncates. *)
Lemma assemble_room size components i result :
  0 < i →
  length result + weight components < size →
  assemble size components i result
  = result ++ concat (map (cons SLASH) components).
Proof.
  revert i result.
  induction components as [|comp rest IH]; intros i result Hi Hroom;
    cbn [assemble].
  - simpl. by rewrite app_nil_r.
  - rewrite weight_cons in Hroom.
    destruct (Nat.ltb_spec 0 i); [|lia].
    unfold strncat. rewrite (take_ge [SLASH]) by (simpl; lia).
    rewrite (take_ge comp) by (rewrite length_app; simpl; lia).
    rewrite IH; [|lia|rewrite !length_app; simpl; lia].
    by rewrite <- !app_assoc.
Qed.

Lemma assemble_join size components :
  weight components ≤ size →
  assemble size components 0 [] = join_with SLASH components.
Proof.
  destruct components as [|comp rest]; [done|]. intros Hroom.
  rewrite weight_cons in Hroom. simpl.
  unfold strncat. rewrite (take_ge comp) by (simpl; lia).
  destruct rest as [|comp' rest]; [simpl; by rewrite app_nil_r|].
  rewrite assemble_room; [done|lia|]. simpl. lia.
Qed.

Lemma length_unify_separators temp :
  length (unify_separators temp) = length temp.
Proof. apply length_map. Qed.

Lemma unify_separators_free temp : BACKSLASH ∉ unify_separators temp.
Proof.
  unfold unify_separators. intros Hin.
  apply list_elem_of_fmap in Hin as (c & Hc & _).
  destruct (decide (c = BACKSLASH)); [discriminate|congruence].
Qed.

Lemma unify_separators_id temp :
  BACKSLASH ∉ temp → unify_separators temp = temp.
Proof.
  induction temp as [|c temp IH]; intros Hfree; [done|]. simpl.
  rewrite decide_False; [|intros ->; apply Hfree; left].
  rewrite IH; [done|]. intros ?. apply Hfree. by right.
Qed.

Lemma PATH_MAX_pos : 2 ≤ PATH_MAX.
Proof. unfold PATH_MAX. lia. Qed.

Lemma resolved_components_weight path :
  weight (resolved_components path) ≤ PATH_MAX.
Proof.
  unfold resolved_components, strncpy.
  etrans; [apply collect_components_weight|].
  pose proof (strtok_all_weight SLASH
                (unify_separators (take (PATH_MAX - 1) path))) as Hw.
  rewrite length_unify_separators, length_take in Hw.
  pose proof PATH_MAX_pos. change (weight []) with 0. unfold weight. lia.
Qed.

Lemma resolved_components_proper path :
  Forall proper_component (resolved_components path).
Proof.
  unfold resolved_components.
  set (temp := unify_separators (strncpy path (PATH_MAX - 1))).
  pose proof (collect_components_kept
                (λ t, (SLASH ∉ t) ∧ (BACKSLASH ∉ t))
                (strtok_all SLASH temp) []) as Hk.
  eapply Forall_impl; [apply Hk; [|done]|].
  - eapply Forall_impl; [apply strtok_all_tokens|].
    intros t (_ & Hs & Hsub). split; [done|].
    intros Hb. apply Hsub in Hb. by apply unify_separators_free in Hb.
  - intros t ((? & ?) & ? & ? & ?). by repeat split.
Qed.

Lemma resolved_components_length path :
  length (resolved_components path) ≤ 256.
Proof. apply collect_components_length. simpl. lia. Qed.

(** What the function returns when [result] is at least as large as
    the internal buffer [temp]. *)
Lemma normalize_path_join path size :
  PATH_MAX ≤ size →
  normalize_path path size
  = match resolved_components path with
    | [] => cs "."
    | comps => join_with SLASH comps
    end.
Proof.
  intros Hsize. unfold normalize_path.
  pose proof (resolved_components_weight path) as Hw.
  pose proof (resolved_components_proper path) as Hp.
  rewrite assemble_join by lia.
  pose proof PATH_MAX_pos.
  destruct (resolved_components path) as [|comp rest]; simpl.
  - unfold strncpy. apply take_ge. simpl. lia.
  - inversion Hp as [|? ? (Hne & _) _]; subst.
    destruct comp; [done|]. done.
Qed.
End Normalize.

Section NormalizeClaims.
Import LibC FileUtils.

(** The components of a normalized path are what a second pass finds. *)
Lemma resolved_components_join comps :
  Forall proper_component comps →
  length comps ≤ 256 →
  weight comps ≤ PATH_MAX →
  resolved_components (join_with SLASH comps) = comps.
Proof.
  intros Hp Hlen Hw. unfold resolved_components, strncpy.
  rewrite take_ge.
  2:{ destruct (length_join_with SLASH comps) as [?| ->]; [lia|simpl; lia]. }
  rewrite unify_separators_id.
  2:{ intros [Heq|(t & Ht & Hin)]%elem_of_join_with; [done|].
      rewrite Forall_forall in Hp. by destruct (Hp t Ht) as (_ & _ & ? & _). }
  rewrite strtok_all_join.
  2:{ eapply Forall_impl; [exact Hp|]. by intros t (? & ? & _). }
  by apply collect_components_resolved.
Qed.

(** C7.  Normalizing twice gives what normalizing once gives, for every
    path and every result buffer at least as large as the internal
    [PATH_MAX] buffer (so that [strncat] has room for the whole
    result). *)
Theorem normalize_path_idempotent path size size' :
  PATH_MAX ≤ size → PATH_MAX ≤ size' →
  normalize_path (normalize_path path size) size'
  = normalize_path path size.
Proof.
  intros Hsize Hsize'.
  rewrite (normalize_path_join path) by done.
  pose proof (resolved_components_proper path) as Hp.
  pose proof (resolved_components_length path) as Hlen.
  pose proof (resolved_components_weight path) as Hw.
  destruct (resolved_components path) as [|comp rest] eqn:Hcomps.
  - rewrite normalize_path_join by done. by vm_compute.
  - rewrite normalize_path_join by done.
    by rewrite resolved_components_join.
Qed.

Lemma normalize_path_idempotent_witness :
  normalize_path (normalize_path (cs "/a/./b/../c\d//") PATH_MAX) PATH_MAX
  = normalize_path (cs "/a/./b/../c\d//") PATH_MAX
  ∧ normalize_path (cs "/a/./b/../c\d//") PATH_MAX = cs "a/c/d".
Proof.
  split.
  - apply normalize_path_idempotent; unfold PATH_MAX; lia.
  - vm_compute. reflexivity.
Defined.

Lemma normalize_path_not_absolute path size :
  PATH_MAX ≤ size → head (normalize_path path size) ≠ Some SLASH.
Proof.
  intros Hsize. rewrite normalize_path_join by done.
  pose proof (resolved_components_proper path) as Hp.
  destruct (resolved_components path) as [|comp rest]; [done|].
  inversion Hp as [|? ? (Hne & Hs & _) _]; subst.
  destruct comp as [|c comp]; [done|]. simpl. intros [= ->].
  apply Hs. left.
Qed.

(** C10.  The output of [normalize_path] never begins with a slash and
    contains no backslash; it is either ["."] or made of pieces between
    slashes none of which is empty, ["."] or [".."]; and it is ["."]
    as soon as no component survives. *)
Theorem normalize_path_shape path size :
  PATH_MAX ≤ size →
  head (normalize_path path size) ≠ Some SLASH
  ∧ (BACKSLASH ∉ normalize_path path size)
  ∧ (normalize_path path size = cs "."
     ∨ Forall (λ seg, seg ≠ [] ∧ seg ≠ cs "." ∧ seg ≠ cs "..")
         (split_on SLASH (normalize_path path size)))
  ∧ (resolved_components path = [] → normalize_path path size = cs ".").
Proof.
  intros Hsize. split; [by apply normalize_path_not_absolute|].
  rewrite normalize_path_join by done.
  pose proof (resolved_components_proper path) as Hp.
  destruct (resolved_components path) as [|comp rest] eqn:Hcomps.
  - repeat split; [|by left].
    by intros [?|?%elem_of_nil]%elem_of_cons.
  - repeat split.
    + intros [Heq|(t & Ht & Hin)]%elem_of_join_with; [done|].
      rewrite Forall_forall in Hp. by destruct (Hp t Ht) as (_ & _ & ? & _).
    + right. rewrite split_on_join.
      * eapply Forall_impl; [exact Hp|]. by intros t (? & _ & _ & ? & ?).
      * eapply Forall_impl; [exact Hp|]. by intros t (_ & ? & _).
    + done.
Qed.

Lemma normalize_path_shape_witness :
  head (normalize_path (cs "/usr/../etc/./passwd") PATH_MAX) ≠ Some SLASH
  ∧ normalize_path (cs "/usr/../etc/./passwd") PATH_MAX = cs "etc/passwd"
  ∧ normalize_path (cs "/a/../..") PATH_MAX = cs ".".
Proof.
  split; [|split].
  - apply (normalize_path_shape (cs "/usr/../etc/./passwd") PATH_MAX).
    unfold PATH_MAX; lia.
  - vm_compute. reflexivity.
  - vm_compute. reflexivity.
Defined.
End NormalizeClaims.


(** ** [is_safe_path] *)

Section SafePathClaims.
Import LibC FileUtils.

Lemma strncmp_eq_prefix path sp :
  strncmp_eq path sp (length sp) = true ↔ sp `prefix_of` path.
Proof.
  unfold strncmp_eq. rewrite bool_decide_eq_true, firstn_all. split.
  - intros Heq. exists (drop (length sp) path).
    rewrite <- (take_drop (length sp) path) at 1. by rewrite Heq.
  - intros [k ->]. by rewrite take_app_length.
Qed.

Lemma strstr_contains hay needle :
  strstr hay needle = true ↔ contains needle hay.
Proof.
  induction hay as [|c hay IH]; cbn [strstr];
    rewrite orb_true_iff, strncmp_eq_prefix.
  - split.
    + intros [[k Hk]|?]; [|done]. exists [], k. done.
    + intros (l1 & l2 & Heq). left.
      destruct l1; [by exists l2|done].
  - rewrite IH. split.
    + intros [[k Hk]|(l1 & l2 & ->)]; [by exists [], k|].
      by exists (c :: l1), l2.
    + intros (l1 & l2 & Heq). destruct l1 as [|c' l1].
      * left. by exists l2.
      * right. injection Heq as -> ->. by exists l1, l2.
Qed.

Lemma scan_copied_component_free piece :
  SLASH ∉ piece → scan_copied_component piece = false.
Proof.
  induction piece as [|c piece IH]; intros Hfree; [done|]. simpl.
  destruct (bool_decide_reflect (c = NUL)); [done|].
  rewrite bool_decide_eq_false_2; [|intros ->; apply Hfree; left]. simpl.
  apply IH. intros ?. apply Hfree. by right.
Qed.

Lemma scan_last_component_free start :
  SLASH ∉ start → NUL ∉ start → scan_last_component start = false.
Proof.
  intros Hs Hn. unfold scan_last_component.
  induction start as [|c start IH]; [done|]. simpl.
  rewrite !bool_decide_eq_false_2;
    [|intros ->; apply Hn; left|intros ->; apply Hs; left].
  apply IH; intros ?; [apply Hs|apply Hn]; by right.
Qed.

Lemma scan_components_false path : NUL ∉ path → scan_components path = false.
Proof.
  intros Hnul. unfold scan_components.
  pose proof (split_on_free SLASH path) as Hfree.
  rewrite Forall_forall in Hfree.
  pose proof (split_on_not_nil SLASH path) as Hne.
  destruct (exists_last Hne) as (pieces & piece & Heq).
  rewrite Heq in *. rewrite removelast_last, last_last.
  apply orb_false_iff. split.
  - apply not_true_is_false. intros (x & Hin & Hx)%existsb_exists.
    rewrite scan_copied_component_free, andb_false_r in Hx; [done|].
    apply Hfree, elem_of_app. left. by apply list_elem_of_In.
  - apply scan_last_component_free.
    + apply Hfree, elem_of_app. right. left.
    + intros Hin. apply Hnul. eapply split_on_chars; [|exact Hin].
      rewrite Heq. apply elem_of_app. right. left.
Qed.

(** The component scan never reaches a [return 1] on a C string. *)
Lemma has_dangerous_chars_zero path :
  NUL ∉ path → has_dangerous_chars path = 0%Z.
Proof.
  intros Hnul. unfold has_dangerous_chars.
  generalize path at 2. intros p.
  induction p as [|c p IH]; [done|]. cbn [has_dangerous_chars_from].
  rewrite scan_components_false, andb_false_r by done.
  by destruct (_ || _ || _).
Qed.

Lemma elem_of_unify_separators temp c :
  c ∈ unify_separators temp → c = SLASH ∨ c ∈ temp.
Proof.
  unfold unify_separators. intros (x & -> & Hx)%list_elem_of_fmap.
  destruct (decide (x = BACKSLASH)); [by left|by right].
Qed.

Lemma normalize_path_chars path size c :
  PATH_MAX ≤ size →
  c ∈ normalize_path path size → c = SLASH ∨ c = "."%char ∨ c ∈ path.
Proof.
  intros Hsize. rewrite normalize_path_join by done.
  unfold resolved_components.
  set (temp := unify_separators (strncpy path (PATH_MAX - 1))).
  pose proof (collect_components_kept (λ t, ∀ x, x ∈ t → x ∈ temp)
                (strtok_all SLASH temp) []) as Hk.
  assert (Hchars : Forall (λ t, ∀ x, x ∈ t → x ∈ temp)
                     (collect_components (strtok_all SLASH temp) [])).
  { eapply Forall_impl; [apply Hk; [|done]|by intros t (? & _)].
    eapply Forall_impl; [apply strtok_all_tokens|]. by intros t (_ & _ & ?). }
  rewrite Forall_forall in Hchars.
  destruct (collect_components (strtok_all SLASH temp) []) as [|comp rest].
  - intros [->|?%elem_of_nil]%elem_of_cons; [|done]. right. by left.
  - intros [->|(t & Ht & Hin)]%elem_of_join_with; [by left|].
    apply Hchars in Hin; [|done].
    apply elem_of_unify_separators in Hin as [->|Hin]; [by left|].
    right. right. unfold strncpy in Hin.
    by apply (subseteq_take (PATH_MAX - 1) path).
Qed.

Lemma normalize_path_relative path size sp :
  PATH_MAX ≤ size → sp ∈ system_paths → ¬ sp `prefix_of` normalize_path path size.
Proof.
  intros Hsize Hsp [k Hk].
  apply (normalize_path_not_absolute path size Hsize). rewrite Hk.
  unfold system_paths in Hsp. simpl in Hsp.
  repeat (apply elem_of_cons in Hsp as [->|Hsp]; [done|]).
  by apply elem_of_nil in Hsp.
Qed.

Lemma lstat_set_errno path e w :
  (Posix.lstat path (Posix.set_errno e w)).1 = (Posix.lstat path w).1.
Proof.
  unfold Posix.lstat, Posix.locate. simpl.
  by destruct (Posix.w_fs w !! _).
Qed.

Lemma realpath_world path w :
  (Posix.realpath path w).1 = None →
  ∃ e, Posix.realpath path w = (None, Posix.set_errno e w).
Proof.
  unfold Posix.realpath.
  destruct (Posix.follow _ _) as [[k ino]|e]; [done|]. by exists e.
Qed.

(** C1, as the code has it.  On the output of [normalize_path],
    [is_safe_path] answers 0 exactly when the path contains ["../"],
    or [realpath] fails on it while [lstat] reports a symbolic link,
    or it begins with a denylisted system directory. *)
Theorem is_safe_path_normalized w path size :
  PATH_MAX ≤ size →
  NUL ∉ path →
  is_safe_path (normalize_path path size) w = 0%Z
  ↔ contains (cs "../") (normalize_path path size)
    ∨ ((Posix.realpath (normalize_path path size) w).1 = None
       ∧ ∃ statbuf,
           (Posix.lstat (normalize_path path size) w).1 = Some statbuf
           ∧ S_ISLNK (Posix.st_mode statbuf) = true)
    ∨ denylisted (normalize_path path size).
Proof.
  intros Hsize Hnul. set (np := normalize_path path size).
  assert (Hnp : NUL ∉ np).
  { intros [?|[?|?]]%normalize_path_chars; done. }
  unfold is_safe_path. rewrite has_dangerous_chars_zero by done.
  change (negb (0 =? 0)%Z) with false. cbv iota.
  destruct (strstr np (cs "../")) eqn:Hstr.
  { split; [|done]. intros _. left. by apply strstr_contains. }
  assert (Hnc : ¬ contains (cs "../") np).
  { intros Hc%strstr_contains. congruence. }
  assert (Hden : ¬ denylisted np).
  { intros (sp & Hsp & Hpre). by eapply normalize_path_relative. }
  assert (Hex : existsb (λ sp, strncmp_eq np sp (length sp)) system_paths
                = false).
  { apply not_true_is_false. intros (sp & Hin & Hsp)%existsb_exists.
    apply Hden. exists sp. split; [by apply list_elem_of_In|].
    by apply strncmp_eq_prefix. }
  rewrite Hex.
  destruct (Posix.realpath np w) as [[rp|] w'] eqn:Hrp; simpl.
  { split; [done|]. intros [?|[(? & _)|?]]; done. }
  destruct (realpath_world np w) as [e He]; [by rewrite Hrp|].
  rewrite Hrp in He. injection He as ->.
  pose proof (lstat_set_errno np e w) as Hl.
  destruct (Posix.lstat np (Posix.set_errno e w)) as [[statbuf|] w''];
    simpl in Hl.
  - destruct (S_ISLNK (Posix.st_mode statbuf)) eqn:Hlnk.
    + split; [|done]. intros _. right. left. split; [done|].
      by exists statbuf.
    + split; [done|]. rewrite <- Hl.
      intros [?|[(_ & m & [= <-] & ?)|?]]; [done|congruence|done].
  - split; [done|]. rewrite <- Hl. intros [?|[(_ & m & ? & _)|?]]; done.
Qed.

Lemma is_safe_path_normalized_witness :
  is_safe_path (normalize_path (cs "docs/../foo") PATH_MAX) dangling_world
  = 0%Z
  ↔ contains (cs "../") (normalize_path (cs "docs/../foo") PATH_MAX)
    ∨ ((Posix.realpath (normalize_path (cs "docs/../foo") PATH_MAX)
          dangling_world).1 = None
       ∧ ∃ statbuf,
           (Posix.lstat (normalize_path (cs "docs/../foo") PATH_MAX)
              dangling_world).1 = Some statbuf
           ∧ S_ISLNK (Posix.st_mode statbuf) = true)
    ∨ denylisted (normalize_path (cs "docs/../foo") PATH_MAX).
Proof.
  apply (is_safe_path_normalized dangling_world (cs "docs/../foo") PATH_MAX).
  - unfold PATH_MAX. lia.
  - vm_compute. intros H.
    repeat (apply elem_of_cons in H as [H|H]; [discriminate H|]).
    by apply elem_of_nil in H.
Defined.

(** C1 as stated fails: where [foo] is a symbolic link to a file that
    does not exist, the normalized path ["foo"] is rejected although it
    contains no ["../"] and begins with no denylisted directory. *)
Lemma is_safe_path_symlink_counterexample :
  normalize_path (cs "foo") PATH_MAX = cs "foo"
  ∧ is_safe_path (normalize_path (cs "foo") PATH_MAX) dangling_world = 0%Z
  ∧ ¬ (contains (cs "../") (normalize_path (cs "foo") PATH_MAX)
       ∨ denylisted (normalize_path (cs "foo") PATH_MAX)).
Proof.
  assert (Hn : normalize_path (cs "foo") PATH_MAX = cs "foo")
    by (vm_compute; reflexivity).
  rewrite Hn. split; [done|]. split; [vm_compute; reflexivity|].
  intros [Hc%strstr_contains|(sp & Hsp & [k Hk])].
  - vm_compute in Hc. discriminate.
  - unfold system_paths in Hsp. simpl in Hsp.
    repeat (apply elem_of_cons in Hsp as [->|Hsp]; [discriminate Hk|]).
    by apply elem_of_nil in Hsp.
Qed.
End SafePathClaims.

(** ** Permission strings *)

Section Permissions.

Lemma has_bit_testbit mode k :
  (0 ≤ k)%Z → has_bit mode (2 ^ k) = Z.testbit mode k.
Proof.
  intros Hk. unfold has_bit.
  destruct (Z.testbit mode k) eqn:Hbit.
  - apply negb_true_iff, Z.eqb_neq. intros Hz.
    assert (Hk' : Z.testbit (Z.land mode (2 ^ k)) k = true).
    { rewrite Z.land_spec, Hbit, Z.pow2_bits_true; done. }
    rewrite Hz, Z.bits_0 in Hk'. done.
  - apply negb_false_iff, Z.eqb_eq, Z.bits_inj'. intros n Hn.
    rewrite Z.land_spec, Z.bits_0, Z.pow2_bits_eqb by done.
    destruct (Z.eqb_spec k n) as [->|_]; [by rewrite Hbit|apply andb_false_r].
Qed.

(** Every mask of the permission printers is one bit. *)
Ltac bits_of_masks :=
  change S_ISUID with (2 ^ 11)%Z; change S_ISGID with (2 ^ 10)%Z;
  change S_ISVTX with (2 ^ 9)%Z;
  change S_IRUSR with (2 ^ 8)%Z; change S_IWUSR with (2 ^ 7)%Z;
  change S_IXUSR with (2 ^ 6)%Z;
  change S_IRGRP with (2 ^ 5)%Z; change S_IWGRP with (2 ^ 4)%Z;
  change S_IXGRP with (2 ^ 3)%Z;
  change S_IROTH with (2 ^ 2)%Z; change S_IWOTH with (2 ^ 1)%Z;
  change S_IXOTH with (2 ^ 0)%Z;
  rewrite !has_bit_testbit by lia.

Lemma permissions_to_string_spec mode :
  FileUtils.permissions_to_string mode = permission_string mode.
Proof.
  unfold FileUtils.permissions_to_string, permission_string, type_character,
    rwx_triplet.
  bits_of_masks.
  destruct (Z.testbit mode 11), (Z.testbit mode 10), (Z.testbit mode 9),
    (Z.testbit mode 6), (Z.testbit mode 3), (Z.testbit mode 0); reflexivity.
Qed.

Lemma navigator_permissions_spec mode :
  FileNavigator.get_permissions_string mode = permission_string mode.
Proof.
  unfold FileNavigator.get_permissions_string, permission_string,
    type_character, rwx_triplet.
  bits_of_masks.
  destruct (Z.testbit mode 11), (Z.testbit mode 10), (Z.testbit mode 9),
    (Z.testbit mode 6), (Z.testbit mode 3), (Z.testbit mode 0); reflexivity.
Qed.

(** Without a special bit, and for a directory, a link or a regular
    file, the printer of [file_ops.c] agrees with the other two. *)
Lemma file_ops_permissions_plain mode :
  Z.testbit mode 11 = false → Z.testbit mode 10 = false →
  Z.testbit mode 9 = false →
  S_ISFIFO mode = false → S_ISSOCK mode = false →
  S_ISCHR mode = false → S_ISBLK mode = false →
  FileOps.get_permissions_string mode = permission_string mode.
Proof.
  intros Hu Hg Hv Hf Hs Hc Hb.
  unfold FileOps.get_permissions_string, permission_string, type_character,
    rwx_triplet.
  bits_of_masks. rewrite Hu, Hg, Hv, Hf, Hs, Hc, Hb.
  destruct (Z.testbit mode 6), (Z.testbit mode 3), (Z.testbit mode 0);
    reflexivity.
Qed.

(** C9 at a setuid file.  [permissions_to_string] and
    [FileNavigator::get_permissions_string] print the overlay that the
    specification asks for, at every mode; [get_permissions_string] of
    [file_ops.c], which [n8n_list_files] calls for its records, prints a
    plain [x] in its place. *)
Theorem get_permissions_string_drops_overlay :
  (∀ mode, FileUtils.permissions_to_string mode = permission_string mode)
  ∧ (∀ mode, FileNavigator.get_permissions_string mode = permission_string mode)
  ∧ permission_string setuid_mode = cs "-rwsr-xr-x"
  ∧ FileOps.get_permissions_string setuid_mode = cs "-rwxr-xr-x".
Proof.
  split; [exact permissions_to_string_spec|].
  split; [exact navigator_permissions_spec|].
  split; vm_compute; reflexivity.
Qed.

End Permissions.

(** ** The operating system *)

Section PosixFacts.
Import Posix.

Lemma same_files_trans w1 w2 w3 :
  same_files w1 w2 → same_files w2 w3 → same_files w1 w3.
Proof. intros [? ?] [? ?]. split; congruence. Qed.

Lemma locate_absolute w path : is_absolute path = true → locate w path = path.
Proof. intros H. unfold locate. by rewrite H. Qed.

Lemma lstat_Some path w ino :
  w_fs w !! locate w path = Some ino → lstat path w = (Some (stat_of ino), w).
Proof. intros H. unfold lstat. by rewrite H. Qed.

Lemma lstat_None path w :
  w_fs w !! locate w path = None → lstat path w = (None, set_errno ENOENT w).
Proof. intros H. unfold lstat. by rewrite H. Qed.

Lemma stat_mode_type ino :
  Z.land (st_mode (stat_of ino)) S_IFMT = kind_bits (i_kind ino).
Proof.
  unfold stat_of. cbn [st_mode].
  rewrite Z.land_lor_distr_l, <- Z.land_assoc.
  change (Z.land 0xFFF S_IFMT) with 0%Z.
  rewrite Z.land_0_r, Z.lor_0_r. by destruct (i_kind ino).
Qed.

Lemma S_ISDIR_stat ino : S_ISDIR (st_mode (stat_of ino)) = is_dir ino.
Proof.
  unfold S_ISDIR, is_dir. rewrite stat_mode_type. by destruct (i_kind ino).
Qed.

Lemma S_ISLNK_stat ino :
  S_ISLNK (st_mode (stat_of ino))
  = match i_kind ino with Symlink _ => true | _ => false end.
Proof.
  unfold S_ISLNK. rewrite stat_mode_type. by destruct (i_kind ino).
Qed.

Lemma follow_dir fs key ino :
  fs !! key = Some ino → is_dir ino = true → follow fs key = Ok (key, ino).
Proof.
  intros Hk Hd. unfold follow, SYMLOOP_MAX. cbn [follow_last].
  rewrite Hk. unfold is_dir in Hd.
  destruct (i_kind ino); [done| |done]. by rewrite Hk.
Qed.

Lemma child_name_Some dir k n :
  child_name dir k = Some n →
  k = (if bool_decide (dir = cs "/") then dir else dir ++ [SLASH]) ++ n
  ∧ n ≠ [] ∧ SLASH ∉ n.
Proof.
  unfold child_name.
  set (pre := if bool_decide (dir = cs "/") then dir else dir ++ [SLASH]).
  destruct (bool_decide_reflect (take (length pre) k = pre)) as [Hpre|]; [|done].
  destruct (bool_decide_reflect
              (drop (length pre) k ≠ [] ∧ SLASH ∉ drop (length pre) k))
    as [[Hne Hfree]|]; [|done].
  intros [= <-]. split; [|done].
  rewrite <- (take_drop (length pre) k) at 1. by rewrite Hpre.
Qed.

Lemma child_name_below dir n :
  n ≠ [] → SLASH ∉ n →
  child_name dir ((if bool_decide (dir = cs "/") then dir else dir ++ [SLASH]) ++ n)
  = Some n.
Proof.
  intros Hne Hfree. unfold child_name.
  set (pre := if bool_decide (dir = cs "/") then dir else dir ++ [SLASH]).
  rewrite take_app_length, drop_app_length.
  rewrite bool_decide_eq_true_2 by done.
  by rewrite bool_decide_eq_true_2.
Qed.

Lemma elem_of_entries fs dir n :
  n ∈ entries fs dir
  ↔ ∃ k, is_Some (fs !! k) ∧ child_name dir k = Some n.
Proof.
  unfold entries. rewrite list_elem_of_omap. split.
  - intros (k & Hk & Hn). exists k. split; [|done].
    apply list_elem_of_fmap in Hk as ([k' ino] & -> & Hin).
    apply elem_of_map_to_list in Hin. by exists ino.
  - intros (k & [ino Hk] & Hn). exists k. split; [|done].
    apply list_elem_of_fmap. exists (k, ino). split; [done|].
    by apply elem_of_map_to_list.
Qed.

End PosixFacts.

(** ** Listing a directory *)

Section Listing.
Import LibC Posix FileNavigator.

Lemma string_lt_irrefl a : string_lt a a = false.
Proof.
  induction a as [|x a IH]; [done|]. simpl.
  by rewrite Nat.ltb_irrefl.
Qed.

Lemma string_lt_trans a b c :
  string_lt a b = true → string_lt b c = true → string_lt a c = true.
Proof.
  revert b c. induction a as [|x a IH]; intros [|y b] [|z c]; simpl; try done.
  destruct (Nat.ltb_spec (nat_of_ascii x) (nat_of_ascii y)) as [Hxy|Hxy].
  - intros _.
    destruct (Nat.ltb_spec (nat_of_ascii y) (nat_of_ascii z)) as [Hyz|Hyz].
    + intros _. destruct (Nat.ltb_spec (nat_of_ascii x) (nat_of_ascii z)); [done|lia].
    + destruct (Nat.ltb_spec (nat_of_ascii z) (nat_of_ascii y)); [done|].
      intros _. destruct (Nat.ltb_spec (nat_of_ascii x) (nat_of_ascii z)); [done|lia].
  - destruct (Nat.ltb_spec (nat_of_ascii y) (nat_of_ascii x)); [done|].
    intros Hab.
    destruct (Nat.ltb_spec (nat_of_ascii y) (nat_of_ascii z)) as [Hyz|Hyz].
    + intros _. destruct (Nat.ltb_spec (nat_of_ascii x) (nat_of_ascii z)); [done|lia].
    + destruct (Nat.ltb_spec (nat_of_ascii z) (nat_of_ascii y)); [done|].
      intros Hbc.
      destruct (Nat.ltb_spec (nat_of_ascii x) (nat_of_ascii z)); [done|].
      destruct (Nat.ltb_spec (nat_of_ascii z) (nat_of_ascii x)); [lia|].
      by eapply IH.
Qed.

Lemma nat_of_ascii_inj x y : nat_of_ascii x = nat_of_ascii y → x = y.
Proof.
  intros H. rewrite <- (ascii_nat_embedding x), <- (ascii_nat_embedding y).
  by rewrite H.
Qed.

Lemma string_lt_total a b :
  string_lt a b = false → string_lt b a = false → a = b.
Proof.
  revert b. induction a as [|x a IH]; intros [|y b]; simpl; try done.
  destruct (Nat.ltb_spec (nat_of_ascii x) (nat_of_ascii y)); [done|].
  destruct (Nat.ltb_spec (nat_of_ascii y) (nat_of_ascii x)); [done|].
  intros Hab Hba. f_equal; [apply nat_of_ascii_inj; lia|by apply IH].
Qed.

(** The comparison of the sort is the strict part of [listing_order]. *)
Lemma item_before_rank a b :
  item_before a b = true
  ↔ class_rank (type a) < class_rank (type b)
    ∨ (class_rank (type a) = class_rank (type b)
       ∧ string_lt (name a) (name b) = true).
Proof.
  unfold item_before.
  destruct (type a), (type b); simpl; split; try done;
    try (intros _; lia); try (intros [?|[? ?]]; done || lia);
    try (intros ?; right; done).
Qed.

Lemma not_after_listing_order a b :
  not_after item_before a b ↔ listing_order a b.
Proof.
  unfold not_after, listing_order.
  rewrite <- not_true_iff_false, item_before_rank.
  destruct (string_lt (name b) (name a)); split.
  - intros H. left. lia.
  - intros [?|[? ?]] [?|[? ?]]; done || lia.
  - intros H.
    destruct (decide (class_rank (type a) = class_rank (type b)));
      [by right|left; lia].
  - intros [?|[? ?]] [?|[? ?]]; done || lia.
Qed.

Global Instance listing_order_trans : Transitive listing_order.
Proof.
  intros a b c [Hab|[Hab Hnab]] [Hbc|[Hbc Hnbc]]; unfold listing_order.
  - left. lia.
  - left. lia.
  - left. lia.
  - right. split; [lia|].
    apply not_true_is_false. intros Hca.
    destruct (string_lt (name a) (name b)) eqn:Hlt.
    + by rewrite (string_lt_trans _ _ _ Hca Hlt) in Hnbc.
    + rewrite (string_lt_total _ _ Hlt Hnab) in Hca. congruence.
Qed.

Global Instance not_after_item_before_trans :
  Transitive (not_after item_before).
Proof.
  intros a b c ?%not_after_listing_order ?%not_after_listing_order.
  apply not_after_listing_order. by etrans.
Qed.

Global Instance not_after_item_before_total : Total (not_after item_before).
Proof.
  intros a b. unfold not_after.
  destruct (item_before b a) eqn:Hba; [|by left]. right.
  apply not_true_is_false. intros Hab.
  apply item_before_rank in Hba as [?|[? Hba]];
    apply item_before_rank in Hab as [?|[? Hab]]; try lia.
  pose proof (string_lt_trans _ _ _ Hab Hba) as Hirr.
  by rewrite string_lt_irrefl in Hirr.
Qed.

Lemma StronglySorted_mono {A} (R1 R2 : relation A) l :
  (∀ a b, R1 a b → R2 a b) → StronglySorted R1 l → StronglySorted R2 l.
Proof.
  intros Himp. induction 1 as [|a l _ IH Hall]; constructor; [done|].
  eapply Forall_impl; [exact Hall|]. intros b. apply Himp.
Qed.

(** What [std::sort] guarantees for this comparison. *)
Lemma std_sort_listing items :
  StronglySorted listing_order (std_sort item_before items)
  ∧ std_sort item_before items ≡ₚ items.
Proof.
  split; [|apply merge_sort_Permutation].
  apply (StronglySorted_mono (not_after item_before)).
  - intros a b. apply not_after_listing_order.
  - apply (StronglySorted_merge_sort (not_after item_before)).
Qed.

Lemma item_path_child dir n :
  item_path dir n
  = (if bool_decide (dir = cs "/") then dir else dir ++ [SLASH]) ++ n.
Proof.
  unfold item_path. destruct (bool_decide (dir = cs "/")); [done|].
  by rewrite <- app_assoc.
Qed.

Lemma item_path_absolute dir n :
  is_absolute dir = true → is_absolute (item_path dir n) = true.
Proof.
  unfold is_absolute. rewrite !bool_decide_eq_true, item_path_child.
  destruct dir; [done|]. by destruct (bool_decide _).
Qed.

Lemma readlink_same_files p n w : same_files w (readlink p n w).2.
Proof.
  unfold readlink. destruct (w_fs w !! _) as [ino|]; [|done].
  by destruct (i_kind ino).
Qed.

(** One entry: the item carries the name, the path and the class of the
    node. *)
Lemma make_item_spec dir n ino w :
  ∃ item w', make_item dir n (stat_of ino) w = (item, w')
    ∧ same_files w w'
    ∧ name item = n ∧ path item = item_path dir n
    ∧ type item = type_of_kind (i_kind ino).
Proof.
  unfold make_item. rewrite S_ISLNK_stat, S_ISDIR_stat. unfold is_dir.
  destruct (i_kind ino) as [data| |target] eqn:Hkind.
  - eexists _, _. by repeat split.
  - eexists _, _. by repeat split.
  - pose proof (readlink_same_files (item_path dir n) (PATH_MAX - 1) w) as Hs.
    destruct (readlink _ _ w) as [[t|] w']; destruct Hs;
      eexists _, _; by repeat split.
Qed.

(** The [readdir] loop: an item for every entry other than [.] and [..]
    that [lstat] finds, in the order of the entries. *)
Lemma read_entries_spec dir entries items w :
  ∃ new w', read_entries dir entries items w = (items ++ new, w')
    ∧ same_files w w'
    ∧ name <$> new
      = filter (λ n, n ≠ cs "." ∧ n ≠ cs ".."
                     ∧ is_Some (w_fs w !! locate w (item_path dir n))) entries
    ∧ Forall (λ item, ∃ ino, w_fs w !! locate w (path item) = Some ino
                             ∧ type item = type_of_kind (i_kind ino)
                             ∧ path item = item_path dir (name item)) new.
Proof.
  revert items w.
  induction entries as [|n rest IH]; intros items w; cbn [read_entries].
  - exists [], w. by rewrite app_nil_r.
  - unfold strcmp_eq.
    destruct (bool_decide_reflect (n = cs ".")) as [Hd|Hd]; cbn [orb].
    { destruct (IH items w) as (new & w' & -> & ? & Hn & ?).
      exists new, w'. split_and!; try done.
      rewrite filter_cons_False; [done|]. by intros (? & _). }
    destruct (bool_decide_reflect (n = cs "..")) as [Hdd|Hdd].
    { destruct (IH items w) as (new & w' & -> & ? & Hn & ?).
      exists new, w'. split_and!; try done.
      rewrite filter_cons_False; [done|]. by intros (_ & ? & _). }
    destruct (w_fs w !! locate w (item_path dir n)) as [ino|] eqn:Hk.
    + rewrite (lstat_Some _ _ _ Hk).
      destruct (make_item_spec dir n ino w)
        as (item & w1 & -> & Hs1 & Hname & Hpath & Htype).
      destruct (IH (items ++ [item]) w1) as (new & w' & -> & Hs & Hn & Hall).
      exists (item :: new), w'. rewrite <- app_assoc.
      destruct Hs1 as [Hfs1 Henv1].
      split_and!; try done.
      * by eapply same_files_trans.
      * rewrite filter_cons_True by (rewrite Hk; done).
        rewrite fmap_cons, Hname, Hn. f_equal.
        unfold locate. by rewrite Hfs1, Henv1.
      * constructor.
        -- exists ino. by rewrite Hpath, Hname.
        -- eapply Forall_impl; [exact Hall|].
           intros it (ino' & ? & ?). exists ino'.
           unfold locate in *. by rewrite <- Hfs1, <- Henv1.
    + rewrite (lstat_None _ _ Hk).
      destruct (IH items (set_errno ENOENT w)) as (new & w' & -> & Hs & Hn & ?).
      exists new, w'. split_and!; try done.
      rewrite filter_cons_False; [done|].
      intros (_ & _ & [? ?]). congruence.
Qed.

Lemma filter_ext_in {A} (P Q : A → Prop)
    `{∀ x, Decision (P x)} `{∀ x, Decision (Q x)} (l : list A) :
  (∀ x, x ∈ l → P x ↔ Q x) → filter P l = filter Q l.
Proof.
  induction l as [|x l IH]; intros Hpq; [done|].
  rewrite !filter_cons.
  rewrite IH by (intros y Hy; apply Hpq; by right).
  destruct (decide (P x)) as [Hp|Hp], (decide (Q x)) as [Hq|Hq]; try done.
  - destruct Hq. apply Hpq; [left|done].
  - destruct Hp. apply Hpq; [left|done].
Qed.

(** C6.  For a directory named by its absolute path, the listing holds
    one item for every entry that [readdir] yields other than [.] and
    [..]; directories come first, then symbolic links, then files, and
    within a class the names are in the order of [std::string]; the class
    of an item is the kind of the node at its path. *)
Theorem get_directory_contents_sorted dir ino w :
  is_absolute dir = true →
  w_fs w !! dir = Some ino →
  is_dir ino = true →
  ∃ listing,
    (opendir dir w).1 = Some listing
    ∧ name <$> (get_directory_contents dir w).1
      ≡ₚ filter (λ n, n ≠ cs "." ∧ n ≠ cs "..") listing
    ∧ StronglySorted listing_order (get_directory_contents dir w).1
    ∧ Forall (λ item, ∃ ino', w_fs w !! path item = Some ino'
                              ∧ type item = type_of_kind (i_kind ino'))
        (get_directory_contents dir w).1.
Proof.
  intros Habs Hdir Hisdir.
  unfold get_directory_contents, opendir.
  rewrite (locate_absolute _ _ Habs), (follow_dir _ _ _ Hdir Hisdir), Hisdir.
  eexists. split; [done|]. cbn [fst].
  destruct (read_entries_spec dir (cs "." :: cs ".." :: entries (w_fs w) dir)
              [] w) as (new & w' & -> & _ & Hnames & Hall).
  cbn [fst app].
  destruct (std_sort_listing new) as [Hsorted Hperm].
  split; [|split; [done|]].
  - rewrite Hperm, Hnames. apply reflexive_eq, filter_ext_in.
    intros n Hn. split; [by intros (? & ? & _)|].
    intros (Hd & Hdd). repeat split; try done.
    apply elem_of_cons in Hn as [->|Hn]; [done|].
    apply elem_of_cons in Hn as [->|Hn]; [done|].
    apply elem_of_entries in Hn as (k & Hk & Hchild).
    apply child_name_Some in Hchild as (-> & _).
    rewrite locate_absolute, item_path_child; [done|].
    by apply item_path_absolute.
  - rewrite Forall_forall. intros item Hitem.
    rewrite Hperm in Hitem. rewrite Forall_forall in Hall.
    destruct (Hall item Hitem) as (ino' & Hk & Ht & Hpath).
    exists ino'. split; [|done].
    rewrite locate_absolute in Hk; [done|].
    rewrite Hpath. by apply item_path_absolute.
Qed.

Lemma get_directory_contents_sorted_witness :
  ∃ listing,
    (opendir (cs "/tmp/demo") demo_world).1 = Some listing
    ∧ name <$> (get_directory_contents (cs "/tmp/demo") demo_world).1
      ≡ₚ filter (λ n, n ≠ cs "." ∧ n ≠ cs "..") listing
    ∧ StronglySorted listing_order
        (get_directory_contents (cs "/tmp/demo") demo_world).1
    ∧ Forall (λ item, ∃ ino', w_fs demo_world !! path item = Some ino'
                              ∧ type item = type_of_kind (i_kind ino'))
        (get_directory_contents (cs "/tmp/demo") demo_world).1.
Proof.
  apply (get_directory_contents_sorted (cs "/tmp/demo")
           (node Directory 0x1ED) demo_world);
    vm_compute; reflexivity.
Defined.

(** The scenario of the specification, with a link besides: the
    directory first, then the link, then the files by name, the hidden
    one included. *)
Example get_directory_contents_demo :
  map (λ item, (name item, type item, size item))
    (get_directory_contents (cs "/tmp/demo") demo_world).1
  = [ (cs "sub", TypeDirectory, 0%Z);
      (cs "latest", TypeSymlink, 0%Z);
      (cs ".hidden", TypeFile, 5%Z);
      (cs "a.txt", TypeFile, 10%Z) ].
Proof. vm_compute. reflexivity. Qed.

End Listing.

(** ** [mkdir] *)

Section Mkdir.
Import LibC Posix FileNavigator.

Lemma mkdir_exists path mode w ino :
  w_fs w !! locate w path = Some ino →
  mkdir path mode w = (None, set_errno EEXIST w).
Proof. intros H. unfold mkdir. by rewrite H. Qed.

(** [mkdir] keeps the environment and every node that exists. *)
Lemma mkdir_keeps path mode w :
  w_env (mkdir path mode w).2 = w_env w
  ∧ ∀ k ino, w_fs w !! k = Some ino → w_fs (mkdir path mode w).2 !! k = Some ino.
Proof.
  unfold mkdir. destruct (w_fs w !! locate w path) as [ino'|] eqn:Hk; [done|].
  destruct (parent_dir _ _); [|done]. split; [done|].
  intros k ino Hin. cbn. rewrite lookup_insert_ne; [done|]. congruence.
Qed.

Lemma mkdir_prefixes_keeps p positions w :
  w_env (mkdir_prefixes p positions w).2 = w_env w
  ∧ ∀ k ino, w_fs w !! k = Some ino →
      w_fs (mkdir_prefixes p positions w).2 !! k = Some ino.
Proof.
  revert w. induction positions as [|pos rest IH]; intros w;
    cbn [mkdir_prefixes]; [done|].
  destruct (bool_decide (take pos p = [])); [apply IH|].
  destruct (mkdir_keeps (take pos p) MODE_755 w) as [Henv Hfs].
  destruct (mkdir (take pos p) MODE_755 w) as [[[]|] w1]; cbn [snd] in *.
  - destruct (IH w1) as [Henv' Hfs']. split; [congruence|].
    intros k ino Hk. by apply Hfs', Hfs.
  - destruct (bool_decide (w_errno w1 ≠ EEXIST)); [done|].
    destruct (IH w1) as [Henv' Hfs']. split; [congruence|].
    intros k ino Hk. by apply Hfs', Hfs.
Qed.

(** With [-p] too, a node that is already at the target makes the last
    [mkdir] fail. *)
Lemma mkdir_recursive_exists p w ino :
  w_fs w !! locate w p = Some ino →
  (mkdir_recursive p w).1 = None
  ∧ w_fs (mkdir_recursive p w).2 !! locate w p = Some ino.
Proof.
  intros Hk. unfold mkdir_recursive.
  destruct (mkdir_prefixes_keeps p (slash_positions p) w) as [Henv Hfs].
  destruct (mkdir_prefixes p (slash_positions p) w) as [[[]|] w1];
    cbn [fst snd] in *; [|split; [done|by apply Hfs]].
  assert (Hloc : locate w1 p = locate w p) by (unfold locate; by rewrite Henv).
  erewrite mkdir_exists by (rewrite Hloc; by apply Hfs).
  split; [done|]. by apply Hfs.
Qed.

(** C3, as the code has it.  Where a node of any kind is already at the
    target, [mkdir] without [-p] answers with the error of the system
    call, [File exists], and changes no file; and where that node is not
    a directory, [mkdir] answers with an error with or without [-p], the
    node staying as it is. *)
Theorem create_directory_existing nav w dir_name more ino :
  w_fs w !! locate w (get_absolute_path nav dir_name) = Some ino →
  (more !! 0 ≠ Some (cs "-p") →
   create_directory nav (dir_name :: more) w
   = (ReplyError (cs "Failed to create directory: File exists"),
      set_errno EEXIST w))
  ∧ (is_dir ino = false →
     ∃ message w',
       create_directory nav (dir_name :: more) w = (ReplyError message, w')
       ∧ w_fs w' !! locate w (get_absolute_path nav dir_name) = Some ino).
Proof.
  intros Hk. split.
  - intros Hp. cbn [create_directory].
    rewrite bool_decide_eq_false_2 by done.
    by rewrite (mkdir_exists _ _ _ _ Hk).
  - intros _. cbn [create_directory].
    destruct (bool_decide (more !! 0 = Some (cs "-p"))).
    + destruct (mkdir_recursive_exists _ _ _ Hk) as [Hnone Hfs].
      destruct (mkdir_recursive _ w) as [[[]|] w1]; [done|].
      by eexists _, _.
    + rewrite (mkdir_exists _ _ _ _ Hk). by eexists _, _.
Qed.

Lemma create_directory_existing_witness :
  (create_directory example_navigator [cs "/tmp/demo"] demo_world
   = (ReplyError (cs "Failed to create directory: File exists"),
      set_errno EEXIST demo_world))
  ∧ ∃ message w',
      create_directory example_navigator [cs "/tmp/demo/a.txt"; cs "-p"]
        demo_world = (ReplyError message, w')
      ∧ w_fs w' !! cs "/tmp/demo/a.txt"
        = Some (node (Regular (cs "0123456789")) 0x1A4).
Proof.
  split.
  - apply (create_directory_existing example_navigator demo_world
             (cs "/tmp/demo") [] (node Directory 0x1ED)).
    + vm_compute. reflexivity.
    + done.
  - apply (create_directory_existing example_navigator demo_world
             (cs "/tmp/demo/a.txt") [cs "-p"]
             (node (Regular (cs "0123456789")) 0x1A4)).
    + vm_compute. reflexivity.
    + reflexivity.
Defined.

(** C3 as stated fails: [mkdir] on the existing directory [/tmp/demo]
    answers with an error. *)
Lemma create_directory_counterexample :
  w_fs demo_world !! cs "/tmp/demo" = Some (node Directory 0x1ED)
  ∧ create_directory example_navigator [cs "/tmp/demo"] demo_world
    = (ReplyError (cs "Failed to create directory: File exists"),
       set_errno EEXIST demo_world).
Proof. split; vm_compute; reflexivity. Qed.

(** The same with [-p]: the loop accepts the prefixes that exist, the
    last [mkdir] does not. *)
Example create_directory_parents_existing :
  create_directory example_navigator [cs "/tmp/demo"; cs "-p"] demo_world
  = (ReplyError (cs "Failed to create directory: File exists"),
     set_errno EEXIST demo_world).
Proof. vm_compute. reflexivity. Qed.

(** A chain of missing directories is created by [-p]. *)
Example create_directory_parents_chain :
  (create_directory example_navigator [cs "/tmp/x/y/z"; cs "-p"] demo_world).1
  = ReplyCreated (cs "/tmp/x/y/z")
  ∧ is_dir <$> w_fs (create_directory example_navigator
                       [cs "/tmp/x/y/z"; cs "-p"] demo_world).2
               !! cs "/tmp/x/y" = Some true.
Proof. split; vm_compute; reflexivity. Qed.

End Mkdir.

(** ** Copying *)

Section Copy.
Import LibC Posix FileUtils.

Lemma successes_cons r rs :
  successes (r :: rs) = ((if success r then 1 else 0) + successes rs)%Z.
Proof.
  unfold successes. rewrite filter_cons.
  destruct (success r); simpl; cbn [length]; lia.
Qed.

Lemma failures_cons r rs :
  failures (r :: rs) = ((if success r then 0 else 1) + failures rs)%Z.
Proof.
  unfold failures. rewrite filter_cons.
  destruct (success r); simpl; cbn [length]; lia.
Qed.

Lemma attempts_length sources destinations options i n w :
  length (attempts sources destinations options i n w).1 = n.
Proof.
  revert i w. induction n as [|n IH]; intros i w; [done|]. cbn [attempts].
  destruct (n8n_copy_file _ _ options w) as [r w1].
  specialize (IH (S i) w1).
  destruct (attempts sources destinations options (S i) n w1) as [rs w2].
  simpl in *. by rewrite IH.
Qed.

Lemma successes_failures rs :
  (successes rs + failures rs)%Z = Z.of_nat (length rs).
Proof.
  induction rs as [|r rs IH]; [done|].
  rewrite successes_cons, failures_cons. cbn [length].
  destruct (success r); lia.
Qed.

(** The loop makes every attempt and counts each answer once. *)
Lemma batch_loop_attempts sources destinations options i n results s f w :
  batch_loop sources destinations options i n results s f w
  = (results
     ++ map (λ r, if success r then 1 else 0)%Z
          (attempts sources destinations options i n w).1,
     (s + successes (attempts sources destinations options i n w).1)%Z,
     (f + failures (attempts sources destinations options i n w).1)%Z,
     (attempts sources destinations options i n w).2).
Proof.
  revert i results s f w.
  induction n as [|n IH]; intros i results s f w.
  - cbn. rewrite app_nil_r. unfold successes, failures. cbn.
    by rewrite !Z.add_0_r.
  - cbn [batch_loop attempts].
    destruct (n8n_copy_file _ _ options w) as [r w1].
    destruct (success r) eqn:Hr; rewrite IH;
      destruct (attempts sources destinations options (S i) n w1) as [rs w2];
      cbn [fst snd map]; rewrite successes_cons, failures_cons, Hr,
        <- app_assoc; cbn [app]; repeat first [done | lia | f_equal].
Qed.

(** C5.  For [count] pairs, [n8n_batch_copy] calls [n8n_copy_file] on
    every pair in order, the later ones in the world that the earlier
    ones leave, whatever these answered; its array holds the [count]
    flags of the answers and its message the two counts, whose sum is
    [count]. *)
Theorem n8n_batch_copy_counts sources destinations count options w :
  (0 ≤ count)%Z →
  let outcomes :=
    (attempts sources destinations options 0 (Z.to_nat count) w).1 in
  Z.of_nat (length outcomes) = count
  ∧ (successes outcomes + failures outcomes)%Z = count
  ∧ (n8n_batch_copy sources destinations count options w).2
    = (attempts sources destinations options 0 (Z.to_nat count) w).2
  ∧ data (n8n_batch_copy sources destinations count options w).1
    = map (λ r, if success r then 1 else 0)%Z outcomes
  ∧ message (n8n_batch_copy sources destinations count options w).1
    = snprintf_message
        (cs "Batch copy completed: " ++ cs (pretty (successes outcomes))
         ++ cs " succeeded, " ++ cs (pretty (failures outcomes))
         ++ cs " failed").
Proof.
  intros Hcount outcomes.
  assert (Hlen : Z.of_nat (length outcomes) = count).
  { unfold outcomes. rewrite attempts_length. lia. }
  split; [done|]. split; [by rewrite successes_failures|].
  unfold n8n_batch_copy.
  destruct (Z.ltb_spec count 0); [lia|].
  rewrite batch_loop_attempts. cbn [fst snd data message app].
  by rewrite !Z.add_0_l.
Qed.

(** The scenario of the specification: five pairs, the source of the
    third missing. *)
Lemma n8n_batch_copy_counts_witness :
  (let outcomes := (attempts batch_sources batch_destinations plain_copy 0
                      (Z.to_nat 5) batch_world).1 in
   Z.of_nat (length outcomes) = 5%Z
   ∧ (successes outcomes + failures outcomes)%Z = 5%Z
   ∧ (n8n_batch_copy batch_sources batch_destinations 5 plain_copy
        batch_world).2
     = (attempts batch_sources batch_destinations plain_copy 0 (Z.to_nat 5)
          batch_world).2
   ∧ data (n8n_batch_copy batch_sources batch_destinations 5 plain_copy
             batch_world).1
     = map (λ r, if success r then 1 else 0)%Z outcomes
   ∧ message (n8n_batch_copy batch_sources batch_destinations 5 plain_copy
                batch_world).1
     = snprintf_message
         (cs "Batch copy completed: " ++ cs (pretty (successes outcomes))
          ++ cs " succeeded, " ++ cs (pretty (failures outcomes))
          ++ cs " failed"))
  ∧ data (n8n_batch_copy batch_sources batch_destinations 5 plain_copy
            batch_world).1 = [1; 1; 0; 1; 1]%Z
  ∧ message (n8n_batch_copy batch_sources batch_destinations 5 plain_copy
               batch_world).1
    = cs "Batch copy completed: 4 succeeded, 1 failed"
  ∧ i_kind <$> w_fs (n8n_batch_copy batch_sources batch_destinations 5
                       plain_copy batch_world).2 !! cs "/out/4"
    = Some (Regular (cs "four"))
  ∧ i_kind <$> w_fs (n8n_batch_copy batch_sources batch_destinations 5
                       plain_copy batch_world).2 !! cs "/out/5"
    = Some (Regular (cs "five"))
  ∧ w_fs (n8n_batch_copy batch_sources batch_destinations 5 plain_copy
            batch_world).2 !! cs "/out/3" = None.
Proof.
  split.
  - apply (n8n_batch_copy_counts batch_sources batch_destinations 5
             plain_copy batch_world). lia.
  - repeat split; vm_compute; reflexivity.
Defined.

Lemma access_absent path w :
  w_fs w !! locate w path = None →
  access path w = (None, set_errno ENOENT w).
Proof.
  intros Hk. unfold access, follow, SYMLOOP_MAX. cbn [follow_last].
  by rewrite Hk, Hk.
Qed.

Lemma readlink_link path n w ino target :
  w_fs w !! locate w path = Some ino →
  i_kind ino = Symlink target →
  readlink path n w = (Some (take n target), w).
Proof. intros Hk Hkind. unfold readlink. by rewrite Hk, Hkind. Qed.

Lemma symlink_fresh target linkpath w pk :
  w_fs w !! locate w linkpath = None →
  parent_dir (w_fs w) (locate w linkpath) = Ok pk →
  symlink target linkpath w
  = (Some (),
     set_fs (<[locate w linkpath := fresh_inode w (Symlink target) 0x1FF]>
               (w_fs w)) w).
Proof. intros Hk Hp. unfold symlink. by rewrite Hk, Hp. Qed.

(** [n8n_copy_file] on a symbolic link: the link is read with
    [readlink] and made again with [symlink]; no file is opened. *)
Lemma n8n_copy_file_symlink source destination options w ino target pk :
  w_fs w !! locate w source = Some ino →
  i_kind ino = Symlink target →
  length target ≤ PATH_MAX - 1 →
  createDestDir options = false →
  w_fs w !! locate w destination = None →
  parent_dir (w_fs w) (locate w destination) = Ok pk →
  (n8n_copy_file source destination options w).1
  = answer true (cs "Symbolic link copied successfully") 0
  ∧ w_fs (n8n_copy_file source destination options w).2
    = <[locate w destination := fresh_inode w (Symlink target) 0x1FF]> (w_fs w).
Proof.
  intros Hsrc Hkind Hlen Hnodir Hdst Hparent. unfold n8n_copy_file.
  rewrite (lstat_Some _ _ _ Hsrc), S_ISLNK_stat, Hkind, Hnodir.
  destruct (overwrite options).
  - rewrite (readlink_link _ _ _ _ _ Hsrc Hkind), take_ge by done.
    by rewrite (symlink_fresh _ _ _ _ Hdst Hparent).
  - rewrite (access_absent _ _ Hdst).
    rewrite (readlink_link _ _ (set_errno ENOENT w) ino target),
      take_ge by done.
    by rewrite (symlink_fresh _ _ (set_errno ENOENT w) pk).
Qed.

(** C2 at a link to a file.  [latest] is a symbolic link to [a.txt].
    [n8n_copy_file] makes a link with the same target at the
    destination; [FileNavigator::copy_item] opens the link, which the
    system follows, and writes the ten bytes of [a.txt] into a regular
    file. *)
Theorem copy_item_follows_symlink :
  i_kind <$> w_fs demo_world !! cs "/tmp/demo/latest"
  = Some (Symlink (cs "a.txt"))
  ∧ (n8n_copy_file (cs "/tmp/demo/latest") (cs "/tmp/demo/copy") plain_copy
       demo_world).1
    = answer true (cs "Symbolic link copied successfully") 0
  ∧ i_kind <$> w_fs (n8n_copy_file (cs "/tmp/demo/latest")
                       (cs "/tmp/demo/copy") plain_copy demo_world).2
               !! cs "/tmp/demo/copy"
    = Some (Symlink (cs "a.txt"))
  ∧ fst <$> FileNavigator.copy_item 1 example_navigator
              [cs "/tmp/demo/latest"; cs "/tmp/demo/copy"] demo_world
    = Some (FileNavigator.ReplyCopied (cs "/tmp/demo/latest")
              (cs "/tmp/demo/copy"))
  ∧ (λ r, i_kind <$> w_fs r.2 !! cs "/tmp/demo/copy")
    <$> FileNavigator.copy_item 1 example_navigator
          [cs "/tmp/demo/latest"; cs "/tmp/demo/copy"] demo_world
    = Some (Some (Regular (cs "0123456789"))).
Proof. repeat split; vm_compute; reflexivity. Qed.

End Copy.

(** ** The exit code *)

Section ExitCode.
Import Posix FileNavigator Main.

Lemma execute_command_unknown h command args w :
  command ∉ command_words →
  execute_command h command args w
  = Returned (ReplyError (cs "Unknown command: " ++ command), w).
Proof.
  intros Hnot. unfold execute_command.
  repeat (rewrite bool_decide_eq_false_2;
          [|intros ->; apply Hnot;
            match goal with |- ?P => apply (bool_decide_unpack P) end;
            vm_compute; exact I]).
  done.
Qed.

(** C8, as the code has it.  The exit code is 1 when no command word is
    given and when an exception leaves the dispatch; it is 0 in every
    other run that ends: for the words that [main] answers itself, and
    whenever [execute_command] returns, whatever object it returns.  An
    unknown command word makes [execute_command] return an error object,
    as a failure of the file system does, so the exit code is 0 then. *)
Theorem main_exit_code loaded h w :
  (∀ argv, length argv < 2 → main loaded h argv w = Some (Run 1 None))
  ∧ (∀ prog command args,
       special_flag command = true →
       ∃ out, main loaded h (prog :: command :: args) w = Some (Run 0 out))
  ∧ (∀ prog command args,
       special_flag command = false →
       match execute_command h command args w with
       | Returned (result, _) =>
           main loaded h (prog :: command :: args) w
           = Some (Run 0 (Some result))
       | Thrown what =>
           ∃ message,
             main loaded h (prog :: command :: args) w
             = Some (Run 1 (Some (ReplyError message)))
       | Unfinished => main loaded h (prog :: command :: args) w = None
       end)
  ∧ (∀ prog command args,
       special_flag command = false →
       command ∉ command_words →
       main loaded h (prog :: command :: args) w
       = Some (Run 0 (Some (ReplyError (cs "Unknown command: " ++ command))))).
Proof.
  split_and!.
  - intros [|prog [|command args]] Hlen; [done|done|]. simpl in Hlen. lia.
  - intros prog command args Hflag. unfold special_flag in Hflag.
    cbn [main].
    destruct (is_flag command ["--help"; "-h"; "help"]); [by eexists|].
    destruct (is_flag command ["--version"; "-v"]); [by eexists|].
    destruct (is_flag command ["--lib-status"]); [by eexists|done].
  - intros prog command args Hflag. unfold special_flag in Hflag.
    apply orb_false_iff in Hflag as [Hflag Hlib].
    apply orb_false_iff in Hflag as [Hhelp Hversion].
    cbn [main]. rewrite Hhelp, Hversion, Hlib.
    destruct (execute_command h command args w) as [[result w']|[what|]|];
      [done|by eexists|by eexists|done].
  - intros prog command args Hflag Hnot. unfold special_flag in Hflag.
    apply orb_false_iff in Hflag as [Hflag Hlib].
    apply orb_false_iff in Hflag as [Hhelp Hversion].
    cbn [main]. rewrite Hhelp, Hversion, Hlib.
    by rewrite execute_command_unknown.
Qed.

(** A failure of the file system, [mkdir] on a directory that exists,
    is an error object with exit code 0. *)
Lemma main_exit_code_witness :
  main false example_handlers [cs "navigator"; cs "mkdir"; cs "/tmp/demo"]
    demo_world
  = Some (Run 0 (Some (ReplyError
                         (cs "Failed to create directory: File exists")))).
Proof.
  pose proof (main_exit_code false example_handlers demo_world)
    as (_ & _ & Hreturned & _).
  exact (Hreturned (cs "navigator") (cs "mkdir") [cs "/tmp/demo"] eq_refl).
Defined.

(** C8 as stated fails: [frobnicate] is no command word, and the run
    ends with exit code 0 and an error object; and the run without a
    command word ends with exit code 1 although no exception occurs and
    no command word is unknown. *)
Lemma main_unknown_command_counterexample :
  (cs "frobnicate" ∉ command_words)
  ∧ special_flag (cs "frobnicate") = false
  ∧ main false example_handlers [cs "navigator"; cs "frobnicate"] demo_world
    = Some (Run 0 (Some (ReplyError (cs "Unknown command: frobnicate"))))
  ∧ main false example_handlers [cs "navigator"] demo_world
    = Some (Run 1 None).
Proof.
  split; [|split_and!; vm_compute; reflexivity].
  apply (bool_decide_eq_false_1 (cs "frobnicate" ∈ command_words)).
  vm_compute. reflexivity.
Qed.

(** The runs that end with exit code 1. *)
Example main_no_command :
  main false example_handlers [cs "navigator"] demo_world = Some (Run 1 None).
Proof. reflexivity. Qed.

End ExitCode.

(** ** Names and trees *)

Section Paths.
Import LibC Posix.

Lemma under_length dir k : under dir k → length dir < length k.
Proof.
  intros Hu%prefix_length. rewrite length_app in Hu. simpl in Hu. lia.
Qed.

Lemma under_trans a b c : under a b → under b c → under a c.
Proof.
  unfold under. intros Hab Hbc. etrans; [exact Hab|].
  etrans; [|exact Hbc]. by apply prefix_app_r.
Qed.

Lemma in_tree_trans a b c : in_tree a b → in_tree b c → in_tree a c.
Proof.
  intros [->|Hab] [->|Hbc]; [by left|by right|by right|].
  right. by eapply under_trans.
Qed.

Lemma in_tree_under a b c : in_tree a b → under b c → under a c.
Proof. intros [->|Hab] Hbc; [done|by eapply under_trans]. Qed.

Lemma under_child dir n : under dir (dir ++ cs "/" ++ n).
Proof. unfold under. rewrite (app_assoc dir). by apply prefix_app_r. Qed.

Lemma in_tree_not_parent dir n : ¬ in_tree (dir ++ cs "/" ++ n) dir.
Proof.
  intros [Heq|Hu%under_length].
  - apply (f_equal length) in Heq. rewrite !length_app in Heq. simpl in Heq. lia.
  - rewrite !length_app in Hu. simpl in Hu. lia.
Qed.

Lemma under_split a q n :
  under a (q ++ [SLASH] ++ n) → SLASH ∉ n → in_tree a q.
Proof.
  intros [r Hr] Hn.
  rewrite <- !app_assoc in Hr.
  apply app_eq_inv in Hr as [(k & -> & Hk)|(k & -> & Hk)].
  - (* [q] is [a ++ k] *)
    destruct k as [|c k].
    + left. by rewrite app_nil_r.
    + simpl in Hk. injection Hk as <- Hk. right.
      unfold under. by apply prefix_app, prefix_cons, prefix_nil.
  - (* [a] is [q ++ k] *)
    destruct k as [|c k].
    + left. by rewrite app_nil_r.
    + simpl in Hk. injection Hk as <- Hk. destruct Hn.
      rewrite Hk. apply elem_of_app. right. left.
Qed.

Lemma join_with_split_on d s : join_with d (split_on d s) = s.
Proof.
  induction s as [|c s IH]; [done|]. cbn [split_on].
  pose proof (split_on_not_nil d s) as Hne.
  destruct (decide (c = d)) as [->|_].
  - destruct (split_on d s) as [|seg segs]; [done|]. simpl in *. by rewrite IH.
  - destruct (split_on d s) as [|seg segs]; [done|]. simpl in *. by rewrite IH.
Qed.

Lemma split_on_app_delim d a b :
  split_on d (a ++ d :: b) = split_on d a ++ split_on d b.
Proof.
  induction a as [|c a IH]; simpl.
  - by rewrite decide_True.
  - rewrite IH. pose proof (split_on_not_nil d a) as Hne.
    destruct (decide (c = d)); [done|].
    by destruct (split_on d a).
Qed.

Lemma split_path_child q n :
  SLASH ∉ n → split_path (q ++ [SLASH] ++ n) = (q, n).
Proof.
  intros Hn. unfold split_path. cbn [app].
  rewrite split_on_app_delim, (split_on_free_id SLASH n Hn).
  rewrite removelast_last, last_last. by rewrite join_with_split_on.
Qed.

Lemma under_decompose dir k :
  under dir k → ∃ q n, k = q ++ [SLASH] ++ n ∧ SLASH ∉ n.
Proof.
  intros [r ->].
  assert (Hin : SLASH ∈ (dir ++ [SLASH]) ++ r).
  { apply elem_of_app. left. apply elem_of_app. right. left. }
  apply list_elem_of_split_r in Hin as (q & n & Heq & Hn).
  exists q, n. by rewrite Heq.
Qed.

Lemma postorder_app A B :
  postorder A → postorder B →
  (∀ a b, a ∈ A → b ∈ B → ¬ under a b) →
  postorder (A ++ B).
Proof.
  intros HA HB HAB l1 k l2 Heq k' Hk'.
  apply app_eq_inv in Heq as [(m & -> & Hm)|(m & -> & Hm)].
  - (* [k] is in [B] *)
    destruct m as [|x m].
    + simpl in Hm. subst B. by eapply (HB []).
    + injection Hm as <- ->.
      apply elem_of_app in Hk' as [Hk'|Hk'].
      * by eapply (HA l1 k m).
      * apply HAB; [|done]. apply elem_of_app. right. left.
  - (* [k] is in [B], after [m] *)
    eapply (HB m k l2); [by rewrite Hm|done].
Qed.

Lemma postorder_singleton k : postorder [k].
Proof.
  intros l1 k0 l2 Heq k' Hk'.
  destruct l1 as [|x l1]; [|by destruct l1].
  injection Heq as <- <-. by apply elem_of_nil in Hk'.
Qed.

End Paths.

(** ** Removing a tree *)

Section Trees.
Import LibC Posix FileNavigator.
Implicit Types (fs : gmap cstr inode) (dir k c : cstr).

Lemma lookup_prune_in dir fs k : in_tree dir k → prune dir fs !! k = None.
Proof.
  intros Hin. apply map_lookup_filter_None. right. intros ino _ Hout.
  by apply Hout.
Qed.

Lemma lookup_prune_out dir fs k : ¬ in_tree dir k → prune dir fs !! k = fs !! k.
Proof.
  intros Hout. destruct (fs !! k) as [ino|] eqn:Hk.
  - by apply map_lookup_filter_Some.
  - apply map_lookup_filter_None. by left.
Qed.

Lemma lookup_prune_Some dir fs k ino :
  prune dir fs !! k = Some ino ↔ fs !! k = Some ino ∧ ¬ in_tree dir k.
Proof. apply map_lookup_filter_Some. Qed.

Lemma under_snoc q n : under q (q ++ [SLASH] ++ n).
Proof. apply (under_child q n). Qed.

(** Every node below [dir] has a name in a directory of the tree. *)
Lemma tree_shaped_parent fs dir k :
  tree_shaped fs dir → is_Some (fs !! k) → under dir k →
  ∃ q n, k = q ++ [SLASH] ++ n ∧ (SLASH ∉ n) ∧ n ≠ [] ∧ n ≠ cs "." ∧ n ≠ cs ".."
         ∧ in_tree dir q ∧ is_dir <$> fs !! q = Some true.
Proof.
  intros Ht [ino Hk] Hu. specialize (Ht k ino Hk Hu).
  destruct (under_decompose _ _ Hu) as (q & n & -> & Hn).
  unfold well_placed in Ht. rewrite split_path_child in Ht by done.
  cbn [fst snd] in Ht. exists q, n. by destruct Ht as (? & ? & ? & ? & ?).
Qed.

Lemma fmap_is_dir_Some fs k b :
  is_dir <$> fs !! k = Some b → ∃ ino, fs !! k = Some ino ∧ is_dir ino = b.
Proof. destruct (fs !! k) as [ino|]; [|done]. intros [= <-]. by exists ino. Qed.

(** What has a node below it is a directory. *)
Lemma ancestor_is_dir fs dir k a :
  tree_shaped fs dir → is_Some (fs !! k) → in_tree dir a → under a k →
  is_dir <$> fs !! a = Some true.
Proof.
  intros Ht. remember (length k) as m eqn:Hm. revert k Hm.
  induction m as [m IH] using lt_wf_ind. intros k -> Hk Ha Hu.
  destruct (tree_shaped_parent fs dir k Ht Hk (in_tree_under _ _ _ Ha Hu))
    as (q & n & -> & Hn & _ & _ & _ & Hq & Hdir).
  destruct (under_split _ _ _ Hu Hn) as [->|Haq]; [done|].
  apply (IH (length q)) with (k := q); try done.
  - rewrite !length_app. simpl. lia.
  - destruct (fmap_is_dir_Some _ _ _ Hdir) as (ino & -> & _). by eexists.
Qed.

Lemma elem_of_entries_child fs dir n :
  dir ≠ cs "/" →
  n ∈ entries fs dir
  ↔ is_Some (fs !! (dir ++ cs "/" ++ n)) ∧ n ≠ [] ∧ SLASH ∉ n.
Proof.
  intros Hroot. rewrite elem_of_entries. split.
  - intros (k & Hk & Hchild). apply child_name_Some in Hchild as (-> & ? & ?).
    rewrite bool_decide_eq_false_2 in Hk by done.
    by rewrite <- app_assoc in Hk.
  - intros (Hk & Hne & Hfree). exists (dir ++ cs "/" ++ n). split; [done|].
    pose proof (child_name_below dir n Hne Hfree) as Hc.
    rewrite bool_decide_eq_false_2 in Hc by done.
    by rewrite <- app_assoc in Hc.
Qed.

(** Every node below [dir] is in the tree of an entry of [dir]. *)
Lemma tree_entry fs dir k :
  dir ≠ cs "/" → tree_shaped fs dir → is_Some (fs !! k) → under dir k →
  ∃ n, n ∈ entries fs dir ∧ in_tree (dir ++ cs "/" ++ n) k
       ∧ n ≠ cs "." ∧ n ≠ cs "..".
Proof.
  intros Hroot Ht. remember (length k) as m eqn:Hm. revert k Hm.
  induction m as [m IH] using lt_wf_ind. intros k -> Hk Hu.
  destruct (tree_shaped_parent fs dir k Ht Hk Hu)
    as (q & n & -> & Hn & Hne & Hd & Hdd & Hq & Hdir).
  destruct Hq as [->|Hq].
  - exists n. split_and!; try done; [|by left].
    by apply elem_of_entries_child.
  - destruct (IH (length q)) with (k := q) as (n' & ? & Hin & ? & ?);
      try done.
    + rewrite !length_app. simpl. lia.
    + destruct (fmap_is_dir_Some _ _ _ Hdir) as (ino & -> & _). by eexists.
    + exists n'. split_and!; try done. right.
      eapply in_tree_under; [exact Hin|]. apply under_snoc.
Qed.

Lemma entry_not_dot fs dir n :
  dir ≠ cs "/" → tree_shaped fs dir → n ∈ entries fs dir →
  n ≠ cs "." ∧ n ≠ cs "..".
Proof.
  intros Hroot Ht (Hk & Hne & Hfree)%elem_of_entries_child; [|done].
  destruct (tree_shaped_parent fs dir _ Ht Hk (under_child dir n))
    as (q & n' & Heq & Hn' & _ & Hd & Hdd & _).
  assert (Hsp : split_path (dir ++ cs "/" ++ n) = (dir, n))
    by (by apply (split_path_child dir n)).
  rewrite Heq, split_path_child in Hsp by done. by injection Hsp as -> ->.
Qed.

Lemma tree_shaped_sub fs dir c :
  tree_shaped fs dir → in_tree dir c → tree_shaped fs c.
Proof.
  intros Ht Hc k ino Hk Hu.
  specialize (Ht k ino Hk (in_tree_under _ _ _ Hc Hu)).
  destruct (under_decompose _ _ Hu) as (q & n & -> & Hn).
  unfold well_placed in *. rewrite split_path_child in * by done.
  cbn [fst snd] in *. destruct Ht as (? & ? & ? & _ & ?).
  split_and!; try done. by eapply under_split.
Qed.

Lemma tree_shaped_prune fs dir c :
  tree_shaped fs dir → tree_shaped (prune c fs) dir.
Proof.
  intros Ht k ino [Hk Hout]%lookup_prune_Some Hu.
  specialize (Ht k ino Hk Hu).
  destruct (under_decompose _ _ Hu) as (q & n & -> & Hn).
  unfold well_placed in *. rewrite split_path_child in * by done.
  cbn [fst snd] in *. destruct Ht as (? & ? & ? & ? & Hdir).
  split_and!; try done. rewrite lookup_prune_out; [done|].
  intros Hq. apply Hout. right. eapply in_tree_under; [exact Hq|].
  apply under_snoc.
Qed.

Lemma prune_prune fs dir c :
  in_tree dir c → prune dir (prune c fs) = prune dir fs.
Proof.
  intros Hc. apply map_eq. intros k.
  destruct (decide (in_tree dir k)) as [Hin|Hout].
  - by rewrite !lookup_prune_in.
  - rewrite (lookup_prune_out dir fs k Hout).
    rewrite (lookup_prune_out dir (prune c fs) k Hout).
    apply lookup_prune_out.
    intros Hck. apply Hout. by eapply in_tree_trans.
Qed.

(** A directory without entries has nothing below it. *)
Lemma delete_prune_empty fs dir :
  dir ≠ cs "/" → tree_shaped fs dir → entries fs dir = [] →
  delete dir fs = prune dir fs.
Proof.
  intros Hroot Ht Hnone. apply map_eq. intros k.
  destruct (decide (k = dir)) as [->|Hne].
  - rewrite lookup_delete_eq, lookup_prune_in; [done|by left].
  - rewrite lookup_delete_ne by done.
    destruct (decide (under dir k)) as [Hu|Hu].
    + rewrite lookup_prune_in by (by right).
      destruct (fs !! k) as [ino|] eqn:Hk; [|done].
      destruct (tree_entry fs dir k Hroot Ht) as (n & Hn & _); [by eexists|done|].
      rewrite Hnone in Hn. by apply elem_of_nil in Hn.
    + rewrite lookup_prune_out; [done|]. by intros [?|?].
Qed.

(** What is no directory has nothing below it. *)
Lemma nothing_under_file fs c k ino :
  tree_shaped fs c → fs !! c = Some ino → is_dir ino = false →
  under c k → fs !! k = None.
Proof.
  intros Ht Hc Hfile Hu. destruct (fs !! k) as [ino'|] eqn:Hk; [|done].
  assert (Hd : is_dir <$> fs !! c = Some true).
  { eapply (ancestor_is_dir fs c k c); [done|by eexists|by left|done]. }
  rewrite Hc in Hd. simpl in Hd. congruence.
Qed.

Lemma delete_prune_file fs c ino :
  tree_shaped fs c → fs !! c = Some ino → is_dir ino = false →
  delete c fs = prune c fs.
Proof.
  intros Ht Hc Hfile. apply map_eq. intros k.
  destruct (decide (k = c)) as [->|Hne].
  - rewrite lookup_delete_eq, lookup_prune_in; [done|by left].
  - rewrite lookup_delete_ne by done.
    destruct (decide (under c k)) as [Hu|Hu].
    + rewrite lookup_prune_in by (by right).
      by rewrite (nothing_under_file fs c k ino).
    + rewrite lookup_prune_out; [done|]. by intros [?|?].
Qed.

End Trees.

Section Delete.
Import LibC Posix FileNavigator.
Implicit Types (fs : gmap cstr inode) (dir k c : cstr).

Lemma child_absolute dir n :
  is_absolute dir = true → is_absolute (dir ++ cs "/" ++ n) = true.
Proof.
  unfold is_absolute. rewrite !bool_decide_eq_true. by destruct dir.
Qed.

Lemma child_not_root dir n : dir ++ cs "/" ++ n ≠ cs "/" ∨ dir = [].
Proof.
  destruct dir as [|x dir]; [by right|left].
  intros H. apply (f_equal length) in H. rewrite !length_app in H.
  simpl in H. lia.
Qed.

Lemma opendir_dir dir w :
  is_absolute dir = true →
  is_dir <$> w_fs w !! dir = Some true →
  opendir dir w = (Some (cs "." :: cs ".." :: entries (w_fs w) dir), w).
Proof.
  intros Habs (ino & Hk & Hd)%fmap_is_dir_Some. unfold opendir.
  by rewrite (locate_absolute _ _ Habs), (follow_dir _ _ _ Hk Hd), Hd.
Qed.

Lemma rmdir_empty dir w :
  is_absolute dir = true →
  is_dir <$> w_fs w !! dir = Some true →
  entries (w_fs w) dir = [] →
  rmdir dir w = (Some (), remove dir w).
Proof.
  intros Habs (ino & Hk & Hd)%fmap_is_dir_Some Hnone. unfold rmdir.
  by rewrite (locate_absolute _ _ Habs), Hk, Hd, Hnone.
Qed.

Lemma rmdir_not_empty dir w :
  is_absolute dir = true →
  is_dir <$> w_fs w !! dir = Some true →
  entries (w_fs w) dir ≠ [] →
  rmdir dir w = (None, set_errno ENOTEMPTY w).
Proof.
  intros Habs (ino & Hk & Hd)%fmap_is_dir_Some Hsome. unfold rmdir.
  rewrite (locate_absolute _ _ Habs), Hk, Hd.
  by destruct (entries (w_fs w) dir).
Qed.

Lemma unlink_file c w ino :
  is_absolute c = true → w_fs w !! c = Some ino → is_dir ino = false →
  unlink c w = (Some (), remove c w).
Proof.
  intros Habs Hk Hd. unfold unlink.
  by rewrite (locate_absolute _ _ Habs), Hk, Hd.
Qed.

(** The tree of an entry has gone, then the rest of the tree. *)
Lemma removed_tree_step dir c w w1 w' logc log' :
  in_tree dir c →
  removed_tree c w w1 logc → removed_tree dir w1 w' log' →
  removed_tree dir w w' (logc ++ log').
Proof.
  intros Hc (Hfs1 & Henv1 & Hj1 & Hin1 & Hnd1 & Hpo1)
    (Hfs & Henv & Hj & Hin & Hnd & Hpo).
  assert (Hsep : ∀ k, k ∈ log' → ¬ in_tree c k).
  { intros k [_ [ino Hk]]%Hin. rewrite Hfs1 in Hk.
    by apply lookup_prune_Some in Hk as [_ ?]. }
  split_and!.
  - by rewrite Hfs, Hfs1, prune_prune.
  - congruence.
  - by rewrite Hj, Hj1, app_assoc.
  - intros k. rewrite elem_of_app, Hin1, Hin, Hfs1. split.
    + intros [[Hck Hk]|[Hdk [ino Hk]]].
      * split; [by eapply in_tree_trans|done].
      * apply lookup_prune_Some in Hk as [Hk _]. split; [done|by eexists].
    + intros [Hdk Hk]. destruct (decide (in_tree c k)) as [Hck|Hck].
      * by left.
      * right. split; [done|]. by rewrite lookup_prune_out.
  - apply NoDup_app. split_and!; try done.
    intros k [Hck _]%Hin1 Hk'. by apply (Hsep k).
  - apply postorder_app; try done.
    intros a b [Hca _]%Hin1 Hb Hab. apply (Hsep b Hb).
    right. by eapply in_tree_under.
Qed.

Lemma removed_tree_file c w ino :
  tree_shaped (w_fs w) c → w_fs w !! c = Some ino → is_dir ino = false →
  removed_tree c w (remove c w) [c].
Proof.
  intros Ht Hk Hd. split_and!; try done.
  - by apply (delete_prune_file _ _ ino).
  - intros k. rewrite list_elem_of_singleton. split.
    + intros ->. split; [by left|by eexists].
    + intros [[->|Hu] [ino' Hk']]; [done|].
      by rewrite (nothing_under_file _ c k ino) in Hk'.
  - apply NoDup_singleton.
  - apply postorder_singleton.
Qed.

Lemma removed_tree_empty dir w :
  dir ≠ cs "/" → tree_shaped (w_fs w) dir →
  is_Some (w_fs w !! dir) → entries (w_fs w) dir = [] →
  removed_tree dir w (remove dir w) [dir].
Proof.
  intros Hroot Ht Hk Hnone. split_and!; try done.
  - by apply delete_prune_empty.
  - intros k. rewrite list_elem_of_singleton. split.
    + intros ->. split; [by left|done].
    + intros [[->|Hu] Hk']; [done|].
      destruct (tree_entry _ dir k Hroot Ht Hk' Hu) as (n & Hn & _).
      rewrite Hnone in Hn. by apply elem_of_nil in Hn.
  - apply NoDup_singleton.
  - apply postorder_singleton.
Qed.

Lemma child_length dir n : length (dir ++ cs "/" ++ n) = length dir + 1 + length n.
Proof. rewrite !length_app. simpl. lia. Qed.

(** The loop over the entries, then [rmdir]. *)
Lemma delete_entries_spec fuel recurse dir :
  removes_trees fuel recurse →
  is_absolute dir = true → dir ≠ cs "/" →
  ∀ names w,
    is_dir <$> w_fs w !! dir = Some true →
    tree_shaped (w_fs w) dir →
    map_Forall (λ k _, length k < length dir + S fuel) (w_fs w) →
    (∀ n, n ∈ entries (w_fs w) dir → n ∈ names) →
    Forall (λ n, n = cs "." ∨ n = cs ".." ∨ (n ≠ [] ∧ SLASH ∉ n)) names →
    ∃ w' log,
      delete_entries recurse dir names w = Some (true, w')
      ∧ removed_tree dir w w' log.
Proof.
  intros Hrec Habs Hroot names.
  induction names as [|n names IH]; intros w Hdir Ht Hlen Hcover Hnames;
    cbn [delete_entries].
  - assert (Hnone : entries (w_fs w) dir = []).
    { destruct (entries (w_fs w) dir) as [|n ns]; [done|].
      specialize (Hcover n (list_elem_of_here _ _)). by apply elem_of_nil in Hcover. }
    rewrite (rmdir_empty _ _ Habs Hdir Hnone). eexists _, _. split; [done|].
    apply removed_tree_empty; try done.
    destruct (fmap_is_dir_Some _ _ _ Hdir) as (ino & -> & _). by eexists.
  - inversion Hnames as [|? ? Hn Hnames']; subst.
    assert (Hcover' : (n = cs "." ∨ n = cs ".."
                       ∨ w_fs w !! (dir ++ cs "/" ++ n) = None) →
                      ∀ m, m ∈ entries (w_fs w) dir → m ∈ names).
    { intros Hskip m Hm.
      destruct (entry_not_dot _ _ _ Hroot Ht Hm) as [Hd Hdd].
      specialize (Hcover m Hm).
      apply elem_of_cons in Hcover as [->|?]; [|done].
      destruct Hskip as [?|[?|Hnone]]; [done|done|].
      apply elem_of_entries_child in Hm as ([ino Hm] & _); [|done].
      congruence. }
    unfold strcmp_eq.
    destruct (bool_decide_reflect (n = cs ".")) as [Hd|Hd]; cbn [orb].
    { apply IH; try done. apply Hcover'. by left. }
    destruct (bool_decide_reflect (n = cs "..")) as [Hdd|Hdd].
    { apply IH; try done. apply Hcover'. by right; left. }
    destruct Hn as [?|[?|[Hne Hfree]]]; [done|done|].
    set (c := dir ++ cs "/" ++ n).
    assert (Hcabs : is_absolute c = true) by (by apply child_absolute).
    assert (Hcin : in_tree dir c) by (right; apply under_child).
    destruct (w_fs w !! c) as [ino|] eqn:Hc.
    + rewrite (lstat_Some c w ino) by (by rewrite locate_absolute).
      rewrite S_ISDIR_stat.
      assert (Hnext : ∀ w1 logc,
                removed_tree c w w1 logc →
                ∃ w' log,
                  delete_entries recurse dir names w1 = Some (true, w')
                  ∧ removed_tree dir w w' log).
      { intros w1 logc Hrem.
        pose proof Hrem as (Hfs1 & Henv1 & _).
        destruct (IH w1) as (w' & log' & -> & Hrem'); try done.
        - rewrite Hfs1, lookup_prune_out; [done|].
          apply in_tree_not_parent.
        - rewrite Hfs1. by apply tree_shaped_prune.
        - rewrite Hfs1. intros k ino' [Hk _]%lookup_prune_Some.
          by apply (Hlen k ino').
        - intros m Hm. rewrite Hfs1 in Hm.
          apply elem_of_entries_child in Hm as ([ino' Hm] & Hmne & Hmfree);
            [|done].
          apply lookup_prune_Some in Hm as [Hm Hout].
          assert (Hin : m ∈ entries (w_fs w) dir).
          { apply elem_of_entries_child; [done|]. split; [by eexists|done]. }
          specialize (Hcover m Hin).
          apply elem_of_cons in Hcover as [->|?]; [|done].
          destruct Hout. by left.
        - eexists _, _. split; [done|]. by eapply removed_tree_step. }
      destruct (is_dir ino) eqn:Hisdir.
      * destruct (Hrec c w) as (w1 & logc & -> & Hrem); try done.
        -- unfold c. destruct (child_not_root dir n) as [?| ->]; [done|].
           cbv in Habs. discriminate.
        -- by rewrite Hc; cbn; rewrite Hisdir.
        -- by eapply tree_shaped_sub.
        -- intros k ino' Hk. specialize (Hlen k ino' Hk). cbn in Hlen.
           unfold c. rewrite child_length. lia.
        -- by apply (Hnext w1 logc).
      * rewrite (unlink_file c w ino) by done.
        apply (Hnext (remove c w) [c]).
        apply (removed_tree_file c w ino); try done.
        by eapply tree_shaped_sub.
    + rewrite (lstat_None c w) by (by rewrite locate_absolute).
      destruct (IH (set_errno ENOENT w)) as (w' & log & -> & Hrem); try done.
      * apply Hcover'. by right; right.
      * by eexists _, _.
Qed.

(** With fuel for the depth of the tree, the recursion ends, the tree
    has gone and nothing else has. *)
Lemma delete_directory_recursive_spec fuel :
  removes_trees fuel (delete_directory_recursive fuel).
Proof.
  induction fuel as [|fuel IH]; intros c w Habs Hroot Hdir Ht Hlen.
  - destruct (fmap_is_dir_Some _ _ _ Hdir) as (ino & Hk & _).
    specialize (Hlen c ino Hk). cbn in Hlen. lia.
  - cbn [delete_directory_recursive].
    rewrite (opendir_dir _ _ Habs Hdir).
    apply (delete_entries_spec fuel); try done.
    + intros n Hn. by right; right.
    + constructor; [by left|]. constructor; [by right; left|].
      apply Forall_forall. intros n Hn.
      apply elem_of_entries_child in Hn as (_ & ? & ?); [|done].
      by right; right.
Qed.

Lemma get_absolute_path_absolute nav p :
  is_absolute p = true → get_absolute_path nav p = p.
Proof.
  unfold is_absolute, get_absolute_path. intros Habs.
  rewrite Habs. apply bool_decide_eq_true in Habs.
  rewrite bool_decide_eq_false_2; [done|]. by intros ->.
Qed.

(** C4.  [dir] is a directory that is not empty, named by its absolute
    path, and what is below it forms a tree that [fuel] reaches to the
    bottom of.  Without [-r], [delete] answers with the error of [rmdir],
    [Directory not empty], and every node stays as it is.  With [-r] it
    answers with success; the files left are those outside the tree of
    [dir], and every node of the tree has been removed once, what is
    below a directory before the directory. *)
Theorem delete_item_tree fuel nav w dir :
  is_absolute dir = true → dir ≠ cs "/" →
  is_dir <$> w_fs w !! dir = Some true →
  entries (w_fs w) dir ≠ [] →
  tree_shaped (w_fs w) dir →
  map_Forall (λ k _, length k < length dir + fuel) (w_fs w) →
  delete_item fuel nav [dir] w
  = Some (ReplyError (cs "Failed to delete item: Directory not empty"),
          set_errno ENOTEMPTY w)
  ∧ ∃ w' log,
      delete_item fuel nav [dir; cs "-r"] w = Some (ReplyDeleted dir, w')
      ∧ removed_tree dir w w' log.
Proof.
  intros Habs Hroot Hdir Hsome Ht Hlen.
  destruct (fmap_is_dir_Some _ _ _ Hdir) as (ino & Hk & Hd).
  unfold delete_item. rewrite (get_absolute_path_absolute _ _ Habs).
  rewrite (lstat_Some dir w ino) by (by rewrite locate_absolute).
  rewrite S_ISDIR_stat, Hd. split.
  - by rewrite (rmdir_not_empty _ _ Habs Hdir Hsome).
  - destruct (delete_directory_recursive_spec fuel dir w)
      as (w' & log & Hrun & Hrem); try done.
    exists w', log. split; [|done].
    by rewrite bool_decide_eq_true_2, Hrun.
Qed.

End Delete.

Section DeleteExamples.
Import LibC Posix FileNavigator.

Lemma delete_item_tree_witness :
  delete_item 16 example_navigator [cs "/tmp/demo"] demo_world
  = Some (ReplyError (cs "Failed to delete item: Directory not empty"),
          set_errno ENOTEMPTY demo_world)
  ∧ ∃ w' log,
      delete_item 16 example_navigator [cs "/tmp/demo"; cs "-r"] demo_world
      = Some (ReplyDeleted (cs "/tmp/demo"), w')
      ∧ removed_tree (cs "/tmp/demo") demo_world w' log.
Proof.
  apply (delete_item_tree 16 example_navigator demo_world (cs "/tmp/demo")).
  - vm_compute. reflexivity.
  - discriminate.
  - vm_compute. reflexivity.
  - vm_compute. discriminate.
  - match goal with |- ?P => apply (bool_decide_unpack P) end.
    vm_compute. exact I.
  - match goal with |- ?P => apply (bool_decide_unpack P) end.
    vm_compute. exact I.
Defined.

(** The run on the directory of the scenario: what is removed, in
    order, and what is left. *)
Example delete_item_demo :
  (λ r, (r.1, w_journal r.2, (map_to_list (w_fs r.2)).*1))
  <$> delete_item 16 example_navigator [cs "/tmp/demo"; cs "-r"] demo_world
  = Some (ReplyDeleted (cs "/tmp/demo"),
          [ cs "/tmp/demo/a.txt"; cs "/tmp/demo/latest"; cs "/tmp/demo/.hidden";
            cs "/tmp/demo/sub/b.txt"; cs "/tmp/demo/sub"; cs "/tmp/demo" ],
          [ cs "/tmp"; cs "/" ]).
Proof. vm_compute. reflexivity. Qed.

End DeleteExamples.

(** ** File names and extensions *)

Section Extensions.
Import LibC FileUtils.

Lemma strrchr_last l1 c l2 :
  c ∉ l2 → strrchr (l1 ++ c :: l2) c = Some (length l1).
Proof.
  intros Hc. unfold strrchr.
  assert (Hf : list_find (λ x, x = c) (reverse (l1 ++ c :: l2))
               = Some (length l2, c)).
  { apply list_find_Some. rewrite reverse_app, reverse_cons, <- app_assoc.
    split_and!; [|done|].
    - apply list_lookup_middle. by rewrite length_reverse.
    - intros j y Hj Hlt ->. apply Hc, elem_of_reverse.
      rewrite lookup_app_l in Hj by (by rewrite length_reverse).
      by eapply list_elem_of_lookup_2. }
  rewrite Hf. f_equal. rewrite length_app. simpl. lia.
Qed.

Lemma strrchr_None s c : c ∉ s → strrchr s c = None.
Proof.
  intros Hc. unfold strrchr.
  destruct (list_find _ _) as [[i x]|] eqn:Hf; [|done].
  apply list_find_Some in Hf as (Hi & -> & _).
  destruct Hc. apply elem_of_reverse. by eapply list_elem_of_lookup_2.
Qed.

(** The three ways a string stands to its last occurrence of [c]. *)
Lemma strrchr_cases s c :
  ((c ∉ s) ∧ strrchr s c = None)
  ∨ ∃ l1 l2, s = l1 ++ c :: l2 ∧ (c ∉ l2) ∧ strrchr s c = Some (length l1).
Proof.
  destruct (decide (c ∈ s)) as [Hin|Hout].
  - right. apply list_elem_of_split_r in Hin as (l1 & l2 & -> & Hc).
    exists l1, l2. split_and!; [done|done|by apply strrchr_last].
  - left. split; [done|by apply strrchr_None].
Qed.

(** X10.  The extension that [get_file_extension] returns holds no dot,
    and with the name that [get_filename_without_extension] returns it
    makes up the file name again: name, dot, extension.  When the file
    name has no dot beyond its first character, the extension is empty
    and the name is the whole file name. *)
Theorem filename_extension_round_trip filename size :
  length filename < size →
  ("."%char ∉ get_file_extension filename)
  ∧ (filename
     = get_filename_without_extension filename size
       ++ "."%char :: get_file_extension filename
     ∨ (get_file_extension filename = []
        ∧ get_filename_without_extension filename size = filename
        ∧ ("."%char ∉ drop 1 filename))).
Proof.
  intros Hsize. unfold get_file_extension, get_filename_without_extension, strncpy.
  destruct (strrchr_cases filename ".") as [[Hno ->]|(l1 & l2 & -> & Hl2 & ->)].
  - split; [by intros ?%elem_of_nil|]. right. split_and!; [done| |].
    + apply take_ge. lia.
    + intros Hin. apply Hno. destruct filename; [done|]. by right.
  - rewrite length_app in Hsize. simpl in Hsize.
    destruct l1 as [|x l1]; simpl.
    + split; [by intros ?%elem_of_nil|]. right. split_and!; [done| |done].
      apply take_ge. simpl. lia.
    + replace (drop (length l1 + 1) (l1 ++ "."%char :: l2)) with l2.
      2:{ replace (length l1 + 1) with (length (l1 ++ ["."%char])).
          - by rewrite (cons_middle _ l1 l2), app_assoc, drop_app_length.
          - rewrite length_app. simpl. lia. }
      split; [done|]. left.
      destruct (size <=? S (length l1)) eqn:Hle;
        [apply Nat.leb_le in Hle; simpl in Hsize; lia|].
      cbn [take app]. by rewrite take_app_length.
Qed.

Lemma filename_extension_round_trip_witness :
  get_filename_without_extension (cs "archive.tar.gz") 32 = cs "archive.tar"
  ∧ get_file_extension (cs "archive.tar.gz") = cs "gz"
  ∧ ("."%char ∉ get_file_extension (cs "archive.tar.gz")).
Proof.
  split; [reflexivity|]. split; [reflexivity|].
  apply (filename_extension_round_trip (cs "archive.tar.gz") 32). simpl. lia.
Defined.

End Extensions.

(** ** [join_paths] *)

Section JoinPaths.
Import LibC FileUtils.

Lemma length_without_trailing_slash p :
  length (without_trailing_slash p) ≤ length p.
Proof.
  unfold without_trailing_slash. case_bool_decide; [|done].
  rewrite length_take. lia.
Qed.

Lemma length_without_leading_slash p :
  length (without_leading_slash p) ≤ length p.
Proof.
  unfold without_leading_slash. case_bool_decide; [|done].
  rewrite length_drop. lia.
Qed.

Lemma length_joined a b : length (joined a b) ≤ length a + length b + 1.
Proof.
  unfold joined. repeat case_bool_decide; try lia.
  rewrite length_app. simpl.
  pose proof (length_without_trailing_slash a).
  pose proof (length_without_leading_slash b). lia.
Qed.

Lemma join_paths_joined a b size :
  length a ≤ PATH_MAX →
  length a + length b + 1 < size →
  join_paths a b size = joined a b.
Proof.
  intros Ha Hsize. unfold PATH_MAX in Ha.
  unfold join_paths, joined, strncpy, snprintf.
  case_bool_decide as Hae; [apply take_ge; lia|].
  case_bool_decide as Hbe; [apply take_ge; lia|].
  cbv zeta.
  assert (Hlast : a !! (length a - 1) = last a)
    by (rewrite last_lookup; f_equal; lia).
  rewrite Hlast.
  unfold without_trailing_slash, without_leading_slash.
  destruct (bool_decide (last a = Some SLASH)) eqn:Hl;
    destruct (bool_decide (head b = Some SLASH)) eqn:Hh; simpl.
  - rewrite take_take, Nat.min_l by lia.
    apply bool_decide_eq_true in Hh. destruct b as [|c b]; [done|].
    injection Hh as ->. simpl. rewrite drop_0. apply take_ge.
    rewrite length_app, length_take. simpl in *. lia.
  - rewrite take_ge by (rewrite length_app; lia).
    apply bool_decide_eq_true in Hl.
    rewrite <- (take_drop (length a - 1) a) at 1.
    rewrite <- app_assoc. f_equal.
    rewrite <- Hlast in Hl.
    rewrite (drop_S _ _ _ Hl).
    replace (S (length a - 1)) with (length a) by (destruct a; [done|simpl; lia]).
    by rewrite drop_all.
  - apply bool_decide_eq_true in Hh. destruct b as [|c b]; [done|].
    injection Hh as ->. simpl. rewrite drop_0. apply take_ge.
    rewrite length_app. simpl in *. lia.
  - apply take_ge. rewrite length_app. simpl. lia.
Qed.

(** X8.  [join_paths] of two paths that are not empty, with room in
    [result]: the first path without a final slash, one slash, and the
    second path without a leading slash. *)
Theorem join_paths_one_separator path1 path2 size :
  path1 ≠ [] → path2 ≠ [] →
  length path1 ≤ PATH_MAX →
  length path1 + length path2 + 1 < size →
  join_paths path1 path2 size
  = without_trailing_slash path1 ++ SLASH :: without_leading_slash path2.
Proof.
  intros H1 H2 Hlen Hsize. rewrite join_paths_joined by done.
  unfold joined. by rewrite !bool_decide_eq_false_2.
Qed.

Lemma without_trailing_slash_app x y :
  y ≠ [] →
  without_trailing_slash (x ++ y) = x ++ without_trailing_slash y.
Proof.
  intros Hy. unfold without_trailing_slash.
  rewrite last_app. destruct (last y) as [c|] eqn:Hl.
  - case_bool_decide; [|done]. rewrite length_app.
    replace (length x + length y - 1) with (length x + (length y - 1))
      by (destruct y; [done|simpl; lia]).
    by rewrite take_app_add.
  - by apply last_None in Hl.
Qed.

Lemma without_trailing_slash_snoc x :
  without_trailing_slash (x ++ [SLASH]) = x.
Proof.
  unfold without_trailing_slash. rewrite last_snoc, bool_decide_eq_true_2 by done.
  rewrite length_app. simpl. replace (length x + 1 - 1) with (length x) by lia.
  by rewrite take_app_length.
Qed.

Lemma without_leading_slash_app x y :
  x ≠ [] →
  without_leading_slash (x ++ y) = without_leading_slash x ++ y.
Proof.
  intros Hx. destruct x as [|c x]; [done|]. unfold without_leading_slash.
  simpl. by case_bool_decide.
Qed.

Lemma without_leading_slash_empty b :
  b ≠ [] → without_leading_slash b = [] ↔ b = [SLASH].
Proof.
  intros Hb. destruct b as [|c b]; [done|]. unfold without_leading_slash. simpl.
  case_bool_decide as Hc; simpl.
  - injection Hc as ->. rewrite drop_0. split; [by intros ->|by intros [= ->]].
  - split; [done|]. intros [= -> ->]. done.
Qed.

Lemma without_trailing_slash_empty b :
  b ≠ [] → without_trailing_slash b = [] ↔ b = [SLASH].
Proof.
  intros Hb. split; [|by intros ->].
  destruct (exists_last Hb) as (b' & c & ->). unfold without_trailing_slash.
  rewrite last_snoc. case_bool_decide as Hc.
  - injection Hc as ->. rewrite length_app. simpl.
    replace (length b' + 1 - 1) with (length b') by lia.
    rewrite take_app_length. by intros ->.
  - by destruct b'.
Qed.

Lemma without_slashes_comm b :
  b ≠ [] → b ≠ [SLASH] →
  without_trailing_slash (without_leading_slash b)
  = without_leading_slash (without_trailing_slash b).
Proof.
  intros Hb Hs. destruct b as [|c b]; [done|].
  destruct (decide (b = [])) as [->|Hne].
  - destruct (decide (c = SLASH)) as [->|Hc]; [done|].
    unfold without_leading_slash. simpl.
    rewrite !bool_decide_eq_false_2 by congruence.
    unfold without_trailing_slash. simpl.
    rewrite !bool_decide_eq_false_2 by congruence. simpl.
    by rewrite bool_decide_eq_false_2 by congruence.
  - assert (Hcb : without_trailing_slash (c :: b)
                  = c :: without_trailing_slash b)
      by apply (without_trailing_slash_app [c] b Hne).
    rewrite Hcb. unfold without_leading_slash. simpl.
    case_bool_decide; simpl; [by rewrite !drop_0|done].
Qed.

Lemma joined_not_empty a b : a ≠ [] → joined a b ≠ [].
Proof.
  intros Ha. unfold joined. rewrite bool_decide_eq_false_2 by done.
  case_bool_decide; [done|]. by destruct (without_trailing_slash a).
Qed.

Lemma joined_not_empty_r a b : b ≠ [] → joined a b ≠ [].
Proof.
  intros Hb. unfold joined. case_bool_decide; [done|].
  rewrite bool_decide_eq_false_2 by done. by destruct (without_trailing_slash a).
Qed.

Lemma joined_assoc a b c : joined (joined a b) c = joined a (joined b c).
Proof.
  destruct (decide (a = [])) as [->|Ha]; [done|].
  destruct (decide (b = [])) as [->|Hb].
  { unfold joined at 2 4. by rewrite (bool_decide_eq_false_2 (a = [])). }
  destruct (decide (c = [])) as [->|Hc].
  { unfold joined at 1 4. rewrite (bool_decide_eq_false_2 (b = [])) by done.
    rewrite bool_decide_eq_false_2 by (by apply joined_not_empty). done. }
  unfold joined at 1. rewrite bool_decide_eq_false_2 by (by apply joined_not_empty).
  rewrite (bool_decide_eq_false_2 (c = [])) by done.
  unfold joined at 2. rewrite (bool_decide_eq_false_2 (a = [])) by done.
  rewrite bool_decide_eq_false_2 by (by apply joined_not_empty).
  unfold joined. rewrite !bool_decide_eq_false_2 by done.
  destruct (decide (b = [SLASH])) as [->|Hs].
  - change (without_leading_slash [SLASH]) with (@nil ascii).
    change (without_trailing_slash [SLASH]) with (@nil ascii).
    rewrite (without_trailing_slash_snoc (without_trailing_slash a)).
    simpl. unfold without_leading_slash at 2. simpl. by rewrite drop_0.
  - assert (without_leading_slash b ≠ []) by (by rewrite without_leading_slash_empty).
    assert (without_trailing_slash b ≠ []) by (by rewrite without_trailing_slash_empty).
    rewrite (cons_middle SLASH (without_trailing_slash a)), app_assoc.
    rewrite without_trailing_slash_app by done.
    rewrite without_leading_slash_app by done.
    rewrite without_slashes_comm by done.
    by rewrite <- !app_assoc.
Qed.

(** X9.  With room in [result], joining three paths gives the same
    whichever two are joined first, empty paths included. *)
Theorem join_paths_assoc a b c size :
  length a + length b + 1 ≤ PATH_MAX →
  length a + length b + length c + 2 < size →
  join_paths (join_paths a b size) c size
  = join_paths a (join_paths b c size) size.
Proof.
  intros Hmax Hsize.
  pose proof (length_joined a b). pose proof (length_joined b c).
  rewrite (join_paths_joined a b), (join_paths_joined b c) by lia.
  rewrite !join_paths_joined by lia.
  apply joined_assoc.
Qed.

Lemma join_paths_one_separator_witness :
  join_paths (cs "/var/data/") (cs "/in/a.txt") 64 = cs "/var/data/in/a.txt".
Proof.
  rewrite (join_paths_one_separator (cs "/var/data/") (cs "/in/a.txt") 64);
    [reflexivity|done|done|unfold PATH_MAX; simpl; lia|simpl; lia].
Defined.

Lemma join_paths_assoc_witness :
  join_paths (join_paths (cs "/srv/") (cs "/") 64) (cs "/x") 64
  = join_paths (cs "/srv/") (join_paths (cs "/") (cs "/x") 64) 64.
Proof.
  apply join_paths_assoc; [unfold PATH_MAX; simpl; lia|simpl; lia].
Defined.

End JoinPaths.

(** ** More on [normalize_path] *)

Section NormalizeMore.
Import LibC FileUtils.

(** X1.  A relative path of at most 256 components, none of them empty,
    [.] or [..] and none holding a backslash, that fits the internal
    buffer, is what [normalize_path] returns for it: with C10, these
    paths and ["."] are the only results. *)
Theorem normalize_path_fixed_point path size :
  PATH_MAX ≤ size →
  length path < PATH_MAX →
  length (split_on SLASH path) ≤ 256 →
  Forall proper_component (split_on SLASH path) →
  normalize_path path size = path.
Proof.
  intros Hsize Hlen Hcount Hp.
  rewrite normalize_path_join by done.
  rewrite <- (join_with_split_on SLASH path) at 1.
  rewrite resolved_components_join; [| done | done |].
  - rewrite <- (join_with_split_on SLASH path) at 2.
    pose proof (split_on_not_nil SLASH path).
    by destruct (split_on SLASH path).
  - unfold weight. rewrite split_on_weight. lia.
Qed.

Lemma normalize_path_fixed_point_witness :
  normalize_path (cs "srv/data/report.txt") PATH_MAX = cs "srv/data/report.txt".
Proof.
  apply normalize_path_fixed_point.
  - done.
  - unfold PATH_MAX. simpl. lia.
  - vm_compute. lia.
  - vm_compute split_on. unfold proper_component.
    repeat (constructor; [split_and!; [done| | |done|done];
      match goal with |- ?P => apply (bool_decide_unpack P) end; vm_compute; exact I|]).
    constructor.
Defined.

Lemma collect_components_full tokens components :
  256 ≤ length components → collect_components tokens components = components.
Proof.
  intros Hfull. destruct tokens as [|token rest]; [done|]. cbn [collect_components].
  destruct (length components <? 256) eqn:Hlt; [|done].
  apply Nat.ltb_lt in Hlt. lia.
Qed.

Lemma collect_components_app t1 t2 components :
  collect_components (t1 ++ t2) components
  = collect_components t2 (collect_components t1 components).
Proof.
  revert components. induction t1 as [|token rest IH]; intros components; [done|].
  cbn [collect_components app].
  destruct (length components <? 256) eqn:Hlt.
  - destruct (strcmp_eq token (cs "..")); [apply IH|].
    destruct (negb (strcmp_eq token (cs ".")) && (0 <? length token)); apply IH.
  - apply Nat.ltb_ge in Hlt. by rewrite collect_components_full.
Qed.

Lemma strtok_all_app_delim d a b :
  strtok_all d (a ++ d :: b) = strtok_all d a ++ strtok_all d b.
Proof. unfold strtok_all. by rewrite split_on_app_delim, filter_app. Qed.

Lemma strtok_all_component d x : x ≠ [] → d ∉ x → strtok_all d x = [x].
Proof.
  intros Hne Hd. unfold strtok_all. rewrite split_on_free_id by done.
  by rewrite filter_cons_True.
Qed.

Lemma unify_separators_app a b :
  unify_separators (a ++ b) = unify_separators a ++ unify_separators b.
Proof. unfold unify_separators. apply map_app. Qed.

(** X2.  A component followed by [..] cancels: appending ["/name/.."]
    to a path does not change what [normalize_path] returns, as long as
    the path fits the buffer and fewer than 255 components are held when
    the two tokens are read. *)
Theorem normalize_path_parent path component size :
  PATH_MAX ≤ size →
  proper_component component →
  length path + length component + 4 < PATH_MAX →
  length (resolved_components path) < 255 →
  normalize_path (path ++ cs "/" ++ component ++ cs "/..") size
  = normalize_path path size.
Proof.
  intros Hsize (Hne & Hs & Hb & Hdot & Hdots) Hlen Hcount.
  rewrite !normalize_path_join by done.
  assert (Hrc : resolved_components (path ++ cs "/" ++ component ++ cs "/..")
                = resolved_components path); [|by rewrite Hrc].
  revert Hcount. unfold resolved_components, strncpy.
  unfold PATH_MAX in Hlen |- *.
  rewrite !take_ge by (rewrite ?length_app; simpl; lia).
  rewrite !unify_separators_app, (unify_separators_id component) by done.
  change (unify_separators (cs "/")) with [SLASH].
  change (unify_separators (cs "/..")) with (SLASH :: cs "..").
  cbn [app].
  rewrite strtok_all_app_delim, strtok_all_app_delim.
  rewrite (strtok_all_component SLASH component) by done.
  rewrite collect_components_app.
  set (C := collect_components _ []). intros Hcount.
  change (strtok_all SLASH (cs "..")) with [cs ".."].
  cbn [app collect_components].
  assert (Hlt : (length C <? 256) = true) by (apply Nat.ltb_lt; lia).
  rewrite Hlt. unfold strcmp_eq.
  rewrite (bool_decide_eq_false_2 (component = cs "..")) by done.
  rewrite (bool_decide_eq_false_2 (component = cs ".")) by done.
  assert (Hpos : (0 <? length component) = true)
    by (apply Nat.ltb_lt; destruct component; [done|simpl; lia]).
  rewrite Hpos. cbn [negb andb].
  rewrite length_app. cbn [length].
  assert (Hlt' : (length C + 1 <? 256) = true) by (apply Nat.ltb_lt; lia).
  rewrite Hlt'. rewrite (bool_decide_eq_true_2 (cs ".." = cs "..")) by done.
  assert (Hpos' : (0 <? length C + 1) = true) by (apply Nat.ltb_lt; lia).
  rewrite Hpos'. replace (length C + 1 - 1) with (length C) by lia.
  by rewrite take_app_length.
Qed.

Lemma normalize_path_parent_witness :
  normalize_path (cs "/srv/data" ++ cs "/" ++ cs "tmp" ++ cs "/..") PATH_MAX
  = normalize_path (cs "/srv/data") PATH_MAX.
Proof.
  apply normalize_path_parent.
  - done.
  - split_and!; [done| | |done|done];
      match goal with |- ?P => apply (bool_decide_unpack P) end; vm_compute; exact I.
  - unfold PATH_MAX. simpl. lia.
  - vm_compute. lia.
Defined.

(** X5.  A name that [is_safe_filename] accepts and that holds no
    backslash is a path that [normalize_path] returns unchanged. *)
Theorem is_safe_filename_normalized filename size :
  PATH_MAX ≤ size →
  is_safe_filename filename = 1%Z →
  BACKSLASH ∉ filename →
  normalize_path filename size = filename.
Proof.
  intros Hsize Hsafe Hb. unfold is_safe_filename, strcmp_eq in Hsafe.
  case_bool_decide as Hne; [done|].
  destruct (bool_decide (filename = cs ".")) eqn:Hdot; [done|].
  destruct (bool_decide (filename = cs "..")) eqn:Hdots; [done|].
  apply bool_decide_eq_false in Hdot, Hdots. cbn [orb] in Hsafe.
  destruct (existsb _ filename) eqn:Hex; [done|].
  destruct (NAME_MAX <? length filename) eqn:Hlen; [done|].
  apply Nat.ltb_ge in Hlen. unfold NAME_MAX in Hlen.
  assert (Hs : SLASH ∉ filename).
  { intros Hin. apply not_true_iff_false in Hex. apply Hex.
    apply existsb_exists. exists SLASH. split; [by apply list_elem_of_In|done]. }
  apply normalize_path_fixed_point; rewrite ?split_on_free_id by done.
  - done.
  - unfold PATH_MAX. lia.
  - simpl. lia.
  - by repeat constructor.
Qed.

Lemma is_safe_filename_normalized_witness :
  normalize_path (cs "report.final.txt") PATH_MAX = cs "report.final.txt".
Proof.
  apply is_safe_filename_normalized; [done|reflexivity|].
  match goal with |- ?P => apply (bool_decide_unpack P) end; vm_compute; exact I.
Defined.

End NormalizeMore.

Section NormalizeBounds.
Import LibC FileUtils.

Lemma unify_separators_idemp temp :
  unify_separators (unify_separators temp) = unify_separators temp.
Proof. apply unify_separators_id, unify_separators_free. Qed.

(** X3.  [normalize_path] does not tell a backslash from a slash: a
    path and the same path written with slashes only have the same
    result, for every buffer size. *)
Theorem normalize_path_separators path size :
  normalize_path (unify_separators path) size = normalize_path path size.
Proof.
  unfold normalize_path, resolved_components, strncpy.
  assert (Htake : take (PATH_MAX - 1) (unify_separators path)
                  = unify_separators (take (PATH_MAX - 1) path))
    by (unfold unify_separators; symmetry; apply fmap_take).
  by rewrite Htake, unify_separators_idemp.
Qed.



End NormalizeBounds.

(** ** Hashes as text and MIME types *)

Section Hashes.
Import LibC FileUtils.

Lemma hex_pair_decodes b :
  byte_of (16 * hex_digit_value
                  (nth (Z.to_nat (Z.shiftr (byte_value b) 4)) hex NUL)
           + hex_digit_value
               (nth (Z.to_nat (Z.land (byte_value b) 0x0F)) hex NUL))
  = b.
Proof.
  destruct b as [[] [] [] [] [] [] [] []]; vm_compute; reflexivity.
Qed.

(** X12.  With room for it, [hash_to_string] writes two characters for
    every byte, and reading them as hexadecimal digits gives the bytes
    back; different hashes are therefore written differently. *)
Theorem hash_to_string_decodes hash output_size :
  2 * length hash < output_size →
  length (hash_to_string hash output_size) = 2 * length hash
  ∧ bytes_of_hex (hash_to_string hash output_size) = hash.
Proof.
  intros Hroom. unfold hash_to_string.
  destruct (output_size <? length hash * 2 + 1) eqn:Hlt;
    [apply Nat.ltb_lt in Hlt; lia|].
  clear. induction hash as [|b hash [IHlen IH]]; [done|].
  cbn [flat_map app length bytes_of_hex]. split.
  - rewrite IHlen. lia.
  - by rewrite hex_pair_decodes, IH.
Qed.

Lemma hash_to_string_decodes_witness :
  length (hash_to_string [byte_of 0x0f; byte_of 0xa0; byte_of 0xff] 7) = 6
  ∧ bytes_of_hex (hash_to_string [byte_of 0x0f; byte_of 0xa0; byte_of 0xff] 7)
    = [byte_of 0x0f; byte_of 0xa0; byte_of 0xff].
Proof.
  apply (hash_to_string_decodes [byte_of 0x0f; byte_of 0xa0; byte_of 0xff] 7).
  simpl. lia.
Defined.

Lemma get_file_extension_app stem ext :
  stem ≠ [] → "."%char ∉ ext →
  get_file_extension (stem ++ "."%char :: ext) = ext.
Proof.
  intros Hstem Hext. unfold get_file_extension.
  rewrite strrchr_last by done.
  rewrite bool_decide_eq_false_2 by (destruct stem; [done|simpl; lia]).
  replace (length stem + 1) with (length (stem ++ ["."%char]))
    by (rewrite length_app; simpl; lia).
  by rewrite (cons_middle _ stem ext), app_assoc, drop_app_length.
Qed.

(** X11.  The answer of [get_mime_type] depends on the extension only,
    and not on its case: two file names whose extensions differ at most
    in case have the same type, whatever stands before the last dot. *)
Theorem get_mime_type_by_extension stem1 stem2 ext1 ext2 :
  stem1 ≠ [] → stem2 ≠ [] →
  "."%char ∉ ext1 → "."%char ∉ ext2 →
  map tolower ext1 = map tolower ext2 →
  get_mime_type (stem1 ++ "."%char :: ext1)
  = get_mime_type (stem2 ++ "."%char :: ext2).
Proof.
  intros H1 H2 He1 He2 Heq. unfold get_mime_type, strcasecmp_eq.
  rewrite !get_file_extension_app by done. by rewrite Heq.
Qed.

Lemma get_mime_type_by_extension_witness :
  get_mime_type (cs "Holiday" ++ "."%char :: cs "JPG")
  = get_mime_type (cs "x" ++ "."%char :: cs "jpg")
  ∧ get_mime_type (cs "x" ++ "."%char :: cs "jpg") = cs "image/jpeg".
Proof.
  split; [|reflexivity].
  apply get_mime_type_by_extension; try done;
    match goal with |- ?P => apply (bool_decide_unpack P) end; vm_compute; exact I.
Defined.

End Hashes.

(** ** The digest *)

Section CountArithmetic.
Import LibC FileUtils.
Local Open Scope Z_scope.

Lemma count_next_value c0 c1 len :
  0 ≤ c0 < 2 ^ 32 → 0 ≤ c1 < 2 ^ 32 → 0 ≤ len →
  0 ≤ (count_next c0 c1 len).1 < 2 ^ 32
  ∧ 0 ≤ (count_next c0 c1 len).2 < 2 ^ 32
  ∧ (count_next c0 c1 len).1 + 2 ^ 32 * (count_next c0 c1 len).2
    = (c0 + 2 ^ 32 * c1 + 8 * len) mod 2 ^ 64.
Proof.
  intros H0 H1 Hlen. unfold count_next, wrap32. cbn [fst snd].
  rewrite Z.shiftl_mul_pow2, Z.shiftr_div_pow2 by lia.
  change (2 ^ 3) with 8. change (2 ^ 29) with 536870912.
  change (2 ^ 32) with 4294967296 in *.
  change (2 ^ 64) with 18446744073709551616.
  destruct (Z.ltb_spec ((c0 + (len * 8) mod 4294967296) mod 4294967296)
              ((len * 8) mod 4294967296)) as [Hc|Hc];
    Z.div_mod_to_equations; lia.
Qed.

Lemma count_next_index c0 c1 len :
  0 ≤ c0 → 0 ≤ len →
  Z.land (Z.shiftr (count_next c0 c1 len).1 3) 0x3F
  = (Z.land (Z.shiftr c0 3) 0x3F + len) mod 64.
Proof.
  intros H0 Hlen. unfold count_next, wrap32. cbn [fst].
  change 0x3F with (Z.ones 6). rewrite !Z.land_ones by lia.
  rewrite Z.shiftl_mul_pow2, !Z.shiftr_div_pow2 by lia.
  change (2 ^ 3) with 8. change (2 ^ 6) with 64.
  change (2 ^ 32) with 4294967296 in *.
  Z.div_mod_to_equations; lia.
Qed.

End CountArithmetic.

Section Digest.
Import LibC FileUtils.

Lemma blocks_exist (all : list ascii) :
  ∃ blocks rest,
    all = concat blocks ++ rest ∧ blocks_ok blocks ∧ length rest < 64.
Proof.
  remember (length all) as n eqn:Hn. revert all Hn.
  induction n as [n IH] using lt_wf_ind. intros all ->.
  destruct (decide (length all < 64)) as [Hlt|Hge].
  - by exists [], all.
  - destruct (IH (length (drop 64 all))) with (all := drop 64 all)
      as (blocks & rest & Heq & Hok & Hrest); [rewrite length_drop; lia|done|].
    exists (take 64 all :: blocks), rest. split_and!; [|  |done].
    + cbn [concat]. by rewrite <- app_assoc, <- Heq, take_drop.
    + constructor; [|done]. rewrite length_take. lia.
Qed.

Lemma length_concat_blocks (blocks : list (list ascii)) :
  blocks_ok blocks → length (concat blocks) = 64 * length blocks.
Proof.
  induction 1 as [|b blocks Hb _ IH]; [done|].
  cbn [concat length]. rewrite length_app, IH, Hb. lia.
Qed.

Lemma transform_loop_blocks n st input i blocks rest :
  drop i input = concat blocks ++ rest →
  blocks_ok blocks → length rest < 64 → length blocks ≤ n →
  transform_loop n st input i
  = (foldl MD5Transform st blocks, i + 64 * length blocks).
Proof.
  revert st i blocks.
  induction n as [|n IH]; intros st i blocks Hdrop Hok Hrest Hn.
  - destruct blocks; [|simpl in Hn; lia]. cbn. f_equal. lia.
  - cbn [transform_loop].
    assert (Hlen : length input - i = 64 * length blocks + length rest).
    { rewrite <- length_drop, Hdrop, length_app, length_concat_blocks by done.
      done. }
    destruct blocks as [|b blocks].
    + destruct (i + 63 <? length input) eqn:Hlt;
        [apply Nat.ltb_lt in Hlt; simpl in Hlen; lia|].
      cbn. f_equal. lia.
    + inversion Hok as [|? ? Hb Hok']; subst.
      destruct (i + 63 <? length input) eqn:Hlt;
        [|apply Nat.ltb_ge in Hlt; simpl in Hlen; lia].
      cbn [concat] in Hdrop. rewrite <- app_assoc in Hdrop.
      rewrite Hdrop, <- Hb, take_app_length.
      rewrite (IH _ _ blocks); cbn [length] in *; [| |done|done|lia].
      * cbn [foldl]. f_equal. lia.
      * by rewrite <- drop_drop, Hdrop, drop_app_length.
Qed.

Lemma count_update c input :
  count (MD5_Update c input)
  = [ (count_next (nth 0 (count c) 0%Z) (nth 1 (count c) 0%Z)
         (Z.of_nat (length input))).1;
      (count_next (nth 0 (count c) 0%Z) (nth 1 (count c) 0%Z)
         (Z.of_nat (length input))).2 ].
Proof.
  unfold MD5_Update, count_next.
  destruct (_ <=? _); [destruct (transform_loop _ _ _ _)|]; reflexivity.
Qed.

Lemma buffer_index_bound c : buffer_index c < 64.
Proof.
  unfold buffer_index. change 0x3F%Z with (Z.ones 6).
  rewrite Z.land_ones by lia.
  pose proof (Z.mod_pos_bound (Z.shiftr (nth 0 (count c) 0%Z) 3) (2 ^ 6)).
  change (2 ^ 6)%Z with 64%Z in *. lia.
Qed.

Lemma context_ok_update c input :
  context_ok c →
  ∃ c0 c1, count (MD5_Update c input) = [c0; c1]
           ∧ (0 ≤ c0 < 2 ^ 32)%Z ∧ (0 ≤ c1 < 2 ^ 32)%Z.
Proof.
  intros (_ & c0 & c1 & Hc & H0 & H1). rewrite count_update, Hc. cbn [nth].
  destruct (count_next_value c0 c1 (Z.of_nat (length input)) H0 H1)
    as (? & ? & _); [lia|].
  by eexists _, _.
Qed.

Lemma buffer_index_update c input :
  context_ok c →
  buffer_index (MD5_Update c input) = (buffer_index c + length input) mod 64.
Proof.
  intros (_ & c0 & c1 & Hc & H0 & H1). unfold buffer_index.
  rewrite count_update, Hc. cbn [nth].
  rewrite count_next_index by lia.
  change 0x3F%Z with (Z.ones 6). rewrite Z.land_ones by lia.
  change (2 ^ 6)%Z with 64%Z.
  pose proof (Z.mod_pos_bound (Z.shiftr c0 3) 64).
  rewrite Z2Nat.inj_mod by lia.
  rewrite Z2Nat.inj_add by lia. by rewrite Nat2Z.id.
Qed.

(** What a call of [MD5_Update] does, the pending input and the new
    input being cut into blocks of 64 bytes and a rest. *)
Lemma MD5_Update_blocks c input blocks rest :
  context_ok c →
  pending c ++ input = concat blocks ++ rest →
  blocks_ok blocks → length rest < 64 →
  state (MD5_Update c input) = foldl MD5Transform (state c) blocks
  ∧ pending (MD5_Update c input) = rest
  ∧ context_ok (MD5_Update c input).
Proof.
  intros Hok Heq Hblocks Hrest.
  pose proof (buffer_index_bound c) as Hidx.
  pose proof (buffer_index_update c input Hok) as Hidx'.
  pose proof (context_ok_update c input Hok) as Hcount.
  destruct Hok as (Hbuf & _).
  assert (Hp : length (pending c) = buffer_index c).
  { unfold pending. rewrite length_take. lia. }
  assert (Hlen : buffer_index c + length input
                 = 64 * length blocks + length rest).
  { rewrite <- Hp, <- length_app, Heq, length_app, length_concat_blocks by done.
    done. }
  assert (Hrest' : buffer_index (MD5_Update c input) = length rest).
  { rewrite Hidx', Hlen.
    rewrite Nat.add_comm, Nat.mul_comm, Nat.Div0.mod_add.
    by apply Nat.mod_small. }
  unfold pending. rewrite Hrest'. clear Hidx' Hrest'.
  unfold context_ok. revert Hcount.
  unfold MD5_Update. set (index := buffer_index c) in *.
  destruct (64 - index <=? length input) eqn:Hpart.
  - apply Nat.leb_le in Hpart.
    destruct blocks as [|b blocks]; [simpl in Hlen; lia|].
    inversion Hblocks as [|? ? Hb Hblocks']; subst.
    set (first := memcpy_at (buffer c) index (take (64 - index) input)).
    assert (Hfirst : first = pending c ++ take (64 - index) input).
    { unfold first, memcpy_at, pending. fold index.
      rewrite length_take, Nat.min_l by lia.
      replace (index + (64 - index)) with 64 by lia.
      by rewrite drop_ge, app_nil_r by lia. }
    assert (Hsplit : pending c ++ input
                     = first ++ drop (64 - index) input).
    { by rewrite Hfirst, <- app_assoc, take_drop. }
    assert (Hfl : length first = 64).
    { rewrite Hfirst, length_app, length_take. lia. }
    rewrite Hsplit in Heq. cbn [concat] in Heq. rewrite <- app_assoc in Heq.
    apply app_inj_1 in Heq as [-> Hdrop]; [|lia].
    rewrite (transform_loop_blocks _ _ _ _ blocks rest Hdrop) by
      (try done; cbn [length] in Hlen; lia).
    assert (Hfinal : drop (64 - index + 64 * length blocks) input = rest).
    { rewrite <- drop_drop, Hdrop.
      rewrite drop_app_length'; [done|]. by rewrite length_concat_blocks. }
    rewrite Hfinal.
    cbn [state count buffer]. intros Hcount.
    unfold memcpy_at. rewrite take_0. cbn [app].
    split_and!; [done| | |assumption].
    + by rewrite take_app_length.
    + rewrite length_app, length_drop. lia.
  - apply Nat.leb_gt in Hpart.
    destruct blocks as [|b blocks]; [|cbn [length] in Hlen; lia].
    cbn [concat app foldl] in *. cbn [state count buffer].
    intros Hcount. split_and!; [done| | |assumption].
    + unfold memcpy_at. unfold pending in Heq. fold index in Heq.
      by rewrite app_assoc, Heq, take_app_length.
    + unfold memcpy_at. rewrite !length_app, length_take, length_drop. lia.
Qed.

Lemma same_context_update c c' input :
  context_ok c → context_ok c' → same_context c c' →
  same_context (MD5_Update c input) (MD5_Update c' input).
Proof.
  intros Hok Hok' (Hs & Hc & Hp).
  destruct (blocks_exist (pending c ++ input))
    as (blocks & rest & Heq & Hblocks & Hrest).
  destruct (MD5_Update_blocks c input blocks rest) as (Hs1 & Hp1 & _);
    try done.
  destruct (MD5_Update_blocks c' input blocks rest) as (Hs2 & Hp2 & _);
    try done; [by rewrite <- Hp|].
  split_and!; [congruence| |congruence].
  by rewrite !count_update, Hc.
Qed.

Lemma count_next_add c0 c1 a b :
  (0 ≤ c0 < 2 ^ 32)%Z → (0 ≤ c1 < 2 ^ 32)%Z → (0 ≤ a)%Z → (0 ≤ b)%Z →
  count_next (count_next c0 c1 a).1 (count_next c0 c1 a).2 b
  = count_next c0 c1 (a + b).
Proof.
  intros H0 H1 Ha Hb.
  destruct (count_next_value c0 c1 a H0 H1 Ha) as (Ha0 & Ha1 & Hav).
  destruct (count_next_value _ _ b Ha0 Ha1 Hb) as (Hb0 & Hb1 & Hbv).
  destruct (count_next_value c0 c1 (a + b)%Z H0 H1) as (Hc0 & Hc1 & Hcv);
    [lia|].
  rewrite Hav in Hbv.
  assert (Hv : (((c0 + 2 ^ 32 * c1 + 8 * a) mod 2 ^ 64 + 8 * b) mod 2 ^ 64
                = (c0 + 2 ^ 32 * c1 + 8 * (a + b)) mod 2 ^ 64)%Z).
  { rewrite Zplus_mod_idemp_l. f_equal. lia. }
  rewrite Hv, <- Hcv in Hbv.
  destruct (count_next _ _ b) as [x0 x1], (count_next c0 c1 (a + b)) as [y0 y1].
  cbn [fst snd] in *. f_equal; lia.
Qed.

Lemma same_context_app c a b :
  context_ok c →
  same_context (MD5_Update (MD5_Update c a) b) (MD5_Update c (a ++ b)).
Proof.
  intros Hok.
  destruct (blocks_exist (pending c ++ a))
    as (blocks1 & rest1 & Heq1 & Hblocks1 & Hrest1).
  destruct (MD5_Update_blocks c a blocks1 rest1) as (Hs1 & Hp1 & Hok1);
    try done.
  destruct (blocks_exist (rest1 ++ b))
    as (blocks2 & rest2 & Heq2 & Hblocks2 & Hrest2).
  destruct (MD5_Update_blocks (MD5_Update c a) b blocks2 rest2)
    as (Hs2 & Hp2 & Hok2); try done; [by rewrite Hp1|].
  destruct (MD5_Update_blocks c (a ++ b) (blocks1 ++ blocks2) rest2)
    as (Hs3 & Hp3 & Hok3); try done.
  { by rewrite app_assoc, Heq1, <- app_assoc, Heq2, concat_app, <- app_assoc. }
  { by apply Forall_app. }
  split_and!.
  - by rewrite Hs2, Hs1, Hs3, foldl_app.
  - destruct Hok as (_ & c0 & c1 & Hc & H0 & H1).
    rewrite !count_update, Hc. cbn [nth].
    rewrite length_app, Nat2Z.inj_add.
    by rewrite count_next_add by lia.
  - by rewrite Hp2, Hp3.
Qed.

Lemma same_context_final c c' :
  context_ok c → context_ok c' → same_context c c' →
  (MD5_Final c).1 = (MD5_Final c').1.
Proof.
  intros Hok Hok' Hsame. unfold MD5_Final. cbn [fst].
  destruct Hsame as (Hs & Hc & Hp). rewrite <- Hc.
  set (pad := take _ _). set (bits := flat_map word_bytes (count c)).
  assert (H1 : same_context (MD5_Update c pad) (MD5_Update c' pad))
    by (by apply same_context_update).
  assert (Hok1 : context_ok (MD5_Update c pad)).
  { destruct (blocks_exist (pending c ++ pad)) as (bl & rest & ? & ? & ?).
    by destruct (MD5_Update_blocks c pad bl rest) as (_ & _ & ?). }
  assert (Hok1' : context_ok (MD5_Update c' pad)).
  { destruct (blocks_exist (pending c' ++ pad)) as (bl & rest & ? & ? & ?).
    by destruct (MD5_Update_blocks c' pad bl rest) as (_ & _ & ?). }
  destruct (same_context_update _ _ bits Hok1 Hok1' H1) as (Hs2 & _).
  by rewrite Hs2.
Qed.

End Digest.

Section DigestClaims.
Import LibC Posix FileUtils.

Lemma context_ok_MD5_Update c input :
  context_ok c → context_ok (MD5_Update c input).
Proof.
  intros Hok.
  destruct (blocks_exist (pending c ++ input)) as (bl & rest & ? & ? & ?).
  by destruct (MD5_Update_blocks c input bl rest) as (_ & _ & ?).
Qed.

Lemma context_ok_MD5_Init c : length (buffer c) = 64 → context_ok (MD5_Init c).
Proof. intros Hb. split; [done|]. by exists 0%Z, 0%Z. Qed.

Lemma same_context_trans c1 c2 c3 :
  same_context c1 c2 → same_context c2 c3 → same_context c1 c3.
Proof. intros (? & ? & ?) (? & ? & ?). split_and!; congruence. Qed.

Lemma same_context_MD5_Init c c' : same_context (MD5_Init c) (MD5_Init c').
Proof. by split_and!. Qed.

Lemma count_next_zero c0 c1 :
  (0 ≤ c0 < 2 ^ 32)%Z → (0 ≤ c1 < 2 ^ 32)%Z → count_next c0 c1 0 = (c0, c1).
Proof.
  intros H0 H1. unfold count_next, wrap32.
  change (Z.shiftl 0 3) with 0%Z. change (Z.shiftr 0 29) with 0%Z.
  change (0 mod 2 ^ 32)%Z with 0%Z. rewrite !Z.add_0_r.
  rewrite (Z.mod_small c0) by done.
  destruct (Z.ltb_spec c0 0); [lia|]. by rewrite Z.mod_small.
Qed.

Lemma same_context_nil c : context_ok c → same_context (MD5_Update c []) c.
Proof.
  intros Hok.
  destruct (MD5_Update_blocks c [] [] (pending c)) as (Hs & Hp & _); try done.
  { by rewrite app_nil_r. }
  { unfold pending. rewrite length_take. pose proof (buffer_index_bound c). lia. }
  split_and!; [done| |done].
  destruct Hok as (_ & c0 & c1 & Hc & H0 & H1).
  rewrite count_update, Hc. cbn [nth length].
  change (Z.of_nat 0) with 0%Z. by rewrite count_next_zero.
Qed.

(** Feeding the pieces one after the other comes to feeding it all. *)
Lemma foldl_MD5_Update c chunks :
  context_ok c →
  context_ok (foldl MD5_Update c chunks)
  ∧ same_context (foldl MD5_Update c chunks) (MD5_Update c (concat chunks)).
Proof.
  revert c. induction chunks as [|x chunks IH]; intros c Hok; cbn [foldl concat].
  - split; [done|]. split_and!; by destruct (same_context_nil c Hok) as (? & ? & ?).
  - destruct (IH (MD5_Update c x)) as [Hok' Hsame];
      [by apply context_ok_MD5_Update|].
    split; [done|]. eapply same_context_trans; [exact Hsame|].
    by apply same_context_app.
Qed.

(** X13.  The digest does not depend on how the input is cut into
    calls of [MD5_Update]: two calls, with [a] and then with [b], lead to
    the digest that one call with [a ++ b] leads to. *)
Theorem MD5_Update_stream c a b :
  context_ok c →
  (Z.of_nat (length a + length b) + 64 ≤ 2 ^ 32)%Z →
  (MD5_Final (MD5_Update (MD5_Update c a) b)).1
  = (MD5_Final (MD5_Update c (a ++ b))).1.
Proof.
  intros Hok _. apply same_context_final.
  - by do 2 apply context_ok_MD5_Update.
  - by apply context_ok_MD5_Update.
  - by apply same_context_app.
Qed.

Lemma take_fread_chunks n (data : list ascii) m :
  concat (map (λ k, take n (drop (k * n) data)) (seq 0 m)) = take (m * n) data.
Proof.
  induction m as [|m IH]; [done|].
  rewrite seq_S, map_app, concat_app, IH. cbn [map concat plus].
  rewrite app_nil_r, take_take_drop. f_equal. lia.
Qed.

Lemma concat_fread_chunks n data : 0 < n → concat (fread_chunks n data) = data.
Proof.
  intros Hn. unfold fread_chunks. rewrite take_fread_chunks.
  apply take_ge.
  pose proof (Nat.div_mod_eq (length data + n - 1) n).
  pose proof (Nat.mod_upper_bound (length data + n - 1) n). nia.
Qed.

(** X14.  [calculate_file_md5] returns 0 and, as the hash of a file
    that can be opened, the digest of its whole content fed in one call;
    neither the reading in pieces of 8192 bytes nor what the memory of
    the context held before [MD5_Init] has an influence. *)
Theorem calculate_file_md5_whole filename context context' w data :
  (read_all filename w).1 = Some data →
  length (buffer context) = 64 →
  length (buffer context') = 64 →
  (calculate_file_md5 filename context w).1
  = (0%Z, Some (MD5_Final (MD5_Update (MD5_Init context') data)).1).
Proof.
  intros Hread Hb Hb'. unfold calculate_file_md5.
  destruct (read_all filename w) as [[d|] w1]; [|done].
  injection Hread as ->. cbn [fst]. do 2 f_equal.
  pose proof (context_ok_MD5_Init _ Hb) as Hok.
  pose proof (context_ok_MD5_Init _ Hb') as Hok'.
  destruct (foldl_MD5_Update (MD5_Init context) (fread_chunks (8 * 1024) data) Hok)
    as [Hokf Hsame].
  rewrite concat_fread_chunks in Hsame by lia.
  apply same_context_final; [done|by apply context_ok_MD5_Update|].
  eapply same_context_trans; [exact Hsame|].
  apply same_context_update; [done|done|apply same_context_MD5_Init].
Qed.

Lemma foldl_commute {A B C} (f : A → B → A) (g : A → C → A) :
  (∀ s x y, f (g s y) x = g (f s x) y) →
  ∀ xs ys s, foldl f (foldl g s ys) xs = foldl g (foldl f s xs) ys.
Proof.
  intros Hfg xs. induction xs as [|x xs IH]; intros ys s; [done|].
  cbn [foldl]. rewrite <- (IH ys (f s x)). f_equal.
  clear IH. revert s. induction ys as [|y ys IH]; intros s; [done|].
  cbn [foldl]. by rewrite (IH (g s y)), Hfg.
Qed.

Lemma nth_insert_ne (l : list Z) j j' x :
  j ≠ j' → nth j (<[j' := x]> l) 0%Z = nth j l 0%Z.
Proof.
  intros Hne. rewrite !nth_lookup. by rewrite list_lookup_insert_ne.
Qed.

Lemma xor_at_commute (st : list Z) j v j' v' :
  <[j := Z.lxor (nth j (<[j' := Z.lxor (nth j' st 0%Z) v']> st) 0%Z) v]>
    (<[j' := Z.lxor (nth j' st 0%Z) v']> st)
  = <[j' := Z.lxor (nth j' (<[j := Z.lxor (nth j st 0%Z) v]> st) 0%Z) v']>
      (<[j := Z.lxor (nth j st 0%Z) v]> st).
Proof.
  destruct (decide (j = j')) as [<-|Hne].
  - destruct (decide (j < length st)) as [Hlt|Hge].
    + rewrite !nth_lookup, !list_lookup_insert_eq by done. cbn.
      rewrite !list_insert_insert_eq. f_equal.
      rewrite !Z.lxor_assoc. f_equal. apply Z.lxor_comm.
    + by rewrite !list_insert_ge by (rewrite ?length_insert; lia).
  - rewrite !nth_insert_ne by done. by apply list_insert_insert_ne.
Qed.

Lemma MD5Transform_commute st a b :
  MD5Transform (MD5Transform st a) b = MD5Transform (MD5Transform st b) a.
Proof.
  unfold MD5Transform. apply foldl_commute.
  intros s x y. cbv zeta. apply xor_at_commute.
Qed.

Lemma foldl_MD5Transform_perm blocks blocks' st :
  blocks ≡ₚ blocks' →
  foldl MD5Transform st blocks = foldl MD5Transform st blocks'.
Proof.
  intros Hperm. revert st.
  induction Hperm as [|x l l' _ IH|x y l|l1 l2 l3 _ IH1 _ IH2]; intros st;
    cbn [foldl]; [done|apply IH| |by rewrite IH1].
  by rewrite MD5Transform_commute.
Qed.

(** X15.  The digest of this implementation does not depend on the
    order of the 64-byte blocks of the input: [MD5Transform] adds a
    block to the state with exclusive or, so that two inputs whose
    leading blocks are a permutation of each other have the same
    digest. *)
Theorem MD5_block_order context blocks blocks' tail :
  length (buffer context) = 64 →
  Forall (λ b, length b = 64) blocks →
  blocks ≡ₚ blocks' →
  (Z.of_nat (64 * length blocks + length tail) + 64 ≤ 2 ^ 32)%Z →
  (MD5_Final (MD5_Update (MD5_Init context) (concat blocks ++ tail))).1
  = (MD5_Final (MD5_Update (MD5_Init context) (concat blocks' ++ tail))).1.
Proof.
  intros Hb Hblocks Hperm _.
  assert (Hblocks' : blocks_ok blocks') by (by rewrite <- Hperm).
  pose proof (context_ok_MD5_Init _ Hb) as Hok.
  destruct (blocks_exist tail) as (bt & rest & -> & Hbt & Hrest).
  destruct (MD5_Update_blocks (MD5_Init context)
              (concat blocks ++ concat bt ++ rest) (blocks ++ bt) rest)
    as (Hs & Hp & Hok1); try done.
  { by rewrite concat_app, <- app_assoc. }
  { by apply Forall_app. }
  destruct (MD5_Update_blocks (MD5_Init context)
              (concat blocks' ++ concat bt ++ rest) (blocks' ++ bt) rest)
    as (Hs' & Hp' & Hok1'); try done.
  { by rewrite concat_app, <- app_assoc. }
  { by apply Forall_app. }
  apply same_context_final; [done|done|]. split_and!.
  - rewrite Hs, Hs', !foldl_app. f_equal. by apply foldl_MD5Transform_perm.
  - rewrite !count_update. do 3 f_equal;
      rewrite !length_app, !length_concat_blocks by done;
      by rewrite (Permutation_length Hperm).
  - by rewrite Hp, Hp'.
Qed.

Lemma stale_context_ok : context_ok stale_context.
Proof. split; [done|]. exists 40%Z, 0%Z. by split_and!. Qed.

Lemma MD5_Update_stream_witness :
  (MD5_Final (MD5_Update (MD5_Update stale_context (cs "abc")) (cs "defg"))).1
  = (MD5_Final (MD5_Update stale_context (cs "abc" ++ cs "defg"))).1.
Proof. apply MD5_Update_stream; [apply stale_context_ok|done]. Defined.

Lemma calculate_file_md5_whole_witness :
  (calculate_file_md5 (cs "/tmp/demo/a.txt") stale_context demo_world).1
  = (0%Z,
     Some (MD5_Final (MD5_Update (MD5_Init zero_context) (cs "0123456789"))).1).
Proof.
  apply calculate_file_md5_whole; [vm_compute; reflexivity|done|done].
Defined.

Lemma MD5_block_order_witness :
  (MD5_Final (MD5_Update (MD5_Init zero_context)
                (concat [replicate 64 "a"%char; replicate 64 "b"%char]
                 ++ cs "end"))).1
  = (MD5_Final (MD5_Update (MD5_Init zero_context)
                  (concat [replicate 64 "b"%char; replicate 64 "a"%char]
                   ++ cs "end"))).1.
Proof.
  apply MD5_block_order; [done|by repeat constructor|apply perm_swap|done].
Defined.

End DigestClaims.

(** ** More on [is_safe_path]; symbolic links *)

Section SafePathMore.
Import LibC FileUtils.

(** X6.  [has_dangerous_chars] returns 0 for every C string: the
    pieces it scans are cut at the slashes and end at the NUL, so that
    neither character is ever found in one. *)
Theorem has_dangerous_chars_never path :
  NUL ∉ path → has_dangerous_chars path = 0%Z.
Proof. apply has_dangerous_chars_zero. Qed.

Lemma has_dangerous_chars_never_witness :
  has_dangerous_chars (cs "/etc/../etc/pass wd;rm -rf") = 0%Z.
Proof.
  apply has_dangerous_chars_never.
  match goal with |- ?P => apply (bool_decide_unpack P) end; vm_compute; exact I.
Defined.

(** X7.  For every path, normalized or not, [is_safe_path] returns 0
    exactly when the path contains ["../"], or [realpath] fails on it
    while [lstat] reports a symbolic link, or it begins with one of the
    twelve system directories of the denylist. *)
Theorem is_safe_path_rejects w path :
  NUL ∉ path →
  is_safe_path path w = 0%Z
  ↔ contains (cs "../") path
    ∨ ((Posix.realpath path w).1 = None
       ∧ ∃ statbuf,
           (Posix.lstat path w).1 = Some statbuf
           ∧ S_ISLNK (Posix.st_mode statbuf) = true)
    ∨ denylisted path.
Proof.
  intros Hnul. unfold is_safe_path.
  rewrite has_dangerous_chars_zero by done.
  change (negb (0 =? 0)%Z) with false. cbv iota.
  destruct (strstr path (cs "../")) eqn:Hstr.
  { split; [|done]. intros _. left. by apply strstr_contains. }
  assert (Hnc : ¬ contains (cs "../") path).
  { intros Hc%strstr_contains. congruence. }
  assert (Hden : existsb (λ sp, strncmp_eq path sp (length sp)) system_paths
                 = true ↔ denylisted path).
  { rewrite existsb_exists. unfold denylisted. split.
    - intros (sp & Hin & Hsp). exists sp.
      split; [by apply list_elem_of_In|by apply strncmp_eq_prefix].
    - intros (sp & Hin & Hsp). exists sp.
      split; [by apply list_elem_of_In|by apply strncmp_eq_prefix]. }
  assert (Hlink : ∀ guard : bool,
            (if guard then 0%Z
             else if existsb (λ sp, strncmp_eq path sp (length sp)) system_paths
                  then 0%Z else 1%Z) = 0%Z
            ↔ guard = true ∨ denylisted path).
  { intros [|]; [by split; [left|]|]. rewrite <- Hden.
    destruct (existsb _ _); split; try done; [by right|by intros [|]]. }
  rewrite Hlink. clear Hlink Hden.
  destruct (Posix.realpath path w) as [[rp|] w'] eqn:Hrp; cbn [fst].
  { split; [intros [?|?]; [done|by right; right]|].
    intros [?|[(? & _)|?]]; [done|done|by right]. }
  destruct (realpath_world path w) as [e He]; [by rewrite Hrp|].
  rewrite Hrp in He. injection He as ->.
  pose proof (lstat_set_errno path e w) as Hl.
  destruct (Posix.lstat path (Posix.set_errno e w)) as [[statbuf|] w''];
    simpl in Hl; rewrite <- Hl.
  - split.
    + intros [Hs|?]; [right; left; split; [done|by exists statbuf]|by right; right].
    + intros [?|[(_ & m & [= <-] & ?)|?]]; [done|by left|by right].
  - split; [intros [?|?]; [done|by right; right]|].
    intros [?|[(_ & m & ? & _)|?]]; [done|done|by right].
Qed.

Lemma is_safe_path_rejects_witness :
  is_safe_path (cs "/etc/passwd") demo_world = 0%Z
  ↔ contains (cs "../") (cs "/etc/passwd")
    ∨ ((Posix.realpath (cs "/etc/passwd") demo_world).1 = None
       ∧ ∃ statbuf,
           (Posix.lstat (cs "/etc/passwd") demo_world).1 = Some statbuf
           ∧ S_ISLNK (Posix.st_mode statbuf) = true)
    ∨ denylisted (cs "/etc/passwd").
Proof.
  apply (is_safe_path_rejects demo_world (cs "/etc/passwd")).
  match goal with |- ?P => apply (bool_decide_unpack P) end; vm_compute; exact I.
Defined.

End SafePathMore.

Section Links.
Import LibC Posix FileUtils.







End Links.

(** ** [n8n_copy_file] *)

Section CopyMore.
Import LibC Posix FileUtils.

(** X17.  Without [overwrite], [n8n_copy_file] answers a destination
    that exists with the error [EEXIST], whatever the source is, and
    changes nothing. *)
Theorem n8n_copy_file_keeps_destination source destination options w ino :
  overwrite options = false →
  w_fs w !! locate w source = Some ino →
  (access destination w).1 = Some () →
  n8n_copy_file source destination options w
  = (answer false (cs "Destination file already exists") 17, w).
Proof.
  intros Hover Hsrc Hacc. unfold n8n_copy_file.
  rewrite (lstat_Some _ _ _ Hsrc), Hover.
  unfold access in *. destruct (follow (w_fs w) (locate w destination)); done.
Qed.

Lemma n8n_copy_file_keeps_destination_witness :
  n8n_copy_file (cs "/in/1") (cs "/in/2") plain_copy batch_world
  = (answer false (cs "Destination file already exists") 17, batch_world).
Proof.
  by apply (n8n_copy_file_keeps_destination _ _ _ _
              (node (Regular (cs "one")) 0x1A4)).
Defined.










End CopyMore.

(** ** Paths and texts of the navigator *)

Section NavigatorPaths.
Import LibC Posix FileNavigator.

Lemma find_last_of_last l1 c l2 :
  c ∉ l2 → find_last_of (l1 ++ c :: l2) c = Some (length l1).
Proof. apply strrchr_last. Qed.

Lemma find_last_of_None s c : c ∉ s → find_last_of s c = None.
Proof. apply strrchr_None. Qed.

Lemma find_last_of_cases s c :
  ((c ∉ s) ∧ find_last_of s c = None)
  ∨ ∃ l1 l2, s = l1 ++ c :: l2 ∧ (c ∉ l2) ∧ find_last_of s c = Some (length l1).
Proof. apply strrchr_cases. Qed.

Lemma is_absolute_app a b : is_absolute a = true → is_absolute (a ++ b) = true.
Proof. unfold is_absolute. rewrite !bool_decide_eq_true. by destruct a. Qed.

Lemma get_absolute_path_anchored nav p :
  is_absolute (current_path nav) = true →
  is_absolute (get_absolute_path nav p) = true.
Proof.
  intros Hcur. unfold get_absolute_path.
  case_bool_decide; [done|].
  case_bool_decide as Hhead; [by apply bool_decide_eq_true|].
  case_bool_decide; [done|].
  case_bool_decide.
  - destruct (find_last_of_cases (current_path nav) SLASH)
      as [[_ ->]|(l1 & l2 & Heq & _ & ->)]; [done|].
    destruct l1 as [|c l1]; [done|]. cbn [length].
    rewrite Heq in Hcur |- *. cbn [app take]. rewrite take_app_length.
    apply bool_decide_eq_true in Hcur. injection Hcur as ->. done.
  - case_bool_decide; by apply is_absolute_app.
Qed.

(** X21.  As long as the current path of the navigator is absolute,
    [get_absolute_path] returns an absolute path for every argument, and
    a second application changes nothing. *)
Theorem get_absolute_path_idempotent nav p :
  is_absolute (current_path nav) = true →
  is_absolute (get_absolute_path nav p) = true
  ∧ get_absolute_path nav (get_absolute_path nav p) = get_absolute_path nav p.
Proof.
  intros Hcur. pose proof (get_absolute_path_anchored nav p Hcur).
  split; [done|]. by apply get_absolute_path_absolute.
Qed.

Lemma get_absolute_path_idempotent_witness :
  is_absolute (get_absolute_path example_navigator (cs "notes/a.txt")) = true
  ∧ get_absolute_path example_navigator
      (get_absolute_path example_navigator (cs "notes/a.txt"))
    = get_absolute_path example_navigator (cs "notes/a.txt").
Proof. by apply get_absolute_path_idempotent. Defined.

End NavigatorPaths.

Section Escapes.
Import LibC FileNavigator.

(** X23.  What [escape_json] writes can be read back: undoing the
    escapes gives the text again, so that two texts are never written
    the same. *)
Theorem escape_json_round_trip s : unescape_json (escape_json s) = s.
Proof.
  induction s as [|c s IH]; [done|].
  unfold escape_json in *. cbn [flat_map].
  repeat case_bool_decide; subst; cbn [app unescape_json];
    rewrite ?bool_decide_eq_true_2 by done;
    try (rewrite (bool_decide_eq_false_2 (c = BACKSLASH)) by done);
    cbn; by rewrite IH.
Qed.

(** X24.  The text that [escape_json] returns holds no newline, no
    carriage return and no tab, and every double quote in it follows a
    backslash. *)
Theorem escape_json_clean s :
  Forall (λ c, c ≠ NEWLINE ∧ c ≠ RETURN ∧ c ≠ TAB) (escape_json s)
  ∧ ∀ l1 l2, escape_json s = l1 ++ QUOTE :: l2 → last l1 = Some BACKSLASH.
Proof.
  split.
  - unfold escape_json. induction s as [|c s IH]; [constructor|].
    cbn [flat_map]. apply Forall_app. split; [|done].
    repeat case_bool_decide; repeat constructor; done.
  - unfold escape_json. induction s as [|c s IH]; intros l1 l2 Heq.
    { by destruct l1. }
    cbn [flat_map] in Heq.
    assert (Hlong : ∀ x y, [BACKSLASH; y] ++ flat_map x s = l1 ++ QUOTE :: l2 →
              (∀ l1 l2, flat_map x s = l1 ++ QUOTE :: l2 → last l1 = Some BACKSLASH) →
              last l1 = Some BACKSLASH).
    { intros x y Hxy IHx. destruct l1 as [|a l1]; [done|].
      injection Hxy as <- Hxy. destruct l1 as [|b l1]; [done|].
      injection Hxy as <- Hxy. rewrite !last_cons.
      specialize (IHx l1 l2 Hxy).
      destruct l1; [done|]. by rewrite IHx. }
    repeat case_bool_decide; try (by eapply Hlong).
    destruct l1 as [|a l1]; [by injection Heq as ->|].
    injection Heq as <- Heq. rewrite last_cons.
    specialize (IH l1 l2 Heq). by rewrite IH.
Qed.

End Escapes.

(** ** [mkdir], [delete] and [copy] *)

Section NavigatorCommands.
Import LibC Posix FileNavigator.










End NavigatorCommands.

(** ** Commands that only look *)

Section ReadOnly.
Import LibC Posix FileNavigator.

Lemma lstat_fs p w : w_fs (lstat p w).2 = w_fs w.
Proof. unfold lstat. by destruct (w_fs w !! _). Qed.

Lemma stat_fs p w : w_fs (stat p w).2 = w_fs w.
Proof. unfold stat. by destruct (follow _ _) as [[? ?]|]. Qed.

Lemma statvfs_fs p w : w_fs (statvfs p w).2 = w_fs w.
Proof. unfold statvfs. by destruct (follow _ _) as [[? ?]|]. Qed.

Lemma chdir_fs p w : w_fs (chdir p w).2 = w_fs w.
Proof.
  unfold chdir. destruct (follow _ _) as [[? ino]|]; [|done].
  by destruct (is_dir ino).
Qed.

Lemma opendir_fs p w : w_fs (opendir p w).2 = w_fs w.
Proof.
  unfold opendir. destruct (follow _ _) as [[? ino]|]; [|done].
  by destruct (is_dir ino).
Qed.

Lemma readlink_fs p n w : w_fs (readlink p n w).2 = w_fs w.
Proof. by destruct (readlink_same_files p n w). Qed.

Lemma is_directory_fs p w : w_fs (is_directory p w).2 = w_fs w.
Proof.
  unfold is_directory. pose proof (stat_fs p w).
  by destruct (stat p w) as [[?|] ?].
Qed.

Lemma get_directory_contents_fs dir w :
  w_fs (get_directory_contents dir w).2 = w_fs w.
Proof.
  unfold get_directory_contents. pose proof (opendir_fs dir w) as Ho.
  destruct (opendir dir w) as [[listing|] w1]; cbn [snd] in *; [|done].
  destruct (read_entries_spec dir listing [] w1) as (new & w' & -> & [Hfs _] & _).
  cbn [snd]. congruence.
Qed.

Lemma search_queue_fs fuel pattern recursive dirs_queue results w results' w' :
  search_queue fuel pattern recursive dirs_queue results w = Some (results', w') →
  w_fs w' = w_fs w.
Proof.
  revert dirs_queue results w.
  induction fuel as [|fuel IH]; intros dirs_queue results w; [done|].
  cbn [search_queue]. destruct dirs_queue as [|current_dir dirs_queue].
  { by intros [= _ <-]. }
  pose proof (get_directory_contents_fs current_dir w) as Hg.
  destruct (get_directory_contents current_dir w) as [items w1]. cbn [snd] in Hg.
  destruct recursive.
  - intros ->%IH. done.
  - by intros [= _ <-].
Qed.

(** X28.  The commands [list], [cd], [search], [info], [pwd] and
    [diskinfo] change no file, whatever their arguments and their
    answer. *)
Theorem read_only_commands fuel nav command args w r w' :
  command ∈ map cs ["list"; "cd"; "search"; "info"; "pwd"; "diskinfo"]%string →
  execute_command (navigator_handlers fuel nav) command args w = Returned (r, w') →
  w_fs w' = w_fs w.
Proof.
  intros Hcommand.
  repeat (apply elem_of_cons in Hcommand as [->|Hcommand]);
    [..|by apply elem_of_nil in Hcommand];
    unfold execute_command;
    repeat (rewrite bool_decide_eq_false_2 by done);
    rewrite bool_decide_eq_true_2 by done;
    cbn [navigator_handlers h_list_files h_change_directory h_search_files
           h_get_info h_get_current_path h_get_disk_info].
  - unfold list_files. set (p := match args with [] => _ | _ => _ end).
    pose proof (is_directory_fs p w) as Hd.
    destruct (is_directory p w) as [[|] w1]; cbn [snd] in Hd.
    + pose proof (get_directory_contents_fs p w1) as Hg.
      destruct (get_directory_contents p w1) as [items w2].
      intros [= _ <-]. cbn [snd] in Hg. congruence.
    + by intros [= _ <-].
  - unfold change_directory. destruct args as [|a args]; [by intros [= _ <-]|].
    set (p := get_absolute_path nav a).
    pose proof (is_directory_fs p w) as Hd.
    destruct (is_directory p w) as [[|] w1]; cbn [snd] in Hd;
      [|by intros [= _ <-]].
    pose proof (chdir_fs p w1) as Hc.
    destruct (chdir p w1) as [[[]|] w2]; cbn [snd] in Hc.
    + unfold getcwd. intros [= _ <-]. congruence.
    + intros [= _ <-]. congruence.
  - unfold search_files. destruct args as [|pattern more]; [by intros [= _ <-]|].
    destruct (search_queue _ _ _ _ _ _) as [[results w1]|] eqn:Hs; [|done].
    intros [= _ <-]. by eapply search_queue_fs.
  - unfold get_info. destruct args as [|a args].
    + pose proof (get_directory_contents_fs (current_path nav) w) as Hg.
      destruct (get_directory_contents (current_path nav) w) as [items w1].
      pose proof (statvfs_fs (current_path nav) w1) as Hv.
      destruct (statvfs (current_path nav) w1) as [vfs w2].
      intros [= _ <-]. cbn [snd] in *. congruence.
    + set (p := get_absolute_path nav a).
      pose proof (lstat_fs p w) as Hl.
      destruct (lstat p w) as [[statbuf|] w1]; cbn [snd] in Hl;
        [|by intros [= _ <-]].
      destruct (S_ISLNK (st_mode statbuf)).
      * pose proof (readlink_fs p (PATH_MAX - 1) w1) as Hr.
        destruct (readlink p (PATH_MAX - 1) w1) as [[target|] w2];
          cbn [snd] in Hr; intros [= _ <-]; congruence.
      * by intros [= _ <-].
  - by intros [= _ <-].
  - unfold get_disk_info. set (p := match args with [] => _ | _ => _ end).
    pose proof (statvfs_fs p w) as Hv.
    destruct (statvfs p w) as [[vfs|] w1]; cbn [snd] in Hv; by intros [= _ <-].
Qed.

Lemma read_only_commands_witness :
  w_fs (list_files example_navigator [cs "/tmp/demo"] demo_world).2
  = w_fs demo_world.
Proof.
  apply (read_only_commands 4 example_navigator (cs "list") [cs "/tmp/demo"]
           demo_world (list_files example_navigator [cs "/tmp/demo"] demo_world).1).
  - left.
  - unfold execute_command. rewrite bool_decide_eq_true_2 by done.
    cbn [navigator_handlers h_list_files].
    by destruct (list_files _ _ _).
Defined.

(** X29.  [search] without [-r] looks into one directory: it answers
    with the items of its listing whose name contains the pattern, in
    the order of the listing, and with their number. *)
Theorem search_files_flat fuel nav pattern more w :
  more !! 0 ≠ Some (cs "-r") →
  ∃ selected w',
    search_files (S fuel) nav (pattern :: more) w
    = Some (ReplySearch (map search_result_of selected) (length selected), w')
    ∧ w_fs w' = w_fs w
    ∧ selected
      `sublist_of` (get_directory_contents
                      (match more !! 1 with
                       | Some a => get_absolute_path nav a
                       | None => current_path nav
                       end) w).1
    ∧ ∀ item,
        item ∈ selected
        ↔ item ∈ (get_directory_contents
                    (match more !! 1 with
                     | Some a => get_absolute_path nav a
                     | None => current_path nav
                     end) w).1
          ∧ contains pattern (name item).
Proof.
  intros Hr. unfold search_files. rewrite (bool_decide_eq_false_2 _ Hr).
  set (start_path := match more !! 1 with Some a => _ | None => _ end).
  cbn [search_queue].
  pose proof (get_directory_contents_fs start_path w) as Hg.
  destruct (get_directory_contents start_path w) as [items w1]. cbn [fst snd] in *.
  exists (filter (λ item, strstr (name item) pattern = true) items), w1.
  cbn [app]. rewrite length_map. split_and!; [done|done|apply sublist_filter|].
  intros item. rewrite list_elem_of_filter, strstr_contains. tauto.
Qed.

Lemma search_files_flat_witness :
  ∃ selected w',
    search_files 1 example_navigator [cs "a"; cs "-x"; cs "/tmp/demo"] demo_world
    = Some (ReplySearch (map search_result_of selected) (length selected), w')
    ∧ w_fs w' = w_fs demo_world
    ∧ selected
      `sublist_of` (get_directory_contents
                      (match [cs "-x"; cs "/tmp/demo"] !! 1 with
                       | Some a => get_absolute_path example_navigator a
                       | None => current_path example_navigator
                       end) demo_world).1
    ∧ ∀ item,
        item ∈ selected
        ↔ item ∈ (get_directory_contents
                    (match [cs "-x"; cs "/tmp/demo"] !! 1 with
                     | Some a => get_absolute_path example_navigator a
                     | None => current_path example_navigator
                     end) demo_world).1
          ∧ contains (cs "a") (name item).
Proof. by apply (search_files_flat 0). Defined.

End ReadOnly.

(** ** Copying a directory with what is below it *)

Section CopyTree.
Import LibC Posix FileNavigator.
Implicit Types (fs : gmap cstr inode) (c d k n : cstr).



Lemma in_tree_tail dir k :
  in_tree dir k → ∃ r, k = dir ++ r ∧ in_tree [] r.
Proof.
  intros [->|[r ->]].
  - exists []. rewrite app_nil_r. split; [done|by left].
  - exists (SLASH :: r). rewrite <- app_assoc. split; [done|].
    right. by exists r.
Qed.



Lemma in_tree_nil r : in_tree [] r ↔ r = [] ∨ head r = Some SLASH.
Proof.
  unfold in_tree, under. simpl. split; (intros [->|H]; [by left|right]).
  - by destruct H as [r' ->].
  - destruct r as [|x r]; [done|]. injection H as ->. by exists r.
Qed.

Lemma slash_free_prefix_eq (n m r1 r2 : cstr) :
  n ++ r1 = m ++ r2 →
  SLASH ∉ n → SLASH ∉ m →
  (r1 = [] ∨ head r1 = Some SLASH) → (r2 = [] ∨ head r2 = Some SLASH) →
  n = m.
Proof.
  revert m. induction n as [|x n IH]; intros [|y m] Heq Hn Hm Hr1 Hr2.
  - done.
  - simpl in Heq. subst r1. destruct Hr1 as [?|[= ->]]; [done|].
    destruct Hm. left.
  - simpl in Heq. subst r2. destruct Hr2 as [?|[= ->]]; [done|].
    destruct Hn. left.
  - injection Heq as -> Heq. f_equal.
    apply (IH m Heq); [|  |done|done].
    + intros ?. apply Hn. by right.
    + intros ?. apply Hm. by right.
Qed.

(** The trees of two entries of a directory have no name in common. *)
Lemma sibling_trees c n m k :
  SLASH ∉ n → SLASH ∉ m →
  in_tree (c ++ cs "/" ++ n) k → in_tree (c ++ cs "/" ++ m) k → n = m.
Proof.
  intros Hn Hm (r1 & -> & Hr1)%in_tree_tail (r2 & Heq & Hr2)%in_tree_tail.
  rewrite <- !app_assoc in Heq. apply app_inv_head in Heq.
  simpl in Heq. injection Heq as Heq.
  apply in_tree_nil in Hr1, Hr2. by eapply slash_free_prefix_eq.
Qed.



Lemma NoDup_omap_inj {A B} (f : A → option B) (l : list A) :
  (∀ x y z, f x = Some z → f y = Some z → x = y) →
  NoDup l → NoDup (omap f l).
Proof.
  intros Hinj. induction 1 as [|x l Hx Hl IH]; simpl; [constructor|].
  destruct (f x) as [z|] eqn:Hfx; [|done]. constructor; [|done].
  intros (y & Hy & Hfy)%list_elem_of_omap.
  by rewrite (Hinj x y z Hfx Hfy) in Hx.
Qed.

Lemma NoDup_entries fs dir : NoDup (entries fs dir).
Proof.
  apply NoDup_omap_inj; [|apply NoDup_fst_map_to_list].
  intros x y n [-> _]%child_name_Some [-> _]%child_name_Some. done.
Qed.












End CopyTree.

(** ** The recursive search *)

Section SearchTree.
Import LibC Posix FileNavigator.
Implicit Types (fs : gmap cstr inode) (d k n s : cstr) (q : list cstr).

Lemma filter_length_lt {A} (P Q : A → Prop) `{∀ x, Decision (P x)}
    `{∀ x, Decision (Q x)} (l : list A) x :
  (∀ y, y ∈ l → Q y → P y) → x ∈ l → P x → ¬ Q x →
  length (filter Q l) < length (filter P l).
Proof.
  intros Hsub Hx HP HQ.
  assert (Hle : ∀ l', (∀ y, y ∈ l' → Q y → P y) →
            length (filter Q l') ≤ length (filter P l')).
  { induction l' as [|y l' IH]; intros Hs; [simpl; lia|].
    rewrite !filter_cons.
    specialize (IH (λ z Hz, Hs z (list_elem_of_further _ _ _ Hz))).
    destruct (decide (Q y)) as [Hq|Hq].
    - rewrite decide_True by (apply Hs; [left|done]). simpl. lia.
    - destruct (decide (P y)); simpl; lia. }
  induction l as [|y l IH]; [by apply elem_of_nil in Hx|].
  rewrite !filter_cons.
  apply elem_of_cons in Hx as [<-|Hx].
  - destruct (decide (Q x)); [done|]. destruct (decide (P x)); [|done]. simpl.
    specialize (Hle l (λ z Hz, Hsub z (list_elem_of_further _ _ _ Hz))). lia.
  - specialize (IH (λ z Hz, Hsub z (list_elem_of_further _ _ _ Hz)) Hx).
    destruct (decide (Q y)) as [Hq|Hq].
    + rewrite decide_True by (apply Hsub; [left|done]). simpl. lia.
    + destruct (decide (P y)); simpl; lia.
Qed.

(** The listing of a directory of the tree. *)
Lemma listing_spec d w :
  is_absolute d = true → d ≠ cs "/" →
  is_dir <$> w_fs w !! d = Some true →
  ∃ items w1,
    get_directory_contents d w = (items, w1)
    ∧ same_files w w1
    ∧ NoDup (name <$> items)
    ∧ (∀ n, n ∈ name <$> items
            ↔ n ∈ entries (w_fs w) d ∧ n ≠ cs "." ∧ n ≠ cs "..")
    ∧ Forall (λ item,
                path item = d ++ cs "/" ++ name item
                ∧ ∃ ino, w_fs w !! path item = Some ino
                         ∧ type item = type_of_kind (i_kind ino)) items.
Proof.
  intros Habs Hroot Hdir. unfold get_directory_contents.
  rewrite (opendir_dir _ _ Habs Hdir).
  destruct (read_entries_spec d (cs "." :: cs ".." :: entries (w_fs w) d) [] w)
    as (new & w1 & -> & Hs & Hnames & Hall).
  cbn [app]. exists (std_sort item_before new), w1.
  destruct (std_sort_listing new) as [_ Hperm].
  assert (Hpath : ∀ n, item_path d n = d ++ cs "/" ++ n).
  { intros n. unfold item_path. by rewrite bool_decide_eq_false_2. }
  rewrite filter_cons_False in Hnames by (by intros (? & _)).
  rewrite filter_cons_False in Hnames by (by intros (_ & ? & _)).
  split_and!; [done|done| | |].
  - rewrite Hperm, Hnames. apply NoDup_filter, NoDup_entries.
  - intros n. rewrite Hperm, Hnames, list_elem_of_filter. split.
    + by intros ((? & ? & _) & ?).
    + intros (Hin & ? & ?). split; [|done]. split_and!; try done.
      apply elem_of_entries_child in Hin as (Hk & _); [|done].
      rewrite locate_absolute by (by apply item_path_absolute).
      by rewrite Hpath.
  - rewrite Hperm. eapply Forall_impl; [exact Hall|].
    intros item (ino & Hk & Ht & Hp). rewrite Hp, Hpath. split; [done|].
    exists ino. split; [|done].
    rewrite locate_absolute in Hk by (rewrite Hp; by apply item_path_absolute).
    by rewrite Hp, Hpath in Hk.
Qed.

Lemma map_fmap_eq {A B} (f : A → B) (l : list A) : map f l = f <$> l.
Proof. induction l as [|x l IH]; [done|]. simpl. by rewrite IH. Qed.

Lemma NoDup_fmap_filter {A B} (f : A → B) (P : A → Prop)
    `{∀ x, Decision (P x)} (l : list A) :
  NoDup (f <$> l) → NoDup (f <$> filter P l).
Proof.
  induction l as [|x l IH]; [intros _; constructor|].
  rewrite fmap_cons, NoDup_cons.
  intros [Hx Hl]. rewrite filter_cons. destruct (decide (P x)); [|by apply IH].
  rewrite fmap_cons. constructor; [|by apply IH].
  intros (y & Hy & [_ Hin]%list_elem_of_filter)%list_elem_of_fmap.
  apply Hx. apply list_elem_of_fmap. by exists y.
Qed.

Lemma in_tree_absolute s d :
  is_absolute s = true → in_tree s d → is_absolute d = true.
Proof.
  unfold is_absolute. rewrite !bool_decide_eq_true.
  intros Hs [->|[r ->]]; [done|]. by destruct s.
Qed.

Lemma in_tree_not_root s d :
  is_absolute s = true → s ≠ cs "/" → in_tree s d → d ≠ cs "/".
Proof.
  unfold is_absolute. rewrite bool_decide_eq_true.
  intros Hs Hroot [->|[r ->]]; [done|].
  destruct s as [|x s]; [done|]. injection Hs as ->.
  destruct s; [done|]. done.
Qed.

(** The queue once a directory has been gone through reaches less. *)
Lemma unvisited_step fs d rest (children : list cstr) :
  is_Some (fs !! d) →
  apart (d :: rest) →
  Forall (λ c, under d c) children →
  unvisited fs (rest ++ children) < unvisited fs (d :: rest).
Proof.
  intros [ino Hk] [Hnd Hap] Hch. unfold unvisited.
  apply (filter_length_lt _ _ _ d).
  - intros k _ [c [[Hc|Hc]%elem_of_app Hin]]%Exists_exists;
      apply Exists_exists.
    + exists c. split; [by right|done].
    + exists d. split; [left|]. rewrite Forall_forall in Hch.
      right. destruct Hin as [->|Hin]; [by apply Hch|].
      eapply under_trans; [by apply Hch|done].
  - apply list_elem_of_fmap. exists (d, ino). split; [done|].
    by apply elem_of_map_to_list.
  - apply Exists_cons_hd. by left.
  - intros [c [[Hc|Hc]%elem_of_app Hin]]%Exists_exists.
    + apply NoDup_cons in Hnd as [Hd _]. apply Hd.
      rewrite <- (Hap c d); [done|by right|left|done].
    + rewrite Forall_forall in Hch. specialize (Hch c Hc).
      apply under_length in Hch.
      destruct Hin as [->|Hin%under_length]; lia.
Qed.

(** The loop of the recursive search: what it has found and what it
    has yet to look into. *)
Lemma search_queue_tree pattern s w0 :
  is_absolute s = true → s ≠ cs "/" → tree_shaped (w_fs w0) s →
  ∀ fuel q rs w,
    same_files w0 w →
    unvisited (w_fs w0) q < fuel →
    Forall (λ d, in_tree s d ∧ is_dir <$> w_fs w0 !! d = Some true) q →
    apart q →
    Forall (λ r, search_hit pattern s (w_fs w0) r
                 ∧ ¬ queued_above q (sr_path r)) rs →
    (∀ k, under s k → is_Some (w_fs w0 !! k) →
          contains pattern (split_path k).2 →
          k ∈ sr_path <$> rs ∨ queued_above q k) →
    NoDup (sr_path <$> rs) →
    ∃ rs' w',
      search_queue fuel pattern true q rs w = Some (rs', w')
      ∧ same_files w0 w'
      ∧ NoDup (sr_path <$> rs')
      ∧ Forall (search_hit pattern s (w_fs w0)) rs'
      ∧ (∀ k, under s k → is_Some (w_fs w0 !! k) →
              contains pattern (split_path k).2 → k ∈ sr_path <$> rs').
Proof.
  intros Habs Hroot Ht fuel.
  induction fuel as [|fuel IH];
    intros q rs w Hsame Hfuel Hq Hapart Hsound Hcomplete Hnd; [lia|].
  cbn [search_queue]. destruct q as [|d rest].
  { exists rs, w. split_and!; try done.
    - eapply Forall_impl; [exact Hsound|]. by intros r [? _].
    - intros k Hu Hk Hm. destruct (Hcomplete k Hu Hk Hm) as [?|Hex]; [done|].
      by apply Exists_nil in Hex. }
  inversion Hq as [|? ? [Hds Hddir] Hrest]; subst.
  destruct Hsame as [Hfs Henv].
  pose proof (in_tree_absolute _ _ Habs Hds) as Hdabs.
  pose proof (in_tree_not_root _ _ Habs Hroot Hds) as Hdroot.
  destruct (listing_spec d w)
    as (items & w1 & -> & [Hfs1 Henv1] & Hndn & Hnames & Hitems); try done.
  { by rewrite Hfs. }
  rewrite Hfs in Hnames, Hitems.
  set (fs := w_fs w0) in *.
  assert (Htd : tree_shaped fs d) by (by eapply tree_shaped_sub).
  destruct Hapart as [Hnd0 Hap].
  apply NoDup_cons in Hnd0 as [Hdrest Hndrest].
  assert (Hitem : ∀ item, item ∈ items →
            path item = d ++ cs "/" ++ name item
            ∧ (SLASH ∉ name item)
            ∧ ∃ ino, fs !! path item = Some ino
                     ∧ type item = type_of_kind (i_kind ino)).
  { intros item Hin. rewrite Forall_forall in Hitems.
    destruct (Hitems item Hin) as [Hp Hino]. split; [done|]. split; [|done].
    assert (Hn : name item ∈ name <$> items)
      by (apply list_elem_of_fmap; by exists item).
    apply Hnames in Hn as [Hn _].
    by apply elem_of_entries_child in Hn as (_ & _ & ?). }
  assert (Hunder : ∀ item, item ∈ items → under d (path item)).
  { intros item [-> _]%Hitem. apply under_child. }
  assert (Hndp : NoDup (path <$> items)).
  { assert (Hpaths : path <$> items
                     = (λ n, d ++ cs "/" ++ n) <$> (name <$> items)).
    { rewrite <- list_fmap_compose. apply Forall_fmap_ext, Forall_forall.
      intros item Hin. by destruct (Hitem item Hin) as [-> _]. }
    rewrite Hpaths. apply NoDup_fmap_2; [|done].
    intros n m Heq. apply app_inv_head in Heq. by injection Heq. }
  assert (Hnotrest : ∀ c item, c ∈ rest → item ∈ items →
            ¬ in_tree c (path item)).
  { intros c item Hc Hin Htree.
    destruct (Hitem item Hin) as (Hp & Hfree & _). rewrite Hp in Htree.
    assert (Hcd : in_tree c d).
    { destruct Htree as [<-|Hu]; [|by eapply under_split].
      exfalso.
      assert (Heq : d = d ++ cs "/" ++ name item)
        by (apply Hap; [left|by right|right; apply under_child]).
      apply (f_equal length) in Heq. rewrite !length_app in Heq.
      simpl in Heq. lia. }
    apply Hdrest. rewrite <- (Hap c d); [done|by right|left|done]. }
  set (hits := filter (λ item, strstr (name item) pattern = true) items).
  set (subdirs := filter (λ item, type item = TypeDirectory) items).
  rewrite !map_fmap_eq.
  apply IH.
  - split; [by rewrite Hfs1|by rewrite Henv1].
  - assert (unvisited fs (rest ++ (path <$> subdirs))
            < unvisited fs (d :: rest)); [|lia].
    apply unvisited_step; [|split; [by apply NoDup_cons|done]|].
    + destruct (fmap_is_dir_Some _ _ _ Hddir) as (ino & -> & _). by eexists.
    + apply Forall_forall.
      intros c (item & -> & [_ Hin]%list_elem_of_filter)%list_elem_of_fmap.
      by apply Hunder.
  - apply Forall_app. split; [done|]. apply Forall_forall.
    intros c (item & -> & [Hty Hin]%list_elem_of_filter)%list_elem_of_fmap.
    split; [right; eapply in_tree_under; [exact Hds|by apply Hunder]|].
    destruct (Hitem item Hin) as (_ & _ & ino & -> & Hkind). simpl. f_equal.
    rewrite Hty in Hkind. unfold is_dir. by destruct (i_kind ino).
  - split.
    + apply NoDup_app. split_and!; [done| |by apply NoDup_fmap_filter].
      intros c Hc (item & -> & [_ Hin]%list_elem_of_filter)%list_elem_of_fmap.
      apply (Hnotrest (path item) item Hc Hin). by left.
    + intros c c' [Hc|Hc]%elem_of_app [Hc'|Hc']%elem_of_app Hin.
      * apply Hap; [by right|by right|done].
      * apply list_elem_of_fmap in Hc'
          as (item & -> & [_ Hitm]%list_elem_of_filter).
        by destruct (Hnotrest c item Hc Hitm).
      * apply list_elem_of_fmap in Hc
          as (item & -> & [_ Hitm]%list_elem_of_filter).
        exfalso. apply Hdrest.
        rewrite (Hap d c'); [done|left|by right|].
        right. eapply under_trans; [by apply Hunder|].
        destruct Hin as [->|Hin]; [|done]. exfalso.
        by apply (Hnotrest (path item) item Hc' Hitm); left.
      * apply list_elem_of_fmap in Hc
          as (item & -> & [_ Hitm]%list_elem_of_filter).
        apply list_elem_of_fmap in Hc'
          as (item' & -> & [_ Hitm']%list_elem_of_filter).
        destruct (Hitem item Hitm) as (Hp & Hfree & _).
        destruct (Hitem item' Hitm') as (Hp' & Hfree' & _).
        rewrite Hp, Hp' in *.
        by rewrite (sibling_trees d (name item) (name item')
                      (d ++ cs "/" ++ name item') Hfree Hfree' Hin (or_introl eq_refl)).
  - apply Forall_app. split.
    + eapply Forall_impl; [exact Hsound|]. intros r [Hhit Hq0]. split; [done|].
      intros [c [[Hc|Hc]%elem_of_app Hu]]%Exists_exists; apply Hq0.
      * apply Exists_cons_tl, Exists_exists. by exists c.
      * apply Exists_cons_hd.
        apply list_elem_of_fmap in Hc
          as (item & -> & [_ Hitm]%list_elem_of_filter).
        eapply under_trans; [by apply Hunder|done].
    + apply Forall_forall.
      intros r (item & -> & [Hm Hin]%list_elem_of_filter)%list_elem_of_fmap.
      destruct (Hitem item Hin) as (Hp & Hfree & Hino).
      split.
      * split_and!.
        -- eapply in_tree_under; [exact Hds|by apply Hunder].
        -- cbn [search_result_of sr_name sr_path]. rewrite Hp.
           by rewrite (split_path_child d (name item) Hfree
                       : split_path (d ++ cs "/" ++ name item) = _).
        -- by apply strstr_contains.
        -- done.
      * cbn [search_result_of sr_path].
        intros [c [[Hc|Hc]%elem_of_app Hu]]%Exists_exists.
        -- apply (Hnotrest c item Hc Hin). by right.
        -- apply list_elem_of_fmap in Hc
             as (item' & -> & [_ Hitm']%list_elem_of_filter).
           destruct (Hitem item' Hitm') as (Hp' & Hfree' & _).
           rewrite Hp, Hp' in Hu.
           apply (in_tree_not_parent d (name item')).
           by eapply under_split.
  - intros k Hu Hk Hm. rewrite fmap_app.
    destruct (Hcomplete k Hu Hk Hm) as [Hold|Hqueue].
    { left. apply elem_of_app. by left. }
    apply Exists_cons in Hqueue as [Hd|Hrestq].
    2:{ right. apply Exists_app. by left. }
    destruct (tree_entry fs d k Hdroot Htd Hk Hd) as (n & Hn & Hin & Hd1 & Hd2).
    assert (Hex : n ∈ name <$> items) by (by apply Hnames).
    apply list_elem_of_fmap in Hex as (item & -> & Hitm).
    destruct (Hitem item Hitm) as (Hp & Hfree & ino & Hino & Hty).
    destruct Hin as [->|Hbelow].
    + left. apply elem_of_app. right.
      rewrite <- list_fmap_compose. apply list_elem_of_fmap. exists item.
      split; [done|]. apply list_elem_of_filter. split; [|done].
      apply strstr_contains.
      by rewrite (split_path_child d (name item) Hfree
                  : split_path (d ++ cs "/" ++ name item) = _) in Hm.
    + right. apply Exists_app. right. apply Exists_exists.
      exists (path item). split; [|by rewrite Hp].
      apply list_elem_of_fmap. exists item. split; [done|].
      apply list_elem_of_filter. split; [|done].
      assert (Hdirc : is_dir <$> fs !! path item = Some true).
      { rewrite Hp. apply (ancestor_is_dir fs d k); try done.
        right. apply under_child. }
      rewrite Hino in Hdirc. injection Hdirc as Hdirc.
      rewrite Hty. unfold is_dir in Hdirc. by destruct (i_kind ino).
  - rewrite fmap_app. apply NoDup_app. split_and!; [done| |].
    + intros k Hold Hnew. rewrite Forall_forall in Hsound.
      apply list_elem_of_fmap in Hold as (r & -> & Hr).
      destruct (Hsound r Hr) as [_ Hq0]. apply Hq0, Exists_cons_hd.
      rewrite <- list_fmap_compose in Hnew.
      apply list_elem_of_fmap in Hnew
        as (item & Heq & [_ Hitm]%list_elem_of_filter).
      rewrite Heq. by apply Hunder.
    + rewrite <- list_fmap_compose. by apply (NoDup_fmap_filter path).
Qed.

(** X22.  [search -r] below a directory [start] whose tree is well
    formed, with fuel for the nodes of the file system: the search
    ends and changes no file; its results are, once each, the nodes
    below [start], at any depth, whose name holds the pattern, and each
    result carries the name and the class of its node. *)
Theorem search_files_recursive fuel nav pattern start w :
  is_absolute start = true → start ≠ cs "/" →
  is_dir <$> w_fs w !! start = Some true →
  tree_shaped (w_fs w) start →
  base.size (w_fs w) < fuel →
  ∃ results w',
    search_files fuel nav [pattern; cs "-r"; start] w
    = Some (ReplySearch results (length results), w')
    ∧ w_fs w' = w_fs w
    ∧ NoDup (sr_path <$> results)
    ∧ Forall (search_hit pattern start (w_fs w)) results
    ∧ ∀ k, under start k → is_Some (w_fs w !! k) →
           contains pattern (split_path k).2 → k ∈ sr_path <$> results.
Proof.
  intros Habs Hroot Hdir Ht Hfuel. unfold search_files.
  rewrite bool_decide_eq_true_2 by done. cbn [lookup list_lookup].
  rewrite (get_absolute_path_absolute _ _ Habs).
  destruct (search_queue_tree pattern start w Habs Hroot Ht fuel [start] [] w)
    as (rs & w' & -> & [Hfs _] & Hnd & Hhits & Hall).
  - done.
  - eapply Nat.le_lt_trans; [|exact Hfuel]. unfold unvisited.
    etrans; [apply length_filter|].
    by rewrite length_fmap, length_map_to_list.
  - constructor; [|done]. split; [by left|done].
  - split; [apply NoDup_singleton|].
    by intros d d' ->%list_elem_of_singleton ->%list_elem_of_singleton _.
  - constructor.
  - intros k Hu _ _. right. by apply Exists_cons_hd.
  - constructor.
  - by exists rs, w'.
Qed.

Lemma search_files_recursive_witness :
  ∃ results w',
    search_files 16 example_navigator [cs "txt"; cs "-r"; cs "/tmp/demo"]
      demo_world
    = Some (ReplySearch results (length results), w')
    ∧ w_fs w' = w_fs demo_world
    ∧ NoDup (sr_path <$> results)
    ∧ Forall (search_hit (cs "txt") (cs "/tmp/demo") (w_fs demo_world)) results
    ∧ ∀ k, under (cs "/tmp/demo") k → is_Some (w_fs demo_world !! k) →
           contains (cs "txt") (split_path k).2 → k ∈ sr_path <$> results.
Proof.
  apply (search_files_recursive 16 example_navigator (cs "txt")
           (cs "/tmp/demo") demo_world).
  - vm_compute. reflexivity.
  - discriminate.
  - vm_compute. reflexivity.
  - match goal with |- ?P => apply (bool_decide_unpack P) end.
    vm_compute. exact I.
  - vm_compute. lia.
Defined.

End SearchTree.

(** ** [info] and the listing *)

Section InfoAndList.
Import LibC Posix FileNavigator.

(** Every item of the loop is made by [make_item] from an entry that
    [lstat] finds. *)
Lemma read_entries_made dir entries items w :
  ∃ new w',
    read_entries dir entries items w = (items ++ new, w')
    ∧ same_files w w'
    ∧ Forall (λ item,
                ∃ n ino w1 w2,
                  n ∈ entries ∧ n ≠ cs "." ∧ n ≠ cs ".."
                  ∧ same_files w w1
                  ∧ w_fs w !! locate w (item_path dir n) = Some ino
                  ∧ make_item dir n (stat_of ino) w1 = (item, w2)) new.
Proof.
  revert items w.
  induction entries as [|n rest IH]; intros items w; cbn [read_entries].
  - exists [], w. by rewrite app_nil_r.
  - assert (Hmore : ∀ items' w0,
              same_files w w0 →
              ∃ new w',
                read_entries dir rest items' w0 = (items' ++ new, w')
                ∧ same_files w w'
                ∧ Forall (λ item,
                            ∃ n0 ino w1 w2,
                              n0 ∈ n :: rest ∧ n0 ≠ cs "." ∧ n0 ≠ cs ".."
                              ∧ same_files w w1
                              ∧ w_fs w !! locate w (item_path dir n0) = Some ino
                              ∧ make_item dir n0 (stat_of ino) w1 = (item, w2))
                    new).
    { intros items' w0 Hs0.
      destruct (IH items' w0) as (new & w' & -> & Hs & Hall).
      exists new, w'. split; [done|]. split; [by eapply same_files_trans|].
      eapply Forall_impl; [exact Hall|].
      intros item (n0 & ino & w1 & w2 & ? & ? & ? & Hs1 & Hk & Hmk).
      exists n0, ino, w1, w2. split_and!; try done.
      - by right.
      - by eapply same_files_trans.
      - destruct Hs0 as [Hfs0 Henv0]. unfold locate in *.
        by rewrite <- Hfs0, <- Henv0. }
    unfold strcmp_eq.
    destruct (bool_decide_reflect (n = cs ".")) as [Hd|Hd]; cbn [orb].
    { by apply Hmore. }
    destruct (bool_decide_reflect (n = cs "..")) as [Hdd|Hdd].
    { by apply Hmore. }
    destruct (w_fs w !! locate w (item_path dir n)) as [ino|] eqn:Hk.
    + rewrite (lstat_Some _ _ _ Hk).
      destruct (make_item_spec dir n ino w)
        as (item & w1 & Hmk & Hs1 & _). rewrite Hmk.
      destruct (Hmore (items ++ [item]) w1 Hs1) as (new & w' & -> & Hs & Hall).
      exists (item :: new), w'. rewrite <- app_assoc.
      split_and!; try done. constructor; [|done].
      exists n, ino, w, w1. split_and!; try done. left.
    + rewrite (lstat_None _ _ Hk).
      destruct (Hmore items (set_errno ENOENT w)) as (new & w' & -> & Hs & Hall);
        [done|].
      by exists new, w'.
Qed.

Lemma item_base dir n :
  SLASH ∉ n →
  match find_last_of (item_path dir n) SLASH with
  | Some pos => drop (pos + 1) (item_path dir n)
  | None => item_path dir n
  end = n.
Proof.
  intros Hn. rewrite item_path_child.
  destruct (bool_decide (dir = cs "/")) eqn:Hroot.
  - apply bool_decide_eq_true in Hroot as ->.
    change (cs "/" ++ n) with ([] ++ SLASH :: n).
    by rewrite (find_last_of_last [] SLASH n Hn).
  - rewrite <- app_assoc. cbn [app].
    rewrite (find_last_of_last dir SLASH n Hn).
    by rewrite drop_app_add.
Qed.

(** X30.  What [info] shows for an item of a listing: the same name,
    path, class, time, flags, permissions, owner, group and link target
    as the listing; the listing gives a link the size 0, [info] the
    length of its target. *)
Theorem get_info_agrees_with_list nav dir ino w item :
  is_absolute dir = true →
  w_fs w !! dir = Some ino → is_dir ino = true →
  item ∈ (get_directory_contents dir w).1 →
  ∃ info w',
    get_info nav [path item] w = (ReplyFileInfo info, w')
    ∧ name info = name item ∧ path info = path item ∧ type info = type item
    ∧ modified info = modified item
    ∧ isHidden info = isHidden item ∧ isReadOnly info = isReadOnly item
    ∧ permissions info = permissions item
    ∧ owner info = owner item ∧ group info = group item
    ∧ symlinkTarget info = symlinkTarget item
    ∧ size item
      = (if bool_decide (type item = TypeSymlink) then 0%Z else size info)
    ∧ ∀ target,
        i_kind <$> w_fs w !! path item = Some (Symlink target) →
        size info = Z.of_nat (length target).
Proof.
  intros Habs Hdir Hisdir. unfold get_directory_contents, opendir.
  rewrite (locate_absolute _ _ Habs), (follow_dir _ _ _ Hdir Hisdir), Hisdir.
  destruct (read_entries_made dir (cs "." :: cs ".." :: entries (w_fs w) dir)
              [] w) as (new & w0 & -> & _ & Hall).
  cbn [fst app]. destruct (std_sort_listing new) as [_ Hperm].
  rewrite Hperm. intros Hin. rewrite Forall_forall in Hall.
  destruct (Hall item Hin)
    as (n & ino' & w1 & w2 & Hn & Hd & Hdd & [Hfs1 Henv1] & Hk & Hmk).
  apply elem_of_cons in Hn as [?|Hn]; [done|].
  apply elem_of_cons in Hn as [?|Hn]; [done|].
  apply elem_of_entries in Hn as (k & _ & Hchild).
  apply child_name_Some in Hchild as (_ & _ & Hfree).
  pose proof (item_path_absolute dir n Habs) as Hpabs.
  rewrite (locate_absolute _ _ Hpabs) in Hk.
  pose proof (item_base dir n Hfree) as Hbase.
  unfold make_item in Hmk. rewrite S_ISLNK_stat, S_ISDIR_stat in Hmk.
  unfold get_info.
  unfold is_dir in *.
  destruct (i_kind ino') as [data| |target] eqn:Hkind.
  - injection Hmk as <- _. cbn [path].
    rewrite (get_absolute_path_absolute _ _ Hpabs).
    rewrite (lstat_Some _ w ino') by (by rewrite locate_absolute).
    rewrite S_ISLNK_stat, S_ISDIR_stat. unfold is_dir. rewrite Hkind, Hbase.
    eexists _, _. split; [done|].
    cbn [name path type size modified isHidden isReadOnly permissions owner
           group symlinkTarget].
    unfold time_to_string, owner_name, group_name. rewrite Henv1.
    split_and!; try done; try (by unfold stat_of; cbn; rewrite Hkind).
    intros t. rewrite Hk. cbn. by rewrite Hkind.
  - injection Hmk as <- _. cbn [path].
    rewrite (get_absolute_path_absolute _ _ Hpabs).
    rewrite (lstat_Some _ w ino') by (by rewrite locate_absolute).
    rewrite S_ISLNK_stat, S_ISDIR_stat. unfold is_dir. rewrite Hkind, Hbase.
    eexists _, _. split; [done|].
    cbn [name path type size modified isHidden isReadOnly permissions owner
           group symlinkTarget].
    unfold time_to_string, owner_name, group_name. rewrite Henv1.
    split_and!; try done; try (by unfold stat_of; cbn; rewrite Hkind).
    intros t. rewrite Hk. cbn. by rewrite Hkind.
  - assert (Hl1 : readlink (item_path dir n) (PATH_MAX - 1) w1
                  = (Some (take (PATH_MAX - 1) target), w1)).
    { unfold readlink. rewrite locate_absolute by done.
      by rewrite Hfs1, Hk, Hkind. }
    assert (Hl : readlink (item_path dir n) (PATH_MAX - 1) w
                 = (Some (take (PATH_MAX - 1) target), w)).
    { unfold readlink. rewrite locate_absolute by done. by rewrite Hk, Hkind. }
    rewrite Hl1 in Hmk. injection Hmk as <- _. cbn [path].
    rewrite (get_absolute_path_absolute _ _ Hpabs).
    rewrite (lstat_Some _ w ino') by (by rewrite locate_absolute).
    rewrite S_ISLNK_stat, S_ISDIR_stat. unfold is_dir. rewrite Hkind, Hl, Hbase.
    eexists _, _. split; [done|].
    cbn [name path type size modified isHidden isReadOnly permissions owner
           group symlinkTarget].
    unfold time_to_string, owner_name, group_name. rewrite Henv1.
    split_and!; try done; try (by unfold stat_of; cbn; rewrite Hkind).
    intros t. rewrite Hk. cbn. rewrite Hkind.
    intros [= <-]. unfold stat_of. cbn. by rewrite ?Hkind.
Qed.

Lemma get_info_agrees_with_list_witness :
  ∃ item,
    item ∈ (get_directory_contents (cs "/tmp/demo") demo_world).1
    ∧ name item = cs "latest"
    ∧ size item = 0%Z
    ∧ ∃ info w',
        get_info example_navigator [path item] demo_world
        = (ReplyFileInfo info, w')
        ∧ type info = type item
        ∧ permissions info = permissions item
        ∧ size info = 5%Z.
Proof.
  assert (Hitem : ∃ item,
            (get_directory_contents (cs "/tmp/demo") demo_world).1 !! 1
            = Some item ∧ name item = cs "latest" ∧ size item = 0%Z).
  { eexists. vm_compute. repeat split. }
  destruct Hitem as (item & Hlook & Hname & Hsize).
  exists item. split; [by eapply list_elem_of_lookup_2|].
  split; [done|]. split; [done|].
  destruct (get_info_agrees_with_list example_navigator (cs "/tmp/demo")
              (node Directory 0x1ED) demo_world item)
    as (info & w' & Hrun & _ & _ & Hty & _ & _ & _ & Hperm & _ & _ & _ & _ & Hlen);
    [reflexivity|vm_compute; reflexivity|reflexivity|
     by eapply list_elem_of_lookup_2|].
  exists info, w'. split; [exact Hrun|]. split; [exact Hty|].
  split; [exact Hperm|]. apply (Hlen (cs "a.txt")).
  apply (f_equal (fmap path)) in Hlook.
  revert Hlook. vm_compute. intros [= <-]. reflexivity.
Defined.

End InfoAndList.
